(** * git-monitor: the repository status classifier and its request handler

    A shallow embedding of [server.ts].  Two revisions of the file are
    modelled side by side:

    - [Flat]    : the revision with a flat project list
                  ([getRepoStatus(path)], [Promise.all] in the listener);
    - [Grouped] : the revision with groups and the optional [gitDir]
                  ([getRepoStatus(projectPath, gitDir)], sequential loops that
                  write [project.repoStatus]).

    Strings are [string]s of 8-bit characters read as code units
    U+0000..U+00FF.  The outside world is a state of an arbitrary type
    [World]; [child_process.exec] is a transition on it that either throws
    before it has spawned anything or reports, once, through its callback. *)

From Stdlib Require Import String Ascii ZArith List Bool Lia.
From stdpp Require Import gmap strings list.
Import ListNotations.

Local Open Scope string_scope.
Local Open Scope Z_scope.

(** ** The JavaScript built-ins the program calls *)

Module JS.

(** The double quote, U+0022, which the command templates contain. *)
Definition dquote : string := String (ascii_of_nat 34) EmptyString.

(** The line feed, U+000A: the separator of [split("\n")]. *)
Definition LF : ascii := ascii_of_nat 10.

(** [String.prototype.indexOf(searchString)]: the index of the first
    occurrence, [-1] when there is none. *)
Definition indexOf (s searchString : string) : Z :=
  match String.index 0 searchString s with
  | Some i => Z.of_nat i
  | None => -1
  end.

(** ECMAScript WhiteSpace and LineTerminator among U+0000..U+00FF:
    TAB, LF, VT, FF, CR, SP and NBSP. *)
Definition isWhiteSpace (c : ascii) : bool :=
  let n := nat_of_ascii c in
  orb (andb (Nat.leb 9 n) (Nat.leb n 13)) (orb (Nat.eqb n 32) (Nat.eqb n 160)).

Fixpoint trimStart (s : string) : string :=
  match s with
  | EmptyString => EmptyString
  | String c r => if isWhiteSpace c then trimStart r else s
  end.

Fixpoint trimEnd (s : string) : string :=
  match s with
  | EmptyString => EmptyString
  | String c r =>
      match trimEnd r with
      | EmptyString => if isWhiteSpace c then EmptyString else String c EmptyString
      | r' => String c r'
      end
  end.

(** [String.prototype.trim()]. *)
Definition trim (s : string) : string := trimEnd (trimStart s).

(** [String.prototype.split(separator)] for a one-character separator: the
    pieces between separators; the empty string splits into one empty piece. *)
Fixpoint split (sep : ascii) (s : string) : list string :=
  match s with
  | EmptyString => [EmptyString]
  | String c r =>
      if Ascii.eqb c sep then EmptyString :: split sep r
      else match split sep r with
           | piece :: pieces => String c piece :: pieces
           | [] => [String c EmptyString]
           end
  end.

(** [String.prototype.substr(start, length)]. *)
Definition substr (s : string) (start len : nat) : string := substring start len s.

(** [Array.prototype.indexOf(searchElement)] on an array of strings. *)
Fixpoint Array_indexOf_from (i : Z) (a : list string) (x : string) : Z :=
  match a with
  | [] => -1
  | y :: a' => if String.eqb y x then i else Array_indexOf_from (i + 1) a' x
  end.

Definition Array_indexOf (a : list string) (x : string) : Z := Array_indexOf_from 0 a x.

(** [Array.prototype.length]. *)
Definition Array_length {A} (a : list A) : Z := Z.of_nat (List.length a).

(** A JavaScript number as far as [parseInt] and [> 0] need it: [NaN] or an
    integer.  (The rounding of large integers to doubles keeps the sign, so
    the comparison with zero is the one on the exact value.) *)
Inductive Number : Type :=
| NaN
| Int (z : Z).

(** The value of [c] as a digit of the given radix. *)
Definition digitValue (radix : Z) (c : ascii) : option Z :=
  let n := Z.of_nat (nat_of_ascii c) in
  let v := if (48 <=? n) && (n <=? 57) then Some (n - 48)
           else if (97 <=? n) && (n <=? 122) then Some (n - 87)
           else if (65 <=? n) && (n <=? 90) then Some (n - 55)
           else None in
  match v with
  | Some d => if d <? radix then Some d else None
  | None => None
  end.

(** The value of the longest prefix of [s] made of digits of the radix,
    [acc] being the value read so far ([None]: no digit yet). *)
Fixpoint parseDigits (radix : Z) (s : string) (acc : option Z) : option Z :=
  match s with
  | EmptyString => acc
  | String c r =>
      match digitValue radix c with
      | Some d => parseDigits radix r (Some (match acc with Some a => a * radix + d | None => d end))
      | None => acc
      end
  end.

(** [parseInt(string)] with no radix argument: leading white space is
    skipped, then an optional sign, then [0x]/[0X] selects radix 16 (otherwise
    10), then the longest run of digits is read; [NaN] when there is none. *)
Definition parseInt (s : string) : Number :=
  let s1 := trimStart s in
  let '(sign, s2) :=
    match s1 with
    | String c r =>
        if Ascii.eqb c "-" then (-1, r)
        else if Ascii.eqb c "+" then (1, r)
        else (1, s1)
    | EmptyString => (1, s1)
    end in
  let '(radix, s3) :=
    match s2 with
    | String c0 (String cx r) =>
        if Ascii.eqb c0 "0" && (Ascii.eqb cx "x" || Ascii.eqb cx "X") then (16, r) else (10, s2)
    | _ => (10, s2)
    end in
  match parseDigits radix s3 None with
  | Some m => Int (sign * m)
  | None => NaN
  end.

(** [n > z] on numbers: false on [NaN]. *)
Definition gt (n : Number) (z : Z) : bool :=
  match n with
  | NaN => false
  | Int m => z <? m
  end.

End JS.

(** ** The status enumeration and its presentation *)

Inductive RepoStatus : Type :=
| PathNotFound
| NotAGitRepo
| NoCommitsYet
| UntrackedFiles
| UncommittedChanges
| UnpushedChanges
| UnpulledChanges
| Okay
| UnknownError.

#[global] Instance RepoStatus_eq_dec : EqDecision RepoStatus.
Proof. solve_decision. Defined.

(** The string value of each member of the enum. *)
Definition RepoStatus_value (status : RepoStatus) : string :=
  match status with
  | PathNotFound => "Path does not exist"
  | NotAGitRepo => "Not a git repo"
  | NoCommitsYet => "No commits yet"
  | UntrackedFiles => "Untracked files"
  | UncommittedChanges => "Uncommitted changes"
  | UnpushedChanges => "Ahead of remote branch"
  | UnpulledChanges => "Behind remote branch"
  | Okay => "Okay!"
  | UnknownError => "Unknown Error"
  end.

(** The two [switch] statements.  Their argument is a project's status, which
    the grouped renderer reads from a field that may be [undefined] ([None]);
    that value, like [UnknownError], reaches the [default] branch. *)
Definition getStatusIconName (status : option RepoStatus) : string :=
  match status with
  | Some PathNotFound => "fa-exclamation-circle"
  | Some NotAGitRepo => "fa-exclamation-circle"
  | Some NoCommitsYet => "fa-baby"
  | Some UntrackedFiles => "fa-search"
  | Some UncommittedChanges => "fa-pencil-alt"
  | Some UnpushedChanges => "fa-exchange-alt fa-rotate-90"
  | Some UnpulledChanges => "fa-exchange-alt fa-rotate-90"
  | Some Okay => "fa-check-circle"
  | _ => "fa-exclamation-circle"
  end.

Definition getStatusTextClass (status : option RepoStatus) : string :=
  match status with
  | Some PathNotFound => "has-text-danger"
  | Some NotAGitRepo => "has-text-danger"
  | Some NoCommitsYet => "has-text-warning"
  | Some UntrackedFiles => "has-text-warning"
  | Some UncommittedChanges => "has-text-warning"
  | Some UnpushedChanges => "has-text-warning"
  | Some UnpulledChanges => "has-text-warning"
  | Some Okay => "has-text-success"
  | _ => "has-text-danger"
  end.

(** What [`${status}`] interpolates. *)
Definition statusText (status : option RepoStatus) : string :=
  match status with
  | Some s => RepoStatus_value s
  | None => "undefined"
  end.

(** One card of the dashboard: the data the HTML template interpolates for a
    project (text class, icon, name, status text).  The static markup around
    them is not modelled. *)
Record Card : Type := mkCard {
  card_textClass : string;
  card_icon : string;
  card_name : string;
  card_status : string
}.

(** The response as the listener leaves it: [setHeader], [writeHead], [end]. *)
Record Response (Body : Type) : Type := mkResponse {
  contentType : string;
  statusCode : Z;
  body : Body
}.
Arguments mkResponse {Body}.
Arguments contentType {Body}.
Arguments statusCode {Body}.
Arguments body {Body}.

(** ** Promises and the command runner *)

(** A settled promise. *)
Inductive Promise (A : Type) : Type :=
| Resolved (value : A)
| Rejected (reason : string).
Arguments Resolved {A}.
Arguments Rejected {A}.

(** The error [child_process.exec] hands to its callback when the child exits
    with a nonzero code, is killed, or cannot be run. *)
Record ExecException : Type := mkExecException {
  message : string;
  code : option Z
}.

(** The three arguments of the callback of [child_process.exec]. *)
Record ExecCallback : Type := mkExecCallback {
  cb_error : option ExecException;
  cb_stdout : string;
  cb_stderr : string
}.

(** What a call of [child_process.exec] does: it throws at once, having
    spawned nothing (a command line it refuses, a spawn that fails
    synchronously), or it spawns the shell and calls back later with the
    outcome. *)
Inductive Spawn : Type :=
| Throws (reason : string)
| CallsBack (cb : ExecCallback).

(** What [execAsync] resolves with: [{ stdout, stderr, error?: string }]. *)
Record ExecResult : Type := mkExecResult {
  stdout : string;
  stderr : string;
  error : option string
}.

Section Runner.

(** The state of everything outside the process, and the state of the objects
    the process shares between requests. *)
Context {World Heap : Type}.

(** [child_process.exec(command, callback)]: throws, or runs the command in
    a shell, which may change the world, and calls back once with the
    outcome.  (A call that never calls back is outside this model.) *)
Variable exec : string -> World -> Spawn * World.

(** The process: the world it runs in, its heap, and the commands it has
    spawned so far, oldest first. *)
Record Proc : Type := mkProc {
  world : World;
  heap : Heap;
  issued : list string
}.

(** An [async] computation: from a process state to a settled promise and
    the state it leaves. *)
Definition Async (A : Type) : Type := Proc -> Promise A * Proc.

Definition ret {A} (a : A) : Async A := fun st => (Resolved a, st).

(** [await m] followed by [k]: a rejection of [m] is rethrown. *)
Definition bind {A B} (m : Async A) (k : A -> Async B) : Async B :=
  fun st =>
    match m st with
    | (Resolved a, st') => k a st'
    | (Rejected e, st') => (Rejected e, st')
    end.

(** [try { m } catch (error) { h error }]. *)
Definition try_catch {A} (m : Async A) (h : string -> Async A) : Async A :=
  fun st =>
    match m st with
    | (Resolved a, st') => (Resolved a, st')
    | (Rejected e, st') => h e st'
    end.

(** Reading and writing the heap. *)
Definition getHeap : Async Heap := fun st => (Resolved (heap st), st).

Definition modifyHeap (f : Heap -> Heap) : Async unit :=
  fun st => (Resolved tt, mkProc (world st) (f (heap st)) (issued st)).

(** The object the callback passes to [resolve]:
    [{ stdout, stderr, error: error?.message }]. *)
Definition resultOf (cb : ExecCallback) : ExecResult :=
  mkExecResult (cb_stdout cb) (cb_stderr cb) (option_map message (cb_error cb)).

(** [execAsync]: [new Promise((resolve) => exec(command, callback))].  The
    executor runs at once: when [exec] throws in it the promise is rejected
    with what was thrown, and nothing has been spawned; otherwise the
    callback resolves the promise, whatever error it is given, and [reject]
    is never called. *)
Definition execAsync (command : string) : Async ExecResult :=
  fun st =>
    match exec command (world st) with
    | (Throws reason, w) => (Rejected reason, mkProc w (heap st) (issued st))
    | (CallsBack cb, w) =>
        (Resolved (resultOf cb), mkProc w (heap st) (issued st ++ [command]))
    end.

End Runner.

Arguments Proc : clear implicits.
Arguments Async : clear implicits.

Section Answers.

Context {World : Type}.

(** A world in which [exec] refuses nothing: what it hands to the callback
    for each command, and the world the command leaves. *)
Variable answer : string -> World -> ExecCallback * World.

(** The [exec] of such a world. *)
Definition calling : string -> World -> Spawn * World :=
  fun command w => let '(cb, w') := answer command w in (CallsBack cb, w').

(** *** The answers of the world to a sequence of commands *)

(** The commands run one after the other: what each resolves with, and the
    world they leave. *)
Fixpoint run (commands : list string) (w : World) : list ExecResult * World :=
  match commands with
  | [] => ([], w)
  | command :: commands' =>
      let '(cb, w1) := answer command w in
      let '(results, w2) := run commands' w1 in
      (resultOf cb :: results, w2)
  end.

End Answers.

(** What an [exec] hands to the callback, where it does not throw. *)
Definition answersOf {World} (exec : string -> World -> Spawn * World)
  : string -> World -> ExecCallback * World :=
  fun command w =>
    match exec command w with
    | (CallsBack cb, w') => (cb, w')
    | (Throws _, w') => (mkExecCallback None "" "", w')
    end.

(** A call to a function declared outside the scope of the configuration
    (the classifier is a top-level function, the configuration a local of the
    start-up closure): it runs on the world and on the command log, and has no
    access to the heap. *)
Definition outOfScope {World Heap A} (m : Async World unit A) : Async World Heap A :=
  fun st =>
    let '(r, st') := m (mkProc (world st) tt (issued st)) in
    (r, mkProc (world st') (heap st) (issued st')).

Declare Scope async_scope.
Delimit Scope async_scope with async.
Notation "x <- m ;; k" := (bind m (fun x => k))
  (at level 100, m at next level, right associativity) : async_scope.
Notation "m ;; k" := (bind m (fun _ => k))
  (at level 100, right associativity) : async_scope.

(** The status a [try]/[catch] around the classifier ends with: the one it
    resolved with, or [UnknownError] when it threw. *)
Definition settle (r : Promise RepoStatus) : RepoStatus :=
  match r with
  | Resolved status => status
  | Rejected _ => UnknownError
  end.

(** [for (const x of xs) { body }] with [await] in the body: one iteration
    after the other; a rejection that leaves the body leaves the loop. *)
Fixpoint forOf {World Heap A} (xs : list A) (body : A -> Async World Heap unit) : Async World Heap unit :=
  match xs with
  | [] => ret tt
  | x :: xs' => bind (body x) (fun _ => forOf xs' body)
  end.

(** ** Asynchronous functions that run side by side

    [Promise.all(xs.map(async (x) => ..))] calls every callback before any
    command has answered: each runs up to its first [await] that has to
    wait, and they are resumed one at a time as the promises they wait for
    settle.  To be run in that way an [async] function is taken as a tree:
    it has settled, or it stands at an [await execAsync(command)] with what
    it does with the outcome (the result, or what the [await] throws). *)

Inductive Task (A : Type) : Type :=
| Settled (p : Promise A)
| Await (command : string) (k : Promise ExecResult -> Task A).
Arguments Settled {A}.
Arguments Await {A}.

Module Task.

Definition ret {A} (a : A) : Task A := Settled (Resolved a).

(** [execAsync(command)], awaited. *)
Definition execAsync (command : string) : Task ExecResult := Await command Settled.

(** [await t] followed by [k]: a rejection of [t] is rethrown. *)
Fixpoint bind {A B} (t : Task A) (k : A -> Task B) : Task B :=
  match t with
  | Settled (Resolved a) => k a
  | Settled (Rejected e) => Settled (Rejected e)
  | Await command h => Await command (fun r => bind (h r) k)
  end.

(** [try { t } catch (error) { h error }]. *)
Fixpoint try_catch {A} (t : Task A) (h : string -> Task A) : Task A :=
  match t with
  | Settled (Resolved a) => Settled (Resolved a)
  | Settled (Rejected e) => h e
  | Await command k => Await command (fun r => try_catch (k r) h)
  end.

End Task.

Declare Scope task_scope.
Delimit Scope task_scope with task.
Notation "x <- m ;; k" := (Task.bind m (fun x => k))
  (at level 100, m at next level, right associativity) : task_scope.

(** An [async] function of the pool of [Promise.all]: its promise has
    settled, or it waits at an [await] for a promise of [execAsync] that
    will settle as [answer]. *)
Inductive Slot (A : Type) : Type :=
| Finished (p : Promise A)
| Waiting (answer : Promise ExecResult) (k : Promise ExecResult -> Task A).
Arguments Finished {A}.
Arguments Waiting {A}.

(** The pool: the functions in the order of the array, and the reason of
    the first of them that rejected, if any has. *)
Record Pool (A : Type) : Type := mkPool {
  slots : list (Slot A);
  rejection : option string
}.
Arguments mkPool {A}.
Arguments slots {A}.
Arguments rejection {A}.

Definition waits {A} (s : Slot A) : bool :=
  match s with
  | Waiting _ _ => true
  | Finished _ => false
  end.

(** The [n]-th of the functions that wait: its place in the array, and how
    it goes on when its promise settles. *)
Fixpoint pick {A} (n : nat) (ss : list (Slot A)) : option (nat * Task A) :=
  match ss with
  | [] => None
  | Finished _ :: rest => option_map (fun '(i, t) => (S i, t)) (pick n rest)
  | Waiting answer k :: rest =>
      match n with
      | O => Some (O, k answer)
      | S n' => option_map (fun '(i, t) => (S i, t)) (pick n' rest)
      end
  end.

(** The first rejection is the one [Promise.all] rejects with. *)
Definition note {A} (s : Slot A) (rejected : option string) : option string :=
  match rejected, s with
  | None, Finished (Rejected e) => Some e
  | _, _ => rejected
  end.

(** The values of the promises, when all have resolved. *)
Fixpoint values {A} (ss : list (Slot A)) : option (list A) :=
  match ss with
  | [] => Some []
  | Finished (Resolved a) :: rest => option_map (cons a) (values rest)
  | _ :: _ => None
  end.

(** The promise of [Promise.all]: rejected as soon as one of the functions
    has rejected, resolved with all the values once all have resolved, and
    pending ([None]) until then. *)
Definition settled {A} (pool : Pool A) : option (Promise (list A)) :=
  match rejection pool with
  | Some e => Some (Rejected e)
  | None => option_map Resolved (values (slots pool))
  end.

Section EventLoop.

Context {World Heap : Type}.
Variable exec : string -> World -> Spawn * World.

(** A task run on its own, each [await] waiting for its command: what a
    function does that is alone in the process. *)
Fixpoint sequential {A} (t : Task A) : Async World Heap A :=
  fun st =>
    match t with
    | Settled p => (p, st)
    | Await command k =>
        let '(r, st') := execAsync exec command st in
        sequential (k r) st'
    end.

(** A task run up to its next [await]: [execAsync] calls [exec], which
    throws or spawns the command, and the function waits for the promise;
    what the promise settles with is what the command answers in the world
    it is spawned in. *)
Definition call {A} (t : Task A) (st : Proc World Heap) : Slot A * Proc World Heap :=
  match t with
  | Settled p => (Finished p, st)
  | Await command k =>
      let '(r, st') := execAsync exec command st in
      (Waiting r k, st')
  end.

(** [xs.map(async ..)]: the functions are called in the order of the array. *)
Fixpoint start {A} (tasks : list (Task A)) (st : Proc World Heap) : Pool A * Proc World Heap :=
  match tasks with
  | [] => (mkPool [] None, st)
  | t :: tasks' =>
      let '(s, st1) := call t st in
      let '(pool, st2) := start tasks' st1 in
      (mkPool (s :: slots pool)
              (match note s None with Some e => Some e | None => rejection pool end),
       st2)
  end.

(** One turn of the event loop: the promise that one of the waiting
    functions waits for settles, and that function runs up to its next
    [await].  Which one is next is not for the program to say: [choice]
    stands for it, counted among the functions that wait. *)
Definition turn {A} (choice : nat) (pool : Pool A) (st : Proc World Heap)
  : Pool A * Proc World Heap :=
  match pick (choice mod List.length (List.filter waits (slots pool))) (slots pool) with
  | Some (i, t) =>
      let '(s, st') := call t st in
      (mkPool (<[i := s]> (slots pool)) (note s (rejection pool)), st')
  | None => (pool, st)
  end.

Fixpoint eventLoop {A} (schedule : list nat) (pool : Pool A) (st : Proc World Heap)
  : Pool A * Proc World Heap :=
  match schedule with
  | [] => (pool, st)
  | choice :: schedule' =>
      let '(pool', st') := turn choice pool st in
      eventLoop schedule' pool' st'
  end.

(** [await Promise.all(tasks)] after the turns of [schedule]: the promise
    as it stands then, [None] while it is pending. *)
Definition Promise_all {A} (tasks : list (Task A)) (schedule : list nat)
    (st : Proc World Heap) : option (Promise (list A)) * Proc World Heap :=
  let '(pool, st1) := start tasks st in
  let '(pool', st2) := eventLoop schedule pool st1 in
  (settled pool', st2).

End EventLoop.

(** A task that settles within [n] commands, with an outcome that
    satisfies [P]. *)
Inductive Ends {A} (P : Promise A -> Prop) : nat -> Task A -> Prop :=
| Ends_settled (n : nat) (p : Promise A) : P p -> Ends P n (Settled p)
| Ends_await (n : nat) (command : string) (k : Promise ExecResult -> Task A) :
    (forall r, Ends P n (k r)) -> Ends P (S n) (Await command k).

(** How a function of the pool goes on at its next turn. *)
Definition resumed {A} (s : Slot A) : Task A :=
  match s with
  | Finished p => Settled p
  | Waiting answer k => k answer
  end.

(** What a function of the pool has left to do: it has finished with an
    outcome that satisfies [P], or it will within [turns] turns of its own,
    in which it spawns at most [spawns] commands. *)
Definition Owes {A} (P : Promise A -> Prop) (s : Slot A) (turns spawns : nat) : Prop :=
  match s with
  | Finished p => P p /\ turns = 0%nat /\ spawns = 0%nat
  | Waiting answer k => Ends P spawns (k answer) /\ turns = S spawns
  end.

(** The same for the pool of the functions called for the elements of
    [bs], with the sums of what they owe. *)
Inductive Pending {A B} (P : B -> Promise A -> Prop)
  : list B -> list (Slot A) -> nat -> nat -> Prop :=
| Pending_nil : Pending P [] [] 0 0
| Pending_cons (b : B) (bs : list B) (s : Slot A) (ss : list (Slot A))
    (turns spawns turns' spawns' : nat) :
    Owes (P b) s turns spawns ->
    Pending P bs ss turns' spawns' ->
    Pending P (b :: bs) (s :: ss) (turns + turns') (spawns + spawns').

(** *** What one classification can be told *)

(** The results of the five commands of a classification, in program order:
    directory listing, history, working-tree status, ahead count, behind
    count. *)
Record Outcomes : Type := mkOutcomes {
  existsCheck : ExecResult;
  logCheck : ExecResult;
  statusCheck : ExecResult;
  aheadCheck : ExecResult;
  behindCheck : ExecResult
}.

Definition noResult : ExecResult := mkExecResult "" "" None.

Definition outcomesOf (results : list ExecResult) : Outcomes :=
  mkOutcomes (nth 0 results noResult) (nth 1 results noResult) (nth 2 results noResult)
             (nth 3 results noResult) (nth 4 results noResult).

(** The outcomes with the standard output of one of the two counts replaced. *)
Definition withStdout (out : string) (r : ExecResult) : ExecResult :=
  mkExecResult out (stderr r) (error r).

Definition withAheadStdout (out : string) (o : Outcomes) : Outcomes :=
  mkOutcomes (existsCheck o) (logCheck o) (statusCheck o)
             (withStdout out (aheadCheck o)) (behindCheck o).

Definition withBehindStdout (out : string) (o : Outcomes) : Outcomes :=
  mkOutcomes (existsCheck o) (logCheck o) (statusCheck o)
             (aheadCheck o) (withStdout out (behindCheck o)).

(** The severity order of the statuses, most severe first. *)
Definition severityOrder : list RepoStatus :=
  [PathNotFound; NotAGitRepo; NoCommitsYet; UnknownError; UntrackedFiles;
   UncommittedChanges; UnpushedChanges; UnpulledChanges; Okay].

(** The place of a status in the severity order. *)
Definition severity (status : RepoStatus) : nat :=
  match status with
  | PathNotFound => 0
  | NotAGitRepo => 1
  | NoCommitsYet => 2
  | UnknownError => 3
  | UntrackedFiles => 4
  | UncommittedChanges => 5
  | UnpushedChanges => 6
  | UnpulledChanges => 7
  | Okay => 8
  end%nat.

(** [s] contains [text]: [s] is [text] between some prefix and some suffix. *)
Definition Contains (s text : string) : Prop :=
  exists before after : string, s = before ++ text ++ after.

(** ** The revision with a flat project list *)

Module Flat.

Import JS.

Record IProject : Type := mkProject {
  name : string;
  path : string
}.

Record IConfig : Type := mkConfig {
  projects : list IProject
}.

(** The five command lines of [getRepoStatus], in program order. *)
Definition commands (path : string) : list string :=
  let env := "GIT_DISCOVERY_ACROSS_FILESYSTEM=true" in
  let gitCmd := "git -C " ++ dquote ++ path ++ dquote in
  ["ls " ++ dquote ++ path ++ dquote;
   env ++ " " ++ gitCmd ++ " log -1";
   env ++ " " ++ gitCmd ++ " status --porcelain=v1";
   env ++ " " ++ gitCmd ++ " rev-list --count @{u}..HEAD";
   env ++ " " ++ gitCmd ++ " rev-list --count HEAD..@{u}"].

(** The status codes [getRepoStatus] reads off the output of the status
    command: [stdout.trim().split("\n").map((line) => line.substr(0, 2))]. *)
Definition statusCodes (stdout : string) : list string :=
  map (fun line => substr line 0 2) (split LF (trim stdout)).

(** The decisions of [getRepoStatus] as a function of the five results. *)
Definition verdict (o : Outcomes) : RepoStatus :=
  if 0 <=? indexOf (stderr (existsCheck o)) "No such file or directory" then PathNotFound else
  if 0 <=? indexOf (stderr (logCheck o)) "not a git repository" then NotAGitRepo else
  if 0 <=? indexOf (stderr (logCheck o)) "does not have any commits" then NoCommitsYet else
  if 0 <=? Array_indexOf (statusCodes (stdout (statusCheck o))) "??" then UntrackedFiles else
  if Array_length (statusCodes (stdout (statusCheck o))) >? 1 then UncommittedChanges else
  if gt (parseInt (stdout (aheadCheck o))) 0 then UnpushedChanges else
  if gt (parseInt (stdout (behindCheck o))) 0 then UnpulledChanges else
  Okay.

(** How many of the five commands [getRepoStatus] spawns before it returns. *)
Definition spawned (o : Outcomes) : nat :=
  if 0 <=? indexOf (stderr (existsCheck o)) "No such file or directory" then 1%nat else
  if 0 <=? indexOf (stderr (logCheck o)) "not a git repository" then 2%nat else
  if 0 <=? indexOf (stderr (logCheck o)) "does not have any commits" then 2%nat else
  if 0 <=? Array_indexOf (statusCodes (stdout (statusCheck o))) "??" then 3%nat else
  if Array_length (statusCodes (stdout (statusCheck o))) >? 1 then 3%nat else
  if gt (parseInt (stdout (aheadCheck o))) 0 then 4%nat else
  5%nat.

(** [getRepoStatus(path)] as a task, for when several run side by side:
    the same text, read with the operations of [Task]. *)
Definition getRepoStatusTask (path : string) : Task RepoStatus :=
  (let env := "GIT_DISCOVERY_ACROSS_FILESYSTEM=true" in
   let gitCmd := "git -C " ++ dquote ++ path ++ dquote in
   existsCheck <- Task.execAsync ("ls " ++ dquote ++ path ++ dquote) ;;
   if 0 <=? indexOf (stderr existsCheck) "No such file or directory" then Task.ret PathNotFound else
   logCheck <- Task.execAsync (env ++ " " ++ gitCmd ++ " log -1") ;;
   if 0 <=? indexOf (stderr logCheck) "not a git repository" then Task.ret NotAGitRepo else
   if 0 <=? indexOf (stderr logCheck) "does not have any commits" then Task.ret NoCommitsYet else
   statusCheck <- Task.execAsync (env ++ " " ++ gitCmd ++ " status --porcelain=v1") ;;
   let statuses := map (fun line => substr line 0 2) (split LF (trim (stdout statusCheck))) in
   if 0 <=? Array_indexOf statuses "??" then Task.ret UntrackedFiles else
   if Array_length statuses >? 1 then Task.ret UncommittedChanges else
   aheadCheck <- Task.execAsync (env ++ " " ++ gitCmd ++ " rev-list --count @{u}..HEAD") ;;
   let countAhead := parseInt (stdout aheadCheck) in
   if gt countAhead 0 then Task.ret UnpushedChanges else
   behindCheck <- Task.execAsync (env ++ " " ++ gitCmd ++ " rev-list --count HEAD..@{u}") ;;
   let countBehind := parseInt (stdout behindCheck) in
   if gt countBehind 0 then Task.ret UnpulledChanges else
   Task.ret Okay)%task.

Section Server.

Context {World : Type}.
Variable exec : string -> World -> Spawn * World.

Local Open Scope async_scope.

(** [getRepoStatus(path)].  [existsCheck.stderr?.indexOf(..)]: [stderr] is
    always a string, so the optional chaining never short-circuits. *)
Definition getRepoStatus (path : string) : Async World unit RepoStatus :=
  (* outcomes are ordered most-to-least serious *)
  let env := "GIT_DISCOVERY_ACROSS_FILESYSTEM=true" in
  let gitCmd := "git -C " ++ dquote ++ path ++ dquote in
  existsCheck <- execAsync exec ("ls " ++ dquote ++ path ++ dquote) ;;
  if 0 <=? indexOf (stderr existsCheck) "No such file or directory" then ret PathNotFound else
  logCheck <- execAsync exec (env ++ " " ++ gitCmd ++ " log -1") ;;
  if 0 <=? indexOf (stderr logCheck) "not a git repository" then ret NotAGitRepo else
  if 0 <=? indexOf (stderr logCheck) "does not have any commits" then ret NoCommitsYet else
  statusCheck <- execAsync exec (env ++ " " ++ gitCmd ++ " status --porcelain=v1") ;;
  let statuses := map (fun line => substr line 0 2) (split LF (trim (stdout statusCheck))) in
  if 0 <=? Array_indexOf statuses "??" then ret UntrackedFiles else
  if Array_length statuses >? 1 then ret UncommittedChanges else
  aheadCheck <- execAsync exec (env ++ " " ++ gitCmd ++ " rev-list --count @{u}..HEAD") ;;
  let countAhead := parseInt (stdout aheadCheck) in
  if gt countAhead 0 then ret UnpushedChanges else
  behindCheck <- execAsync exec (env ++ " " ++ gitCmd ++ " rev-list --count HEAD..@{u}") ;;
  let countBehind := parseInt (stdout behindCheck) in
  if gt countBehind 0 then ret UnpulledChanges else
  ret Okay.

(** [renderOutput(results)]: one card per [[project, status]] pair. *)
Definition renderOutput (results : list (IProject * RepoStatus)) : list Card :=
  map (fun '(project, status) =>
         mkCard (getStatusTextClass (Some status)) (getStatusIconName (Some status))
                (name project) (statusText (Some status)))
      results.

Section Listener.

(** The listener is stated over the classifier it calls. *)
Variable classify : string -> Task RepoStatus.

(** The callback of [config.projects.map]: [try] the classifier, [catch]
    whatever it throws. *)
Definition checkProject (project : IProject) : Task (IProject * RepoStatus) :=
  Task.try_catch
    (status <- classify (path project) ;;
     Task.ret (project, status))%task
    (fun error => Task.ret (project, UnknownError)).

(** The listener after the turns of [schedule]: [None] while it still waits
    for [Promise.all]; a rejection of [Promise.all] would leave the listener
    before it answers. *)
Definition requestListenerWith (config : IConfig) (schedule : list nat)
    (st : Proc World unit) : option (Promise (Response (list Card))) * Proc World unit :=
  let '(statuses, st') := Promise_all exec (map checkProject (projects config)) schedule st in
  (match statuses with
   | Some (Resolved statuses) =>
       Some (Resolved (mkResponse "text/html" 200 (renderOutput statuses)))
   | Some (Rejected e) => Some (Rejected e)
   | None => None
   end,
   st').

End Listener.

(** [requestListener(request, response)]. *)
Definition requestListener (config : IConfig) (schedule : list nat)
  : Proc World unit -> option (Promise (Response (list Card))) * Proc World unit :=
  requestListenerWith getRepoStatusTask config schedule.

End Server.

End Flat.

(** ** The revision with groups and the [gitDir] option *)

Module Grouped.

Import JS.

(** A reference to a project object. *)
Definition ref : Type := nat.

(** A project object: the three fields of the configuration file, and the
    status [requestListener] writes ("generated later"). *)
Record IProject : Type := mkProject {
  name : string;
  path : string;
  gitDir : option string;
  repoStatus : option RepoStatus
}.

(** A group holds its array of project objects by reference; the arrays
    themselves are never written, so they are kept by value. *)
Record IGroup : Type := mkGroup {
  title : string;
  projects : list ref
}.

Record IConfig : Type := mkConfig {
  groups : list IGroup
}.

(** The five command lines of [getRepoStatus], in program order. *)
Definition commands (projectPath gitDir : string) : list string :=
  let env := "GIT_DISCOVERY_ACROSS_FILESYSTEM=true" in
  let gitCmd := "git --work-tree=" ++ dquote ++ projectPath ++ dquote
                ++ " --git-dir=" ++ dquote ++ gitDir ++ dquote in
  ["ls " ++ dquote ++ projectPath ++ dquote;
   env ++ " " ++ gitCmd ++ " log -1";
   env ++ " " ++ gitCmd ++ " status --porcelain=v1";
   env ++ " " ++ gitCmd ++ " rev-list --count @{u}..HEAD";
   env ++ " " ++ gitCmd ++ " rev-list --count HEAD..@{u}"].

(** The status codes [getRepoStatus] reads off the output of the status
    command: [stdout.trim().split("\n").map((line) => line.substr(0, 2))
    .filter((s) => s !== "")]. *)
Definition statusCodes (stdout : string) : list string :=
  List.filter (fun s => negb (String.eqb s ""))
    (map (fun line => substr line 0 2) (split LF (trim stdout))).

(** The decisions of [getRepoStatus] as a function of the five results. *)
Definition verdict (o : Outcomes) : RepoStatus :=
  if 0 <=? indexOf (stderr (existsCheck o)) "No such file or directory" then PathNotFound else
  if 0 <=? indexOf (stderr (logCheck o)) "not a git repository" then NotAGitRepo else
  if 0 <=? indexOf (stderr (logCheck o)) "does not have any commits" then NoCommitsYet else
  if 0 <=? indexOf (stderr (logCheck o)) "fatal" then UnknownError else
  if 0 <=? indexOf (stderr (statusCheck o)) "fatal" then UnknownError else
  if 0 <=? Array_indexOf (statusCodes (stdout (statusCheck o))) "??" then UntrackedFiles else
  if Array_length (statusCodes (stdout (statusCheck o))) >? 0 then UncommittedChanges else
  if gt (parseInt (stdout (aheadCheck o))) 0 then UnpushedChanges else
  if gt (parseInt (stdout (behindCheck o))) 0 then UnpulledChanges else
  Okay.

(** How many of the five commands [getRepoStatus] spawns before it returns. *)
Definition spawned (o : Outcomes) : nat :=
  if 0 <=? indexOf (stderr (existsCheck o)) "No such file or directory" then 1%nat else
  if 0 <=? indexOf (stderr (logCheck o)) "not a git repository" then 2%nat else
  if 0 <=? indexOf (stderr (logCheck o)) "does not have any commits" then 2%nat else
  if 0 <=? indexOf (stderr (logCheck o)) "fatal" then 2%nat else
  if 0 <=? indexOf (stderr (statusCheck o)) "fatal" then 3%nat else
  if 0 <=? Array_indexOf (statusCodes (stdout (statusCheck o))) "??" then 3%nat else
  if Array_length (statusCodes (stdout (statusCheck o))) >? 0 then 3%nat else
  if gt (parseInt (stdout (aheadCheck o))) 0 then 4%nat else
  5%nat.

(** The decision table of the specification: when each status applies.  A
    status applies on the strength of its own probe alone; [Okay] always
    does. *)
Definition applicable (o : Outcomes) (status : RepoStatus) : bool :=
  match status with
  | PathNotFound => 0 <=? indexOf (stderr (existsCheck o)) "No such file or directory"
  | NotAGitRepo => 0 <=? indexOf (stderr (logCheck o)) "not a git repository"
  | NoCommitsYet => 0 <=? indexOf (stderr (logCheck o)) "does not have any commits"
  | UnknownError =>
      (0 <=? indexOf (stderr (logCheck o)) "fatal") || (0 <=? indexOf (stderr (statusCheck o)) "fatal")
  | UntrackedFiles => existsb (String.eqb "??") (statusCodes (stdout (statusCheck o)))
  | UncommittedChanges => negb (Nat.eqb (List.length (statusCodes (stdout (statusCheck o)))) 0)
  | UnpushedChanges => gt (parseInt (stdout (aheadCheck o))) 0
  | UnpulledChanges => gt (parseInt (stdout (behindCheck o))) 0
  | Okay => true
  end.

(** The status the specification asks for: the first one of the severity
    order that applies. *)
Definition firstApplicable (o : Outcomes) : option RepoStatus :=
  List.find (applicable o) severityOrder.

(** The objects [JSON.parse] allocated for the projects. *)
Abbreviation Heap := (gmap ref IProject).

(** [{ ...config }]: a new object with the own properties of [config], each
    holding the same value: the same array of the same groups. *)
Definition spread (config : IConfig) : IConfig := mkConfig (groups config).

(** [a || b] for [a : string | undefined]: [a] when it is truthy, that is a
    non-empty string, and [b] otherwise. *)
Definition or_else (a : option string) (b : string) : string :=
  match a with
  | Some (String c r) => String c r
  | Some EmptyString => b
  | None => b
  end.

(** The second argument of the call of [getRepoStatus]:
    [project.gitDir || `${project.path}/.git`]. *)
Definition resolveGitDir (project : IProject) : string :=
  or_else (gitDir project) (path project ++ "/.git").

(** [project.repoStatus = status]. *)
Definition setRepoStatus (status : RepoStatus) (project : IProject) : IProject :=
  mkProject (name project) (path project) (gitDir project) (Some status).

(** The fields of a project that the interface declares [readonly]. *)
Definition readonly (project : IProject) : string * string * option string :=
  (name project, path project, gitDir project).

(** The configuration as a reader finds it: every group with its title and,
    for each of its projects, the object the heap holds. *)
Definition snapshot (h : Heap) (config : IConfig) : list (string * list (option IProject)) :=
  map (fun group => (title group, map (fun project => h !! project) (projects group)))
      (groups config).

(** The same with the [readonly] fields only. *)
Definition readonlySnapshot (h : Heap) (config : IConfig)
  : list (string * list (option (string * string * option string))) :=
  map (fun group => (title group, map (fun project => readonly <$> h !! project) (projects group)))
      (groups config).

(** A project has a status in heap [h]. *)
Definition reported (h : Heap) (project : ref) : Prop :=
  exists p status, h !! project = Some p /\ repoStatus p = Some status.

(** One card per project of a group, read through the heap. *)
Definition renderProject (h : Heap) (project : ref) : list Card :=
  match h !! project with
  | Some p =>
      [mkCard (getStatusTextClass (repoStatus p)) (getStatusIconName (repoStatus p))
              (name p) (statusText (repoStatus p))]
  | None => []
  end.

(** [renderOutput(config)]: for each group its title and the cards of its
    projects. *)
Definition renderOutput (h : Heap) (config : IConfig) : list (string * list Card) :=
  map (fun group => (title group, concat (map (renderProject h) (projects group)))) (groups config).

Section Server.

Context {World : Type}.
Variable exec : string -> World -> Spawn * World.

Local Open Scope async_scope.

(** [getRepoStatus(projectPath, gitDir)]. *)
Definition getRepoStatus (projectPath gitDir : string) : Async World unit RepoStatus :=
  (* outcomes are ordered most-to-least serious *)
  let env := "GIT_DISCOVERY_ACROSS_FILESYSTEM=true" in
  let gitCmd := "git --work-tree=" ++ dquote ++ projectPath ++ dquote
                ++ " --git-dir=" ++ dquote ++ gitDir ++ dquote in
  existsCheck <- execAsync exec ("ls " ++ dquote ++ projectPath ++ dquote) ;;
  if 0 <=? indexOf (stderr existsCheck) "No such file or directory" then ret PathNotFound else
  logCheck <- execAsync exec (env ++ " " ++ gitCmd ++ " log -1") ;;
  if 0 <=? indexOf (stderr logCheck) "not a git repository" then ret NotAGitRepo else
  if 0 <=? indexOf (stderr logCheck) "does not have any commits" then ret NoCommitsYet else
  if 0 <=? indexOf (stderr logCheck) "fatal" then ret UnknownError else
  statusCheck <- execAsync exec (env ++ " " ++ gitCmd ++ " status --porcelain=v1") ;;
  if 0 <=? indexOf (stderr statusCheck) "fatal" then ret UnknownError else
  let statuses :=
    List.filter (fun s => negb (String.eqb s ""))
      (map (fun line => substr line 0 2) (split LF (trim (stdout statusCheck)))) in
  if 0 <=? Array_indexOf statuses "??" then ret UntrackedFiles else
  if Array_length statuses >? 0 then ret UncommittedChanges else
  aheadCheck <- execAsync exec (env ++ " " ++ gitCmd ++ " rev-list --count @{u}..HEAD") ;;
  let countAhead := parseInt (stdout aheadCheck) in
  if gt countAhead 0 then ret UnpushedChanges else
  behindCheck <- execAsync exec (env ++ " " ++ gitCmd ++ " rev-list --count HEAD..@{u}") ;;
  let countBehind := parseInt (stdout behindCheck) in
  if gt countBehind 0 then ret UnpulledChanges else
  ret Okay.

Section Listener.

(** The listener is stated over the classifier it calls, so that the
    [catch] branch can be exercised by a classifier that rejects. *)
Variable classify : string -> string -> Async World unit RepoStatus.

(** The body of the inner loop.  The loop variable is a reference into the
    heap; every reference of a parsed configuration is allocated, and one
    that were not would be passed over. *)
Definition checkProject (project : ref) : Async World Heap unit :=
  h <- getHeap ;;
  match h !! project with
  | Some p =>
      try_catch
        (status <- outOfScope (classify (path p) (resolveGitDir p)) ;;
         modifyHeap (alter (setRepoStatus status) project))
        (fun error =>
           (* console.log("Error while checking project status", ..) *)
           modifyHeap (alter (setRepoStatus UnknownError) project))
  | None => ret tt
  end.

(** The two loops of the listener on their own. *)
Definition pass (config : IConfig) : Async World Heap unit :=
  forOf (groups (spread config)) (fun group =>
    forOf (projects group) (fun project => checkProject project)).

Definition requestListenerWith (config : IConfig) : Async World Heap (Response (list (string * list Card))) :=
  let configWithStatuses := spread config in
  forOf (groups configWithStatuses) (fun group =>
    forOf (projects group) (fun project => checkProject project)) ;;
  h <- getHeap ;;
  ret (mkResponse "text/html" 200 (renderOutput h configWithStatuses)).

End Listener.

(** [requestListener(request, response)]. *)
Definition requestListener (config : IConfig) : Async World Heap (Response (list (string * list Card))) :=
  requestListenerWith getRepoStatus config.

End Server.

End Grouped.

(** ** Scripted worlds

    A world for examples: a table from command lines to the callback
    arguments [exec] answers with; running a command leaves the table as it
    is, and a command that is not in the table fails as an unknown command
    does in a shell. *)

Module Script.

Definition World : Type := list (string * ExecCallback).

Definition success (out : string) : ExecCallback := mkExecCallback None out "".

Definition failure (exitCode : Z) (err : string) : ExecCallback :=
  mkExecCallback (Some (mkExecException ("Command failed: " ++ err) (Some exitCode))) "" err.

Fixpoint lookup (command : string) (w : World) : ExecCallback :=
  match w with
  | [] => failure 127 "sh: not found"
  | (c, cb) :: w' => if String.eqb c command then cb else lookup command w'
  end.

Definition exec (command : string) (w : World) : ExecCallback * World := (lookup command w, w).

(** The table of one directory: its answers to the five commands of either
    revision, in program order. *)
Definition repo (path gitDir : string) (answers : list ExecCallback) : World :=
  (combine (Flat.commands path) answers ++ combine (Grouped.commands path gitDir) answers)%list.

Definition nl : string := String JS.LF EmptyString.

(** A clean repository level with its upstream. *)
Definition cleanRepo (path : string) : World :=
  repo path (path ++ "/.git")
    [success ("README.md" ++ nl); success ("commit 1f3a" ++ nl); success "";
     success ("0" ++ nl); success ("0" ++ nl)].

(** A directory that is no repository. *)
Definition plainDirectory (path : string) : World :=
  repo path (path ++ "/.git")
    [success ("notes.txt" ++ nl);
     failure 128 "fatal: not a git repository (or any of the parent directories): .git";
     failure 128 "fatal: not a git repository (or any of the parent directories): .git";
     failure 128 "fatal: not a git repository (or any of the parent directories): .git";
     failure 128 "fatal: not a git repository (or any of the parent directories): .git"].

(** A path that does not exist, beside a repository that would answer. *)
Definition missingPath (path : string) : World :=
  repo path (path ++ "/.git")
    [failure 1 ("ls: " ++ path ++ ": No such file or directory");
     success ("commit 1f3a" ++ nl); success ""; success ("0" ++ nl); success ("0" ++ nl)].

(** A directory that may not be listed. *)
Definition unreadableRepo (path : string) : World :=
  repo path (path ++ "/.git")
    [failure 2 ("ls: can't open '" ++ path ++ "': Permission denied");
     success ("commit 1f3a" ++ nl); success ""; success ("0" ++ nl); success ("0" ++ nl)].

(** A fresh repository with no commit and one untracked file. *)
Definition emptyRepo (path : string) : World :=
  repo path (path ++ "/.git")
    [success ("a.txt" ++ nl);
     failure 128 "fatal: your current branch 'master' does not have any commits yet";
     success ("?? a.txt" ++ nl);
     failure 128 "fatal: no upstream configured for branch 'master'";
     failure 128 "fatal: no upstream configured for branch 'master'"].

(** A repository level with its upstream with exactly one modified tracked
    file. *)
Definition oneModified (path : string) : World :=
  repo path (path ++ "/.git")
    [success ("file.txt" ++ nl); success ("commit 1f3a" ++ nl);
     success (" M file.txt" ++ nl); success ("0" ++ nl); success ("0" ++ nl)].

(** One modified tracked file and one untracked file. *)
Definition modifiedAndUntracked (path : string) : World :=
  repo path (path ++ "/.git")
    [success ("a.txt" ++ nl ++ "b.txt" ++ nl); success ("commit 1f3a" ++ nl);
     success (" M a.txt" ++ nl ++ "?? b.txt" ++ nl); success ("0" ++ nl); success ("0" ++ nl)].

(** A clean repository whose branch has no upstream: both counts fail and
    print nothing on the standard output. *)
Definition noUpstream (path : string) : World :=
  repo path (path ++ "/.git")
    [success ("README.md" ++ nl); success ("commit 1f3a" ++ nl); success "";
     failure 128 "fatal: no upstream configured for branch 'main'";
     failure 128 "fatal: no upstream configured for branch 'main'"].

(** A process that starts in world [w] with nothing spawned yet. *)
Definition start {Heap} (w : World) (h : Heap) : Proc World Heap := mkProc w h [].

(** Two projects, a clean repository and a directory that is no
    repository, as objects of the heap in one group. *)
Definition twoProjectsWorld : World :=
  (cleanRepo "/projects/site" ++ plainDirectory "/projects/notes")%list.

Definition twoProjectsHeap : Grouped.Heap :=
  <[1%nat := Grouped.mkProject "notes" "/projects/notes" None None]>
    (<[0%nat := Grouped.mkProject "site" "/projects/site" None None]> ∅).

Definition twoProjectsGrouped : Grouped.IConfig :=
  Grouped.mkConfig [Grouped.mkGroup "Personal Projects" [0%nat; 1%nat]].

(** [exec] as Node has it: a command line that holds a NUL character is
    refused with a [TypeError] before anything is spawned; any other command
    is answered from the table. *)
Definition NUL : ascii := ascii_of_nat 0.

Fixpoint hasNul (s : string) : bool :=
  match s with
  | EmptyString => false
  | String c r => Ascii.eqb c NUL || hasNul r
  end.

Definition node (command : string) (w : World) : Spawn * World :=
  if hasNul command
  then (Throws "The argument 'command' must be a string without null bytes", w)
  else calling exec command w.

End Script.

(** ** When a classification gets as far as the counts *)

Module Counts.

(** The answers let the flat classifier reach the two counts: no test on
    the listing, the history or the status output fires. *)
Definition flatReaches (o : Outcomes) : Prop :=
  ~ Contains (stderr (existsCheck o)) "No such file or directory"
  /\ ~ Contains (stderr (logCheck o)) "not a git repository"
  /\ ~ Contains (stderr (logCheck o)) "does not have any commits"
  /\ ~ In "??" (Flat.statusCodes (stdout (statusCheck o)))
  /\ (List.length (Flat.statusCodes (stdout (statusCheck o))) <= 1)%nat.

(** The same for the grouped classifier. *)
Definition groupedReaches (o : Outcomes) : Prop :=
  ~ Contains (stderr (existsCheck o)) "No such file or directory"
  /\ ~ Contains (stderr (logCheck o)) "not a git repository"
  /\ ~ Contains (stderr (logCheck o)) "does not have any commits"
  /\ ~ Contains (stderr (logCheck o)) "fatal"
  /\ ~ Contains (stderr (statusCheck o)) "fatal"
  /\ Grouped.statusCodes (stdout (statusCheck o)) = [].

(** The number of commands a classification that ends with [status] has
    spawned ([fatal] is looked for after the second and after the third). *)
Definition costOf (status : RepoStatus) (n : nat) : Prop :=
  match status with
  | PathNotFound => n = 1%nat
  | NotAGitRepo | NoCommitsYet => n = 2%nat
  | UnknownError => n = 2%nat \/ n = 3%nat
  | UntrackedFiles | UncommittedChanges => n = 3%nat
  | UnpushedChanges => n = 4%nat
  | UnpulledChanges | Okay => n = 5%nat
  end.

(** The output of a count parses as a number above zero. *)
Definition positive (out : string) : Prop :=
  exists n, JS.parseInt out = JS.Int n /\ 0 < n.

(** How many times the character [c] occurs in [s]. *)
Fixpoint occurrences (c : ascii) (s : string) : nat :=
  match s with
  | EmptyString => 0%nat
  | String d r => if Ascii.eqb d c then S (occurrences c r) else occurrences c r
  end.

End Counts.

(** ** The page as text

    [renderOutput] of either revision as the string it builds.  The template
    literals are transcribed piece by piece, [dquote] standing for each
    double quote. *)

Module Html.

Import JS.

(** The template of one card, the same text in both revisions, with its
    four interpolations: [getStatusTextClass(..)], [getStatusIconName(..)],
    [project.name] and the status. *)
Definition card (textClass icon name status : string) : string :=
  "
<div class=" ++ dquote ++ "column is-one-third" ++ dquote ++ ">
  <div class=" ++ dquote ++ "card" ++ dquote ++ ">
    <div class=" ++ dquote ++ "card-content" ++ dquote ++ ">
      <div class=" ++ dquote ++ "icon-text" ++ dquote ++ ">
        <span class=" ++ dquote ++ "icon is-large "
  ++ textClass
  ++ dquote ++ ">
          <i class=" ++ dquote ++ "fas fa-2x "
  ++ icon
  ++ dquote ++ "></i>
        </span>
        <span class=" ++ dquote ++ "title is-4 "
  ++ textClass
  ++ dquote ++ ">"
  ++ name
  ++ "</span>
      </div>
      <p class=" ++ dquote ++ "content block" ++ dquote ++ ">"
  ++ status
  ++ "</p>
    </div>
  </div>
</div>
".

(** The card of an entry of the card list. *)
Definition cardOf (c : Card) : string :=
  card (card_textClass c) (card_icon c) (card_name c) (card_status c).

(** The pieces of a list one after the other. *)
Definition join (pieces : list string) : string := fold_right String.append EmptyString pieces.

End Html.

(** [renderOutput(results)] of the flat revision. *)

Module FlatHtml.

Import JS.

(** The text [output] starts with. *)
Definition header : string :=
  "
<html>
<head>
<title>Git Monitor</title>
<link rel=" ++ dquote ++ "stylesheet" ++ dquote ++ " href=" ++ dquote ++ "https://cdnjs.cloudflare.com/ajax/libs/bulma/0.9.3/css/bulma.min.css" ++ dquote ++ " />
<link rel=" ++ dquote ++ "stylesheet" ++ dquote ++ " href=" ++ dquote ++ "https://cdnjs.cloudflare.com/ajax/libs/font-awesome/5.15.4/css/all.min.css" ++ dquote ++ " />
<style type=" ++ dquote ++ "text/css" ++ dquote ++ ">.icon-text { align-items: center; }</style>
</head>
<body>
<div class=" ++ dquote ++ "section" ++ dquote ++ ">
<div class=" ++ dquote ++ "container" ++ dquote ++ ">
<h1 class=" ++ dquote ++ "title" ++ dquote ++ ">Git Monitor</h1>
<div class=" ++ dquote ++ "columns is-multiline" ++ dquote ++ ">
".

(** The text appended after the loop. *)
Definition footer : string :=
  "
</div>
</div>
</div>
</body>
</html>
".

(** [let output = header; for (const [project, status] of results) output +=
    card; output += footer; return output]. *)
Definition renderOutput (results : list (Flat.IProject * RepoStatus)) : string :=
  fold_left
    (fun output '(project, status) =>
       output ++ Html.card (getStatusTextClass (Some status)) (getStatusIconName (Some status))
                           (Flat.name project) (statusText (Some status)))
    results header
  ++ footer.

End FlatHtml.

(** [renderOutput(config)] of the grouped revision, reading the projects
    through the heap. *)

Module GroupedHtml.

Import JS.

Definition header : string :=
  "
<html>
<head>
<title>Git Monitor</title>
<meta name=" ++ dquote ++ "viewport" ++ dquote ++ " content=" ++ dquote ++ "width=device-width, initial-scale=1, shrink-to-fit=no" ++ dquote ++ ">
<link rel=" ++ dquote ++ "stylesheet" ++ dquote ++ " href=" ++ dquote ++ "https://cdnjs.cloudflare.com/ajax/libs/bulma/0.9.3/css/bulma.min.css" ++ dquote ++ " />
<link rel=" ++ dquote ++ "stylesheet" ++ dquote ++ " href=" ++ dquote ++ "https://cdnjs.cloudflare.com/ajax/libs/font-awesome/5.15.4/css/all.min.css" ++ dquote ++ " />
<style type=" ++ dquote ++ "text/css" ++ dquote ++ ">.icon-text { align-items: center; }</style>
</head>
<body>
<div class=" ++ dquote ++ "section" ++ dquote ++ ">
<div class=" ++ dquote ++ "container" ++ dquote ++ ">
".

(** The text that opens the section of a group. *)
Definition groupHead (title : string) : string :=
  "
<h1 class=" ++ dquote ++ "title" ++ dquote ++ ">"
  ++ title
  ++ "</h1>
<div class=" ++ dquote ++ "columns is-multiline" ++ dquote ++ ">
".

(** The text that closes the section of a group. *)
Definition groupFoot : string := "</div>".

Definition footer : string :=
  "
</div>
</div>
</body>
</html>
".

(** The inner loop: one card per project of the group. *)
Definition renderProjects (h : Grouped.Heap) (projects : list Grouped.ref) (output : string) : string :=
  fold_left
    (fun output project =>
       match h !! project with
       | Some p =>
           output ++ Html.card (getStatusTextClass (Grouped.repoStatus p))
                               (getStatusIconName (Grouped.repoStatus p))
                               (Grouped.name p) (statusText (Grouped.repoStatus p))
       | None => output
       end)
    projects output.

Definition renderOutput (h : Grouped.Heap) (config : Grouped.IConfig) : string :=
  fold_left
    (fun output group =>
       renderProjects h (Grouped.projects group) (output ++ groupHead (Grouped.title group))
       ++ groupFoot)
    (Grouped.groups config) header
  ++ footer.

(** The section of a group of the card list. *)
Definition sectionOf (s : string * list Card) : string :=
  groupHead (fst s) ++ Html.join (map Html.cardOf (snd s)) ++ groupFoot.

End GroupedHtml.

(** ** Start-up: arguments and the checks on the configuration

    The body of the start-up closure up to [http.createServer].  The value
    of [JSON.parse] is taken with the shape the interfaces declare, each
    property being present or [undefined]; reading and parsing the file is
    an operation that resolves with such a value or rejects. *)

Module Startup.

(** [!x] for [x : string | undefined]: true on [undefined] and on the
    empty string. *)
Definition falsy (x : option string) : bool :=
  match x with
  | Some (String _ _) => false
  | Some EmptyString => true
  | None => true
  end.

Record RawProject : Type := mkRawProject {
  name : option string;
  path : option string;
  gitDir : option string
}.

Record RawGroup : Type := mkRawGroup {
  title : option string;
  projects : option (list RawProject)
}.

(** The parsed file of the grouped revision, and of the flat one. *)
Record RawConfig : Type := mkRawConfig {
  groups : option (list RawGroup)
}.

Record RawFlatConfig : Type := mkRawFlatConfig {
  flatProjects : option (list RawProject)
}.

(** How the closure ends: after a line on the console it returns without
    serving, or it throws, or it reaches [server.listen(3000)] having printed
    "Config read okay!". *)
Inductive Outcome (C : Type) : Type :=
| Returned (line : string) (subject : option RawProject)
| Threw (reason : string)
| Listening (config : C).
Arguments Returned {C}.
Arguments Threw {C}.
Arguments Listening {C}.

(** [`Usage: node ${process.argv[1]} PATH_TO_CONFIG`]. *)
Definition usage (argv : list string) : string :=
  "Usage: node " ++ nth 1 argv "undefined" ++ " PATH_TO_CONFIG".

(** [for (const project of projects) if (!project.path || !project.name)
    return]: the first project that fails the test, if any. *)
Fixpoint firstInvalid (projects : list RawProject) : option RawProject :=
  match projects with
  | [] => None
  | project :: projects' =>
      if falsy (path project) || falsy (name project) then Some project
      else firstInvalid projects'
  end.

(** The two nested loops of the grouped revision: iterating the [projects]
    of a group that has none throws a [TypeError]. *)
Fixpoint checkGroups {C} (config : C) (gs : list RawGroup) : Outcome C :=
  match gs with
  | [] => Listening config
  | group :: gs' =>
      match projects group with
      | None => Threw "TypeError: group.projects is not iterable"
      | Some ps =>
          match firstInvalid ps with
          | Some project =>
              Returned "A project was missing a name and/or path parameter" (Some project)
          | None => checkGroups config gs'
          end
      end
  end.

Section Main.

(** [JSON.parse((await fs.readFile(configPath)).toString())]. *)
Variable readGrouped : string -> Promise RawConfig.
Variable readFlat : string -> Promise RawFlatConfig.

(** The closure of the grouped revision, [argv] being [process.argv]. *)
Definition mainGrouped (argv : list string) : Outcome RawConfig :=
  let args := skipn 2 argv in
  if negb (Nat.eqb (List.length args) 1) then Returned (usage argv) None else
  let configPath := nth 0 args "" in
  match readGrouped configPath with
  | Rejected reason => Threw reason
  | Resolved config =>
      match groups config with
      | None => Returned "Config must include one or more groups" None
      | Some [] => Returned "Config must include one or more groups" None
      | Some gs => checkGroups config gs
      end
  end.

(** The closure of the flat revision. *)
Definition mainFlat (argv : list string) : Outcome RawFlatConfig :=
  let args := skipn 2 argv in
  if negb (Nat.eqb (List.length args) 1) then Returned (usage argv) None else
  let configPath := nth 0 args "" in
  match readFlat configPath with
  | Rejected reason => Threw reason
  | Resolved config =>
      match flatProjects config with
      | None => Returned "Config must include one or more project" None
      | Some [] => Returned "Config must include one or more project" None
      | Some ps =>
          match firstInvalid ps with
          | Some project =>
              Returned "One or more projects was missing a name or path parameter" None
          | None => Listening config
          end
      end
  end.

End Main.

(** A project the checks accept: its name and its path are non-empty
    strings. *)
Definition valid (project : RawProject) : Prop :=
  (exists n, name project = Some n /\ n <> "") /\ (exists p, path project = Some p /\ p <> "").

End Startup.

(** ** More scripted worlds *)

Module Scenes.

(** A clean repository two commits ahead of its upstream and three behind. *)
Definition diverged (path : string) : Script.World :=
  Script.repo path (path ++ "/.git")
    [Script.success ("README.md" ++ Script.nl); Script.success ("commit 1f3a" ++ Script.nl);
     Script.success ""; Script.success ("2" ++ Script.nl); Script.success ("3" ++ Script.nl)].

(** A clean repository three commits behind its upstream. *)
Definition behind (path : string) : Script.World :=
  Script.repo path (path ++ "/.git")
    [Script.success ("README.md" ++ Script.nl); Script.success ("commit 1f3a" ++ Script.nl);
     Script.success ""; Script.success ("0" ++ Script.nl); Script.success ("3" ++ Script.nl)].

(** The two projects of [Script.twoProjectsHeap] with statuses left by an
    earlier request. *)
Definition staleHeap : Grouped.Heap :=
  <[1%nat := Grouped.mkProject "notes" "/projects/notes" None (Some Okay)]>
    (<[0%nat := Grouped.mkProject "site" "/projects/site" None (Some UnknownError)]> ∅).

(** Three projects: a clean repository, a project whose path holds a NUL
    character, and a directory that is no repository. *)
Definition brokenPath : string := "/projects/a" ++ String Script.NUL "b".

Definition threeProjectsWorld : Script.World :=
  (Script.cleanRepo "/projects/site" ++ Script.cleanRepo brokenPath
   ++ Script.plainDirectory "/projects/notes")%list.

Definition threeProjectsHeap : Grouped.Heap :=
  <[2%nat := Grouped.mkProject "notes" "/projects/notes" None None]>
    (<[1%nat := Grouped.mkProject "broken" brokenPath None None]>
       (<[0%nat := Grouped.mkProject "site" "/projects/site" None None]> ∅)).

Definition threeProjectsGrouped : Grouped.IConfig :=
  Grouped.mkConfig [Grouped.mkGroup "Personal Projects" [0%nat; 1%nat];
                    Grouped.mkGroup "Notes" [2%nat]].

Definition threeProjectsFlat : Flat.IConfig :=
  Flat.mkConfig [Flat.mkProject "site" "/projects/site";
                 Flat.mkProject "broken" brokenPath;
                 Flat.mkProject "notes" "/projects/notes"].

(** A parsed configuration file as in the README, and a reader that finds
    it at every path. *)
Definition readme : Startup.RawConfig :=
  Startup.mkRawConfig
    (Some [Startup.mkRawGroup (Some "Personal Projects")
             (Some [Startup.mkRawProject (Some "Git Monitor") (Some "/projects/git-monitor") None;
                    Startup.mkRawProject (Some "YADM") (Some "/projects/yadm")
                                         (Some "/projects/yadm-git")]);
           Startup.mkRawGroup (Some "Group 2") (Some [])]).

Definition readmeFlat : Startup.RawFlatConfig :=
  Startup.mkRawFlatConfig
    (Some [Startup.mkRawProject (Some "Git Monitor") (Some "/projects/git-monitor") None]).

End Scenes.

(** ** Paths that exist and paths that do not

    A file system as the list of the paths that exist, each a directory or a
    regular file, and what [ls] and [git] report on it. *)

Module Posix.

Inductive Kind : Type :=
| Directory
| RegularFile.

Definition Fs : Type := list (string * Kind).

Fixpoint kindOf (fs : Fs) (path : string) : option Kind :=
  match fs with
  | [] => None
  | (p, kind) :: fs' => if String.eqb p path then Some kind else kindOf fs' path
  end.

(** The path exists. *)
Definition present (fs : Fs) (path : string) : bool :=
  match kindOf fs path with
  | Some _ => true
  | None => false
  end.

(** The path leads through a regular file: resolving it fails with
    [ENOTDIR], not with [ENOENT]. *)
Definition throughFile (fs : Fs) (path : string) : bool :=
  existsb (fun '(p, kind) =>
             match kind with
             | RegularFile => String.prefix (p ++ "/") path
             | Directory => false
             end) fs.

(** What [ls "path"] reports. *)
Definition ls (fs : Fs) (path : string) : ExecCallback :=
  match kindOf fs path with
  | Some Directory => Script.success ""
  | Some RegularFile => Script.success (path ++ Script.nl)
  | None =>
      if throughFile fs path
      then Script.failure 2 ("ls: cannot access '" ++ path ++ "': Not a directory")
      else Script.failure 2 ("ls: cannot access '" ++ path ++ "': No such file or directory")
  end.

(** What a [git] command reports: the answer of a clean repository when the
    metadata directory exists, and a refusal otherwise. *)
Definition git (fs : Fs) (gitDir : string) (out : string) : ExecCallback :=
  match kindOf fs gitDir with
  | Some Directory => Script.success out
  | _ => Script.failure 128 ("fatal: not a git repository: '" ++ gitDir ++ "'")
  end.

(** The scripted world of one project on that file system. *)
Definition world (fs : Fs) (path gitDir : string) : Script.World :=
  Script.repo path gitDir
    [ls fs path; git fs gitDir ("commit 1f3a" ++ Script.nl); git fs gitDir "";
     git fs gitDir ("0" ++ Script.nl); git fs gitDir ("0" ++ Script.nl)].

(** A system with the file [/etc/passwd]. *)
Definition etc : Fs := [("/etc", Directory); ("/etc/passwd", RegularFile)].

End Posix.

(** ** Processes that differ in the statuses they hold *)

Module Stale.

(** Two process states that differ at most in the statuses of their
    projects, and not even there on the projects of [visited]. *)
Definition alike {World : Type} (visited : Grouped.ref -> Prop)
    (st1 st2 : Proc World Grouped.Heap) : Prop :=
  world st1 = world st2
  /\ issued st1 = issued st2
  /\ (forall l, Grouped.readonly <$> heap st1 !! l = Grouped.readonly <$> heap st2 !! l)
  /\ (forall l, visited l -> heap st1 !! l = heap st2 !! l).

End Stale.

(** * Properties *)

(** ** The built-ins on examples *)

Example indexOf_found : JS.indexOf "ls: cannot access: No such file or directory" "No such" = 19.
Proof. reflexivity. Qed.

Example indexOf_missing : JS.indexOf "Permission denied" "No such file or directory" = -1.
Proof. reflexivity. Qed.

Example trim_porcelain : JS.trim (" M a.txt" ++ String JS.LF "?? b.txt" ++ String JS.LF "") = "M a.txt" ++ String JS.LF "?? b.txt".
Proof. reflexivity. Qed.

Example split_empty : JS.split JS.LF "" = [""].
Proof. reflexivity. Qed.

Example parseInt_count : JS.parseInt ("2" ++ String JS.LF "") = JS.Int 2.
Proof. reflexivity. Qed.

Example parseInt_empty : JS.parseInt "" = JS.NaN.
Proof. reflexivity. Qed.

Example parseInt_hex : JS.parseInt " -0x1F" = JS.Int (-31).
Proof. reflexivity. Qed.

(** ** Facts about the built-ins *)

Section BuiltinFacts.

#[local] Transparent String.prefix.

Lemma append_cons (a : ascii) (s r : string) :
  (String a s ++ r)%string = String a (s ++ r)%string.
Proof. reflexivity. Qed.

Lemma append_empty (r : string) : (EmptyString ++ r)%string = r.
Proof. reflexivity. Qed.

Lemma prefix_append (t s : string) :
  String.prefix t s = true <-> exists rest : string, s = (t ++ rest)%string.
Proof.
  revert s. induction t as [|a t IH]; intros [|b s]; simpl.
  - split; [exists EmptyString; reflexivity | reflexivity].
  - split; [exists (String b s); reflexivity | reflexivity].
  - split; [discriminate | intros [rest H]; rewrite append_cons in H; discriminate].
  - destruct (ascii_dec a b) as [->|Hne].
    + rewrite IH. split; intros [rest H]; exists rest.
      * rewrite append_cons. congruence.
      * rewrite append_cons in H. congruence.
    + split; [discriminate | intros [rest H]; rewrite append_cons in H; congruence].
Qed.

Lemma index_Contains (s t : string) :
  (exists n, String.index 0 t s = Some n) <-> Contains s t.
Proof.
  induction s as [|b s IH]; cbn [String.index].
  - destruct t as [|a t].
    + split; [intros _; exists EmptyString, EmptyString; reflexivity | eauto].
    + split; [intros [n H]; discriminate|].
      intros ([|c before] & rest & H); rewrite ?append_cons, ?append_empty in H; discriminate.
  - destruct (String.prefix t (String b s)) eqn:P.
    + split; [|eauto]. intros _. apply prefix_append in P as [rest ->].
      exists EmptyString, rest. reflexivity.
    + split.
      * intros [n H]. destruct (String.index 0 t s) as [m|] eqn:E; [|discriminate].
        destruct (proj1 IH (ex_intro _ m eq_refl)) as (before & rest & ->).
        exists (String b before), rest. reflexivity.
      * intros ([|c before] & rest & H).
        -- rewrite append_empty in H.
           assert (String.prefix t (String b s) = true) as P'
             by (apply prefix_append; eauto).
           congruence.
        -- rewrite append_cons in H. injection H as -> ->.
           destruct (proj2 IH (ex_intro _ before (ex_intro _ rest eq_refl))) as [m ->].
           eauto.
Qed.

(** [s.indexOf(text) >= 0] says that [s] contains [text]. *)
Lemma indexOf_Contains (s text : string) :
  (0 <=? JS.indexOf s text) = true <-> Contains s text.
Proof.
  rewrite <- index_Contains. unfold JS.indexOf.
  destruct (String.index 0 text s) as [n|].
  - split; [eauto | intros _; apply Z.leb_le; lia].
  - split; [discriminate | intros [n H]; discriminate].
Qed.

Lemma Array_indexOf_from_In (a : list string) (x : string) (i : Z) :
  0 <= i -> (0 <=? JS.Array_indexOf_from i a x) = true <-> In x a.
Proof.
  revert i. induction a as [|y a IH]; intros i Hi; simpl.
  - split; [discriminate | tauto].
  - destruct (String.eqb_spec y x) as [->|Hne].
    + split; [now left | intros _; apply Z.leb_le; lia].
    + rewrite IH by lia. split; [now right | intros [H|H]; [congruence | exact H]].
Qed.

(** [a.indexOf(x) >= 0] says that [x] is an element of [a]. *)
Lemma Array_indexOf_In (a : list string) (x : string) :
  (0 <=? JS.Array_indexOf a x) = true <-> In x a.
Proof. apply Array_indexOf_from_In. lia. Qed.

Lemma Array_indexOf_existsb (a : list string) (x : string) :
  (0 <=? JS.Array_indexOf a x) = existsb (String.eqb x) a.
Proof.
  apply eq_true_iff_eq. rewrite Array_indexOf_In, existsb_exists. split.
  - intros H. exists x. split; [exact H | apply String.eqb_refl].
  - intros (y & H & E). apply String.eqb_eq in E. congruence.
Qed.

Lemma append_cancel (s a b : string) : (s ++ a)%string = (s ++ b)%string -> a = b.
Proof.
  induction s as [|c s IH]; rewrite ?append_empty, ?append_cons; [tauto|].
  intros H. apply IH. congruence.
Qed.

Lemma Array_length_pos {A} (a : list A) :
  (JS.Array_length a >? 0) = negb (Nat.eqb (List.length a) 0).
Proof. destruct a; reflexivity. Qed.

End BuiltinFacts.

(** ** The command lines *)

Section CommandFacts.

(** Two of the command lines differ either in their first character or,
    behind the common prefix of the git commands, in their last words. *)
Ltac distinct_commands :=
  repeat (apply List.NoDup_cons;
          [ cbn [In]; intros H;
            repeat match type of H with _ \/ _ => destruct H as [H|H] end;
            try contradiction;
            first [ solve [cbv in H; discriminate H]
                  | do 3 apply append_cancel in H; discriminate H ]
          | ]);
  apply List.NoDup_nil.

(** The five command lines of a classification differ from one another. *)
Lemma Flat_commands_NoDup (path : string) : List.NoDup (Flat.commands path).
Proof. unfold Flat.commands. cbv zeta. distinct_commands. Qed.

Lemma Grouped_commands_NoDup (projectPath gitDir : string) :
  List.NoDup (Grouped.commands projectPath gitDir).
Proof. unfold Grouped.commands. cbv zeta. distinct_commands. Qed.

Lemma NoDup_firstn {A} (n : nat) (l : list A) : List.NoDup l -> List.NoDup (firstn n l).
Proof.
  intros H. rewrite <- (firstn_skipn n l) in H.
  apply List.NoDup_app_remove_r in H. exact H.
Qed.

Lemma Flat_commands_length (path : string) : List.length (Flat.commands path) = 5%nat.
Proof. reflexivity. Qed.

Lemma Grouped_commands_length (projectPath gitDir : string) :
  List.length (Grouped.commands projectPath gitDir) = 5%nat.
Proof. reflexivity. Qed.

(** In a list with no duplicate, an element is not among those before it. *)
Lemma NoDup_nth_not_before {A} (l : list A) (d : A) (n : nat) :
  List.NoDup l -> (n < List.length l)%nat -> ~ In (nth n l d) (firstn n l).
Proof.
  intros N. revert n. induction N as [|a l Ha N IH]; intros n Hn; cbn [List.length] in Hn.
  - lia.
  - destruct n as [|n]; cbn [nth firstn In]; [tauto|].
    intros [H|H].
    + apply Ha. rewrite H. apply nth_In. lia.
    + apply (IH n); [lia | exact H].
Qed.

End CommandFacts.

(** ** The classifier as a function of the answers it gets *)

Section ClassifierFacts.

Context {World : Type}.
(** In this part [exec] refuses no command: it is given by what it hands to
    the callback, and the program runs with [calling exec]. *)
Variable exec : string -> World -> ExecCallback * World.

(** One step of symbolic execution: expose a field, replay a recorded answer
    of the world, or split on a test of the program. *)
Ltac exec_step :=
  first
    [ progress cbn [world heap issued fst snd firstn run app nth
                    existsCheck logCheck statusCheck aheadCheck behindCheck]
    | match goal with H : exec _ _ = _ |- _ => progress rewrite H end
    | progress rewrite <- ?app_assoc
    | match goal with |- context [if ?b then _ else _] => destruct b eqn:? end ].

(** Name the answers of the world to five commands run in a row. *)
Ltac answers c1 c2 c3 c4 c5 w :=
  let w1 := fresh "w" in let w2 := fresh "w" in let w3 := fresh "w" in
  let w4 := fresh "w" in let w5 := fresh "w" in
  destruct (exec c1 w) as [? w1] eqn:?;
  destruct (exec c2 w1) as [? w2] eqn:?;
  destruct (exec c3 w2) as [? w3] eqn:?;
  destruct (exec c4 w3) as [? w4] eqn:?;
  destruct (exec c5 w4) as [? w5] eqn:?.

Lemma Grouped_getRepoStatus_run (projectPath gitDir : string) (st : Proc World unit) :
  let o := outcomesOf (fst (run exec (Grouped.commands projectPath gitDir) (world st))) in
  let n := Grouped.spawned o in
  Grouped.getRepoStatus (calling exec) projectPath gitDir st =
    (Resolved (Grouped.verdict o),
     mkProc (snd (run exec (firstn n (Grouped.commands projectPath gitDir)) (world st))) tt
            (issued st ++ firstn n (Grouped.commands projectPath gitDir))).
Proof.
  destruct st as [w [] log].
  unfold Grouped.getRepoStatus, Grouped.commands. cbv zeta.
  generalize ("ls " ++ JS.dquote ++ projectPath ++ JS.dquote)%string as c1.
  set (gitCmd := ("git --work-tree=" ++ JS.dquote ++ projectPath ++ JS.dquote
                  ++ " --git-dir=" ++ JS.dquote ++ gitDir ++ JS.dquote)%string).
  generalize ("GIT_DISCOVERY_ACROSS_FILESYSTEM=true" ++ " " ++ gitCmd ++ " log -1")%string as c2.
  generalize ("GIT_DISCOVERY_ACROSS_FILESYSTEM=true" ++ " " ++ gitCmd ++ " status --porcelain=v1")%string as c3.
  generalize ("GIT_DISCOVERY_ACROSS_FILESYSTEM=true" ++ " " ++ gitCmd ++ " rev-list --count @{u}..HEAD")%string as c4.
  generalize ("GIT_DISCOVERY_ACROSS_FILESYSTEM=true" ++ " " ++ gitCmd ++ " rev-list --count HEAD..@{u}")%string as c5.
  clear gitCmd. intros c5 c4 c3 c2 c1.
  answers c1 c2 c3 c4 c5 w.
  unfold bind, execAsync, calling, ret, Grouped.verdict, Grouped.spawned, Grouped.statusCodes, outcomesOf.
  repeat exec_step; reflexivity.
Qed.

Lemma Flat_getRepoStatus_run (path : string) (st : Proc World unit) :
  let o := outcomesOf (fst (run exec (Flat.commands path) (world st))) in
  let n := Flat.spawned o in
  Flat.getRepoStatus (calling exec) path st =
    (Resolved (Flat.verdict o),
     mkProc (snd (run exec (firstn n (Flat.commands path)) (world st))) tt
            (issued st ++ firstn n (Flat.commands path))).
Proof.
  destruct st as [w [] log].
  unfold Flat.getRepoStatus, Flat.commands. cbv zeta.
  generalize ("ls " ++ JS.dquote ++ path ++ JS.dquote)%string as c1.
  set (gitCmd := ("git -C " ++ JS.dquote ++ path ++ JS.dquote)%string).
  generalize ("GIT_DISCOVERY_ACROSS_FILESYSTEM=true" ++ " " ++ gitCmd ++ " log -1")%string as c2.
  generalize ("GIT_DISCOVERY_ACROSS_FILESYSTEM=true" ++ " " ++ gitCmd ++ " status --porcelain=v1")%string as c3.
  generalize ("GIT_DISCOVERY_ACROSS_FILESYSTEM=true" ++ " " ++ gitCmd ++ " rev-list --count @{u}..HEAD")%string as c4.
  generalize ("GIT_DISCOVERY_ACROSS_FILESYSTEM=true" ++ " " ++ gitCmd ++ " rev-list --count HEAD..@{u}")%string as c5.
  clear gitCmd. intros c5 c4 c3 c2 c1.
  answers c1 c2 c3 c4 c5 w.
  unfold bind, execAsync, calling, ret, Flat.verdict, Flat.spawned, Flat.statusCodes, outcomesOf.
  repeat exec_step; reflexivity.
Qed.

(** *** Corollaries of the run lemmas *)

Lemma Grouped_getRepoStatus_verdict (projectPath gitDir : string) (st : Proc World unit) :
  fst (Grouped.getRepoStatus (calling exec) projectPath gitDir st) =
    Resolved (Grouped.verdict (outcomesOf (fst (run exec (Grouped.commands projectPath gitDir) (world st))))).
Proof. rewrite Grouped_getRepoStatus_run. reflexivity. Qed.

Lemma Flat_getRepoStatus_verdict (path : string) (st : Proc World unit) :
  fst (Flat.getRepoStatus (calling exec) path st) =
    Resolved (Flat.verdict (outcomesOf (fst (run exec (Flat.commands path) (world st))))).
Proof. rewrite Flat_getRepoStatus_run. reflexivity. Qed.

Lemma Grouped_getRepoStatus_issued (projectPath gitDir : string) (st : Proc World unit) :
  issued (snd (Grouped.getRepoStatus (calling exec) projectPath gitDir st)) =
    (issued st ++
     firstn (Grouped.spawned (outcomesOf (fst (run exec (Grouped.commands projectPath gitDir) (world st)))))
            (Grouped.commands projectPath gitDir))%list.
Proof. rewrite Grouped_getRepoStatus_run. reflexivity. Qed.

Lemma Flat_getRepoStatus_issued (path : string) (st : Proc World unit) :
  issued (snd (Flat.getRepoStatus (calling exec) path st)) =
    (issued st ++
     firstn (Flat.spawned (outcomesOf (fst (run exec (Flat.commands path) (world st)))))
            (Flat.commands path))%list.
Proof. rewrite Flat_getRepoStatus_run. reflexivity. Qed.

Lemma Grouped_spawned_range (o : Outcomes) : (1 <= Grouped.spawned o <= 5)%nat.
Proof. unfold Grouped.spawned. repeat case_match; lia. Qed.

Lemma Flat_spawned_range (o : Outcomes) : (1 <= Flat.spawned o <= 5)%nat.
Proof. unfold Flat.spawned. repeat case_match; lia. Qed.

End ClassifierFacts.

(** ** The classifier when [exec] may throw *)

Section ThrowingExec.

Context {World : Type}.
Variable exec : string -> World -> Spawn * World.

(** One step of symbolic execution when [exec] may throw. *)
Ltac settle_step :=
  first
    [ progress cbn [world heap issued fst snd]
    | match goal with
      | |- context [exec ?c ?w] => destruct (exec c w) as [[?|?] ?] eqn:?
      end
    | match goal with |- context [if ?b then _ else _] => destruct b eqn:? end ].

Ltac settle_leaf n :=
  exists n; cbn [firstn nth]; rewrite <- ?app_assoc, ?app_nil_r; cbn [app];
  split; [reflexivity|];
  first [ split; [lia | eexists _, _; eassumption]
        | split; [cbn; auto | discriminate] ].

(** How a classification ends, whatever [exec] does: it has spawned the
    first [n] of its command lines; it resolves with a status that costs
    [n] commands, or it rejects because [exec] threw on the next one. *)
Lemma Flat_getRepoStatus_settles (path : string) (st : Proc World unit) :
  exists n,
    issued (snd (Flat.getRepoStatus exec path st))
    = (issued st ++ firstn n (Flat.commands path))%list
    /\ match fst (Flat.getRepoStatus exec path st) with
       | Resolved status => Counts.costOf status n /\ status <> UnknownError
       | Rejected reason =>
           (n < 5)%nat
           /\ exists w w', exec (nth n (Flat.commands path) "") w = (Throws reason, w')
       end.
Proof.
  destruct st as [w [] log].
  unfold Flat.getRepoStatus, Flat.commands. cbv zeta.
  generalize ("ls " ++ JS.dquote ++ path ++ JS.dquote)%string as c1.
  set (gitCmd := ("git -C " ++ JS.dquote ++ path ++ JS.dquote)%string).
  generalize ("GIT_DISCOVERY_ACROSS_FILESYSTEM=true" ++ " " ++ gitCmd ++ " log -1")%string as c2.
  generalize ("GIT_DISCOVERY_ACROSS_FILESYSTEM=true" ++ " " ++ gitCmd ++ " status --porcelain=v1")%string as c3.
  generalize ("GIT_DISCOVERY_ACROSS_FILESYSTEM=true" ++ " " ++ gitCmd ++ " rev-list --count @{u}..HEAD")%string as c4.
  generalize ("GIT_DISCOVERY_ACROSS_FILESYSTEM=true" ++ " " ++ gitCmd ++ " rev-list --count HEAD..@{u}")%string as c5.
  clear gitCmd. intros c5 c4 c3 c2 c1.
  unfold bind, execAsync, ret.
  repeat settle_step;
    first [ settle_leaf 0%nat | settle_leaf 1%nat | settle_leaf 2%nat
          | settle_leaf 3%nat | settle_leaf 4%nat | settle_leaf 5%nat ].
Qed.

(** The same when [UnknownError] is a status of the classifier. *)
Ltac settle_cost n :=
  exists n; cbn [firstn nth]; rewrite <- ?app_assoc, ?app_nil_r; cbn [app];
  split; [reflexivity|];
  first [ split; [lia | eexists _, _; eassumption]
        | cbn [Counts.costOf]; lia ].

Lemma Grouped_getRepoStatus_settles (projectPath gitDir : string) (st : Proc World unit) :
  exists n,
    issued (snd (Grouped.getRepoStatus exec projectPath gitDir st))
    = (issued st ++ firstn n (Grouped.commands projectPath gitDir))%list
    /\ match fst (Grouped.getRepoStatus exec projectPath gitDir st) with
       | Resolved status => Counts.costOf status n
       | Rejected reason =>
           (n < 5)%nat
           /\ exists w w',
                exec (nth n (Grouped.commands projectPath gitDir) "") w = (Throws reason, w')
       end.
Proof.
  destruct st as [w [] log].
  unfold Grouped.getRepoStatus, Grouped.commands. cbv zeta.
  generalize ("ls " ++ JS.dquote ++ projectPath ++ JS.dquote)%string as c1.
  set (gitCmd := ("git --work-tree=" ++ JS.dquote ++ projectPath ++ JS.dquote
                  ++ " --git-dir=" ++ JS.dquote ++ gitDir ++ JS.dquote)%string).
  generalize ("GIT_DISCOVERY_ACROSS_FILESYSTEM=true" ++ " " ++ gitCmd ++ " log -1")%string as c2.
  generalize ("GIT_DISCOVERY_ACROSS_FILESYSTEM=true" ++ " " ++ gitCmd ++ " status --porcelain=v1")%string as c3.
  generalize ("GIT_DISCOVERY_ACROSS_FILESYSTEM=true" ++ " " ++ gitCmd ++ " rev-list --count @{u}..HEAD")%string as c4.
  generalize ("GIT_DISCOVERY_ACROSS_FILESYSTEM=true" ++ " " ++ gitCmd ++ " rev-list --count HEAD..@{u}")%string as c5.
  clear gitCmd. intros c5 c4 c3 c2 c1.
  unfold bind, execAsync, ret.
  repeat settle_step;
    first [ settle_cost 0%nat | settle_cost 1%nat | settle_cost 2%nat
          | settle_cost 3%nat | settle_cost 4%nat | settle_cost 5%nat ].
Qed.

End ThrowingExec.

(** ** The decision table *)

Section DecisionTable.

Ltac split_tests :=
  repeat match goal with
         | |- context [if ?b then _ else _] => destruct b eqn:?
         end.

(** The tests of the program pick the first status of the severity order
    that the decision table allows. *)
Lemma Grouped_verdict_firstApplicable (o : Outcomes) :
  Grouped.firstApplicable o = Some (Grouped.verdict o).
Proof.
  unfold Grouped.firstApplicable, severityOrder, Grouped.verdict.
  cbn [List.find Grouped.applicable].
  rewrite <- Array_indexOf_existsb, <- Array_length_pos.
  split_tests; cbn [orb] in *; congruence.
Qed.

Lemma Grouped_verdict_least (o : Outcomes) (s : RepoStatus) :
  Grouped.applicable o s = true -> (severity (Grouped.verdict o) <= severity s)%nat.
Proof.
  unfold Grouped.verdict. destruct s; cbn [Grouped.applicable severity];
    rewrite <- ?Array_indexOf_existsb, <- ?Array_length_pos; intros H;
    split_tests; cbn [severity]; try lia;
    try apply orb_true_iff in H as [H|H]; congruence.
Qed.

Lemma Grouped_verdict_PathNotFound (o : Outcomes) :
  Grouped.verdict o = PathNotFound <->
  (0 <=? JS.indexOf (stderr (existsCheck o)) "No such file or directory") = true.
Proof.
  unfold Grouped.verdict.
  destruct (0 <=? JS.indexOf (stderr (existsCheck o)) "No such file or directory"); [tauto|].
  split; [split_tests; discriminate | discriminate].
Qed.

Lemma Flat_verdict_PathNotFound (o : Outcomes) :
  Flat.verdict o = PathNotFound <->
  (0 <=? JS.indexOf (stderr (existsCheck o)) "No such file or directory") = true.
Proof.
  unfold Flat.verdict.
  destruct (0 <=? JS.indexOf (stderr (existsCheck o)) "No such file or directory"); [tauto|].
  split; [split_tests; discriminate | discriminate].
Qed.

End DecisionTable.

(** ** The classifier: ordering, probes and counts *)

Section ClassifierClaims.

Context {World : Type}.
(** In this part [exec] refuses no command: it is given by what it hands to
    the callback, and the program runs with [calling exec]. *)
Variable exec : string -> World -> ExecCallback * World.

Ltac split_tests :=
  repeat match goal with
         | |- context [if ?b then _ else _] => destruct b eqn:?
         end.

(** A test of the program that fails, from the text it did not find. *)
Ltac absent H :=
  let E := fresh "E" in
  match type of H with
  | ~ Contains ?s ?t =>
      assert ((0 <=? JS.indexOf s t) = false) as E
        by (apply not_true_is_false; rewrite indexOf_Contains; exact H)
  end.

(** [severity] numbers the statuses as [severityOrder] lists them. *)
Lemma severity_order (status : RepoStatus) :
  nth_error severityOrder (severity status) = Some status.
Proof. destruct status; reflexivity. Qed.

(** C1 (as amended).  Whatever the five commands answer through the
    callback of [exec], the grouped classifier resolves with exactly one
    status; that status is the first one of the severity order PathNotFound,
    NotAGitRepo, NoCommitsYet, UnknownError, UntrackedFiles,
    UncommittedChanges, UnpushedChanges, UnpulledChanges, Okay that applies,
    so no status that applies is more severe than the result; when the
    standard error of the listing contains "No such file or directory", the
    result is PathNotFound whatever the other commands would answer; and
    when it does not, whether the path exists or not, the result is not
    PathNotFound. *)
Theorem getRepoStatus_first_applicable (projectPath gitDir : string) (st : Proc World unit) :
  let o := outcomesOf (fst (run exec (Grouped.commands projectPath gitDir) (world st))) in
  let result := fst (Grouped.getRepoStatus (calling exec) projectPath gitDir st) in
  (exists! status, result = Resolved status)
  /\ (forall status, result = Resolved status ->
        Grouped.firstApplicable o = Some status
        /\ forall s, Grouped.applicable o s = true -> (severity status <= severity s)%nat)
  /\ (Contains (stderr (existsCheck o)) "No such file or directory" ->
        result = Resolved PathNotFound)
  /\ (~ Contains (stderr (existsCheck o)) "No such file or directory" ->
        result <> Resolved PathNotFound).
Proof.
  intros o result. subst result. rewrite Grouped_getRepoStatus_verdict. fold o.
  split; [|split; [|split]].
  - exists (Grouped.verdict o). split; [reflexivity | intros s H; congruence].
  - intros status H. injection H as <-. split.
    + apply Grouped_verdict_firstApplicable.
    + apply Grouped_verdict_least.
  - intros H. f_equal. apply Grouped_verdict_PathNotFound, indexOf_Contains, H.
  - intros H K. apply H, indexOf_Contains, Grouped_verdict_PathNotFound. congruence.
Qed.

(** C10.  In both revisions the classifier returns PathNotFound exactly when
    the standard error of the listing command contains "No such file or
    directory"; when it does not (any other failure of the listing
    included), the classifier goes on: the history command is the next one
    it spawns. *)
Theorem PathNotFound_iff_no_such_file (path gitDir : string) (st : Proc World unit) :
  let oF := outcomesOf (fst (run exec (Flat.commands path) (world st))) in
  let oG := outcomesOf (fst (run exec (Grouped.commands path gitDir) (world st))) in
  (fst (Flat.getRepoStatus (calling exec) path st) = Resolved PathNotFound
     <-> Contains (stderr (existsCheck oF)) "No such file or directory")
  /\ (fst (Grouped.getRepoStatus (calling exec) path gitDir st) = Resolved PathNotFound
     <-> Contains (stderr (existsCheck oG)) "No such file or directory")
  /\ (~ Contains (stderr (existsCheck oF)) "No such file or directory" ->
      exists later,
        issued (snd (Flat.getRepoStatus (calling exec) path st))
        = (issued st ++ firstn 2 (Flat.commands path) ++ later)%list)
  /\ (~ Contains (stderr (existsCheck oG)) "No such file or directory" ->
      exists later,
        issued (snd (Grouped.getRepoStatus (calling exec) path gitDir st))
        = (issued st ++ firstn 2 (Grouped.commands path gitDir) ++ later)%list).
Proof.
  intros oF oG.
  rewrite Flat_getRepoStatus_verdict, Grouped_getRepoStatus_verdict,
    Flat_getRepoStatus_issued, Grouped_getRepoStatus_issued.
  fold oF oG. rewrite <- !indexOf_Contains.
  repeat split.
  - intros H. apply Flat_verdict_PathNotFound. congruence.
  - intros H. f_equal. apply Flat_verdict_PathNotFound, H.
  - intros H. apply Grouped_verdict_PathNotFound. congruence.
  - intros H. f_equal. apply Grouped_verdict_PathNotFound, H.
  - intros H. apply not_true_is_false in H.
    unfold Flat.spawned, Flat.commands. cbv zeta. rewrite H.
    split_tests; cbn [firstn app]; eexists; reflexivity.
  - intros H. apply not_true_is_false in H.
    unfold Grouped.spawned, Grouped.commands. cbv zeta. rewrite H.
    split_tests; cbn [firstn app]; eexists; reflexivity.
Qed.

(** C5.  In both revisions, when the history command ran (the path was not
    reported missing) and its standard error says that the branch does not
    have any commits (and not that the directory is no repository, which is
    tested first), the classifier returns NoCommitsYet having spawned the
    listing and the history command only: the status command is not run,
    whatever the working tree holds. *)
Theorem NoCommitsYet_before_status_probe (path gitDir : string) (st : Proc World unit) :
  let oF := outcomesOf (fst (run exec (Flat.commands path) (world st))) in
  let oG := outcomesOf (fst (run exec (Grouped.commands path gitDir) (world st))) in
  (~ Contains (stderr (existsCheck oF)) "No such file or directory" ->
   ~ Contains (stderr (logCheck oF)) "not a git repository" ->
   Contains (stderr (logCheck oF)) "does not have any commits" ->
   fst (Flat.getRepoStatus (calling exec) path st) = Resolved NoCommitsYet
   /\ issued (snd (Flat.getRepoStatus (calling exec) path st))
      = (issued st ++ firstn 2 (Flat.commands path))%list
   /\ ~ In (nth 2 (Flat.commands path) "") (firstn 2 (Flat.commands path)))
  /\
  (~ Contains (stderr (existsCheck oG)) "No such file or directory" ->
   ~ Contains (stderr (logCheck oG)) "not a git repository" ->
   Contains (stderr (logCheck oG)) "does not have any commits" ->
   fst (Grouped.getRepoStatus (calling exec) path gitDir st) = Resolved NoCommitsYet
   /\ issued (snd (Grouped.getRepoStatus (calling exec) path gitDir st))
      = (issued st ++ firstn 2 (Grouped.commands path gitDir))%list
   /\ ~ In (nth 2 (Grouped.commands path gitDir) "") (firstn 2 (Grouped.commands path gitDir))).
Proof.
  intros oF oG.
  rewrite Flat_getRepoStatus_verdict, Grouped_getRepoStatus_verdict,
    Flat_getRepoStatus_issued, Grouped_getRepoStatus_issued.
  fold oF oG. split; intros H1 H2 H3; absent H1; absent H2;
    apply indexOf_Contains in H3.
  - unfold Flat.verdict, Flat.spawned. rewrite E, E0, H3. repeat split.
    apply NoDup_nth_not_before; [apply Flat_commands_NoDup | cbn; lia].
  - unfold Grouped.verdict, Grouped.spawned. rewrite E, E0, H3. repeat split.
    apply NoDup_nth_not_before; [apply Grouped_commands_NoDup | cbn; lia].
Qed.

(** C3.  In both revisions a count whose standard output does not parse as
    an integer never yields the status of its direction, and the
    classification is the one the same answers give with that output
    replaced by 0; the classifier resolves all the same, and when both
    counts are unparseable in a repository that is otherwise clean (the path
    exists, the history and status commands report no error, the status
    output is empty) the result is Okay. *)
Theorem unparseable_count_is_zero (path gitDir : string) (st : Proc World unit) :
  let oF := outcomesOf (fst (run exec (Flat.commands path) (world st))) in
  let oG := outcomesOf (fst (run exec (Grouped.commands path gitDir) (world st))) in
  let resultF := fst (Flat.getRepoStatus (calling exec) path st) in
  let resultG := fst (Grouped.getRepoStatus (calling exec) path gitDir st) in
  ((exists status, resultF = Resolved status) /\ (exists status, resultG = Resolved status))
  /\ (JS.parseInt (stdout (aheadCheck oF)) = JS.NaN ->
      resultF <> Resolved UnpushedChanges
      /\ resultF = Resolved (Flat.verdict (withAheadStdout "0" oF)))
  /\ (JS.parseInt (stdout (behindCheck oF)) = JS.NaN ->
      resultF <> Resolved UnpulledChanges
      /\ resultF = Resolved (Flat.verdict (withBehindStdout "0" oF)))
  /\ (JS.parseInt (stdout (aheadCheck oG)) = JS.NaN ->
      resultG <> Resolved UnpushedChanges
      /\ resultG = Resolved (Grouped.verdict (withAheadStdout "0" oG)))
  /\ (JS.parseInt (stdout (behindCheck oG)) = JS.NaN ->
      resultG <> Resolved UnpulledChanges
      /\ resultG = Resolved (Grouped.verdict (withBehindStdout "0" oG)))
  /\ (~ Contains (stderr (existsCheck oF)) "No such file or directory" ->
      ~ Contains (stderr (logCheck oF)) "not a git repository" ->
      ~ Contains (stderr (logCheck oF)) "does not have any commits" ->
      stdout (statusCheck oF) = "" ->
      JS.parseInt (stdout (aheadCheck oF)) = JS.NaN ->
      JS.parseInt (stdout (behindCheck oF)) = JS.NaN ->
      resultF = Resolved Okay)
  /\ (~ Contains (stderr (existsCheck oG)) "No such file or directory" ->
      ~ Contains (stderr (logCheck oG)) "not a git repository" ->
      ~ Contains (stderr (logCheck oG)) "does not have any commits" ->
      ~ Contains (stderr (logCheck oG)) "fatal" ->
      ~ Contains (stderr (statusCheck oG)) "fatal" ->
      stdout (statusCheck oG) = "" ->
      JS.parseInt (stdout (aheadCheck oG)) = JS.NaN ->
      JS.parseInt (stdout (behindCheck oG)) = JS.NaN ->
      resultG = Resolved Okay).
Proof.
  intros oF oG resultF resultG. subst resultF resultG.
  rewrite Flat_getRepoStatus_verdict, Grouped_getRepoStatus_verdict. fold oF oG.
  split; [split; eexists; reflexivity|].
  unfold Flat.verdict, Grouped.verdict, withAheadStdout, withBehindStdout, withStdout.
  cbn [existsCheck logCheck statusCheck aheadCheck behindCheck stdout stderr].
  repeat split.
  - rewrite H. cbn [JS.gt]. split_tests; discriminate.
  - rewrite H. reflexivity.
  - rewrite H. cbn [JS.gt]. split_tests; discriminate.
  - rewrite H. reflexivity.
  - rewrite H. cbn [JS.gt]. split_tests; discriminate.
  - rewrite H. reflexivity.
  - rewrite H. cbn [JS.gt]. split_tests; discriminate.
  - rewrite H. reflexivity.
  - intros H1 H2 H3 H4 H5 H6. absent H1. absent H2. absent H3.
    rewrite E, E0, E1, H4, H5, H6. reflexivity.
  - intros H1 H2 H3 H4 H5 H6 H7 H8. absent H1. absent H2. absent H3. absent H4. absent H5.
    rewrite E, E0, E1, E2, E3, H6, H7, H8. reflexivity.
Qed.

(** The grouped classifier on the output of the status command, once the
    earlier tests have passed: an untracked entry wins, and otherwise any
    entry at all, a single one included, means uncommitted changes. *)
Lemma Grouped_status_codes_decide (path gitDir : string) (st : Proc World unit) :
  let o := outcomesOf (fst (run exec (Grouped.commands path gitDir) (world st))) in
  let codes := Grouped.statusCodes (stdout (statusCheck o)) in
  ~ Contains (stderr (existsCheck o)) "No such file or directory" ->
  ~ Contains (stderr (logCheck o)) "not a git repository" ->
  ~ Contains (stderr (logCheck o)) "does not have any commits" ->
  ~ Contains (stderr (logCheck o)) "fatal" ->
  ~ Contains (stderr (statusCheck o)) "fatal" ->
  (In "??" codes -> fst (Grouped.getRepoStatus (calling exec) path gitDir st) = Resolved UntrackedFiles)
  /\ (~ In "??" codes -> codes <> [] ->
      fst (Grouped.getRepoStatus (calling exec) path gitDir st) = Resolved UncommittedChanges).
Proof.
  intros o codes H1 H2 H3 H4 H5. rewrite Grouped_getRepoStatus_verdict. fold o.
  absent H1. absent H2. absent H3. absent H4. absent H5.
  unfold Grouped.verdict. rewrite E, E0, E1, E2, E3. fold codes. split.
  - intros H. apply Array_indexOf_In in H. rewrite H. reflexivity.
  - intros H K. rewrite <- Array_indexOf_In in H. apply not_true_is_false in H.
    rewrite H, Array_length_pos. destruct codes; [congruence | reflexivity].
Qed.

(** The flat classifier never reports uncommitted changes on a status output
    of a single line: its test is [statuses.length > 1] on an array that
    holds one entry even for an empty output. *)
Lemma Flat_single_entry_never_uncommitted (path : string) (st : Proc World unit) :
  let o := outcomesOf (fst (run exec (Flat.commands path) (world st))) in
  List.length (Flat.statusCodes (stdout (statusCheck o))) = 1%nat ->
  fst (Flat.getRepoStatus (calling exec) path st) <> Resolved UncommittedChanges.
Proof.
  intros o H. rewrite Flat_getRepoStatus_verdict. fold o.
  unfold Flat.verdict, JS.Array_length. rewrite H. cbn [Z.of_nat Pos.of_succ_nat Z.gtb Z.compare Pos.compare Pos.compare_cont].
  split_tests; discriminate.
Qed.

End ClassifierClaims.

(** ** The classifier: what it spawns, whatever [exec] does *)

Section SpawnClaims.

Context {World : Type}.
Variable exec : string -> World -> Spawn * World.

(** C7.  In both revisions, whatever [exec] does (it may throw), one
    classification spawns a prefix of the five command lines: no command
    line twice, so each probe at most once, and at most six commands in all
    (in fact at most five: the listing and the four git commands). *)
Theorem getRepoStatus_spawns_each_probe_once (path gitDir : string) (st : Proc World unit) :
  (exists new later : list string,
     issued (snd (Flat.getRepoStatus exec path st)) = (issued st ++ new)%list
     /\ Flat.commands path = (new ++ later)%list
     /\ List.NoDup new
     /\ (forall c, count_occ string_dec new c <= 1)%nat
     /\ (List.length new <= 6)%nat)
  /\ (exists new later : list string,
     issued (snd (Grouped.getRepoStatus exec path gitDir st)) = (issued st ++ new)%list
     /\ Grouped.commands path gitDir = (new ++ later)%list
     /\ List.NoDup new
     /\ (forall c, count_occ string_dec new c <= 1)%nat
     /\ (List.length new <= 6)%nat).
Proof.
  destruct (Flat_getRepoStatus_settles exec path st) as (n & -> & _).
  destruct (Grouped_getRepoStatus_settles exec path gitDir st) as (m & -> & _). split.
  - assert (List.NoDup (firstn n (Flat.commands path))) as N
      by apply NoDup_firstn, Flat_commands_NoDup.
    exists (firstn n (Flat.commands path)), (skipn n (Flat.commands path)).
    repeat split; [symmetry; apply firstn_skipn | exact N | |].
    + apply List.NoDup_count_occ, N.
    + rewrite length_firstn, Flat_commands_length. lia.
  - assert (List.NoDup (firstn m (Grouped.commands path gitDir))) as N
      by apply NoDup_firstn, Grouped_commands_NoDup.
    exists (firstn m (Grouped.commands path gitDir)), (skipn m (Grouped.commands path gitDir)).
    repeat split; [symmetry; apply firstn_skipn | exact N | |].
    + apply List.NoDup_count_occ, N.
    + rewrite length_firstn, Grouped_commands_length. lia.
Qed.

(** The bound of five commands, which a clean repository level with its
    upstream reaches. *)
Lemma getRepoStatus_spawns_at_most_five (path gitDir : string) (st : Proc World unit) :
  (List.length (issued (snd (Flat.getRepoStatus exec path st))) <= List.length (issued st) + 5)%nat
  /\ (List.length (issued (snd (Grouped.getRepoStatus exec path gitDir st)))
      <= List.length (issued st) + 5)%nat.
Proof.
  destruct (Flat_getRepoStatus_settles exec path st) as (n & -> & _).
  destruct (Grouped_getRepoStatus_settles exec path gitDir st) as (m & -> & _).
  rewrite !length_app, !length_firstn, Flat_commands_length, Grouped_commands_length. lia.
Qed.

End SpawnClaims.

(** ** The command runner *)

Section RunnerClaims.

Context {World Heap : Type}.
Variable exec : string -> World -> Spawn * World.

(** C6 (as amended).  For every command line (the environment overrides are
    part of it) and every state of the world: when [exec] reports through
    its callback, [execAsync] resolves, whatever error the callback is
    given: an error for a nonzero exit or for an executable that is missing
    comes back as data, with the captured standard error and the message of
    the error, the command is logged as spawned, and the code that awaits
    the promise goes on with the result.  [execAsync] rejects exactly when
    [exec] itself throws, with what was thrown, and then nothing was
    spawned. *)
Theorem execAsync_rejects_only_when_exec_throws (command : string) (st : Proc World Heap) :
  (forall cb w,
     exec command (world st) = (CallsBack cb, w) ->
     exists r,
       execAsync exec command st = (Resolved r, mkProc w (heap st) (issued st ++ [command]))
       /\ stdout r = cb_stdout cb
       /\ stderr r = cb_stderr cb
       /\ error r = option_map message (cb_error cb)
       /\ (error r = None <-> cb_error cb = None)
       /\ forall B (k : ExecResult -> Async World Heap B),
            bind (execAsync exec command) k st
            = k r (mkProc w (heap st) (issued st ++ [command])))
  /\ (forall reason st',
        execAsync exec command st = (Rejected reason, st')
        <-> exists w, exec command (world st) = (Throws reason, w)
                      /\ st' = mkProc w (heap st) (issued st)).
Proof.
  unfold execAsync, bind. split.
  - intros cb w E. rewrite E. eexists. split; [reflexivity|].
    cbn [stdout stderr error resultOf].
    repeat split; try reflexivity; destruct (cb_error cb); cbn; congruence.
  - intros reason st'. destruct (exec command (world st)) as [[e|cb] w]; split.
    + intros H. injection H as <- <-. exists w. split; reflexivity.
    + intros (w' & E & ->). injection E as <- <-. reflexivity.
    + discriminate.
    + intros (w' & E & _). discriminate.
Qed.

End RunnerClaims.

(** ** The request listener *)

Section ListenerFacts.

Context {World : Type}.

(** A loop whose body always resolves resolves. *)
Lemma forOf_resolves {Heap A} (body : A -> Async World Heap unit) :
  (forall x st, exists st', body x st = (Resolved tt, st')) ->
  forall xs st, exists st', forOf xs body st = (Resolved tt, st').
Proof.
  intros Hbody xs. induction xs as [|x xs IH]; intros st; cbn [forOf].
  - exists st. reflexivity.
  - unfold bind. destruct (Hbody x st) as [st1 ->]. apply IH.
Qed.

(** A reflexive and transitive relation that every run of the body
    respects holds between the two ends of the loop. *)
Lemma forOf_invariant {Heap A} (R : Proc World Heap -> Proc World Heap -> Prop)
    (body : A -> Async World Heap unit) :
  (forall st, R st st) ->
  (forall st1 st2 st3, R st1 st2 -> R st2 st3 -> R st1 st3) ->
  (forall x st, R st (snd (body x st))) ->
  forall xs st, R st (snd (forOf xs body st)).
Proof.
  intros Hrefl Htrans Hbody xs. induction xs as [|x xs IH]; intros st; cbn [forOf].
  - apply Hrefl.
  - unfold bind. pose proof (Hbody x st) as H1.
    destruct (body x st) as [[[]|e] st1]; cbn [snd] in *.
    + eapply Htrans; [exact H1 | apply IH].
    + exact H1.
Qed.

Section AnyClassifier.

Variable classify : string -> string -> Async World unit RepoStatus.

(** One run of the loop body on an allocated project: the classifier runs
    on the world, and its settled status is written to that project. *)
Lemma Grouped_checkProject_allocated (l : Grouped.ref) (p : Grouped.IProject)
    (st : Proc World Grouped.Heap) :
  heap st !! l = Some p ->
  let r := classify (Grouped.path p) (Grouped.resolveGitDir p) (mkProc (world st) tt (issued st)) in
  Grouped.checkProject classify l st =
    (Resolved tt,
     mkProc (world (snd r)) (alter (Grouped.setRepoStatus (settle (fst r))) l (heap st))
            (issued (snd r))).
Proof.
  intros H. unfold Grouped.checkProject, bind, getHeap, try_catch, outOfScope, modifyHeap.
  cbn [heap world issued]. rewrite H.
  destruct (classify _ _ _) as [[s|e] st1]; reflexivity.
Qed.

Lemma Grouped_checkProject_dangling (l : Grouped.ref) (st : Proc World Grouped.Heap) :
  heap st !! l = None -> Grouped.checkProject classify l st = (Resolved tt, st).
Proof.
  intros H. unfold Grouped.checkProject, bind, getHeap. rewrite H. reflexivity.
Qed.

Lemma Grouped_checkProject_resolves (l : Grouped.ref) (st : Proc World Grouped.Heap) :
  exists st', Grouped.checkProject classify l st = (Resolved tt, st').
Proof.
  destruct (heap st !! l) as [p|] eqn:H.
  - rewrite (Grouped_checkProject_allocated l p st H). eauto.
  - rewrite Grouped_checkProject_dangling by exact H. eauto.
Qed.

(** What a run of the loop body does to the heap. *)
Lemma Grouped_checkProject_heap (l : Grouped.ref) (st : Proc World Grouped.Heap) :
  exists status,
    heap (snd (Grouped.checkProject classify l st)) = alter (Grouped.setRepoStatus status) l (heap st).
Proof.
  destruct (heap st !! l) as [p|] eqn:H.
  - rewrite (Grouped_checkProject_allocated l p st H). eauto.
  - rewrite Grouped_checkProject_dangling by exact H. exists Okay. cbn [snd].
    apply map_eq. intros i. rewrite lookup_alter. case_decide; [subst; rewrite H|]; reflexivity.
Qed.

(** Writing a status leaves the [readonly] fields of every object alone. *)
Lemma readonly_alter (status : RepoStatus) (l i : Grouped.ref) (h : Grouped.Heap) :
  Grouped.readonly <$> alter (Grouped.setRepoStatus status) l h !! i = Grouped.readonly <$> h !! i.
Proof.
  rewrite lookup_alter. case_decide; [subst l|reflexivity].
  destruct (h !! i); reflexivity.
Qed.

Lemma Grouped_pass_resolves (config : Grouped.IConfig) (st : Proc World Grouped.Heap) :
  exists st', Grouped.pass classify config st = (Resolved tt, st').
Proof.
  unfold Grouped.pass. apply forOf_resolves. intros group st0. apply forOf_resolves.
  intros l st1. apply Grouped_checkProject_resolves.
Qed.

Lemma Grouped_pass_invariant (R : Proc World Grouped.Heap -> Proc World Grouped.Heap -> Prop) :
  (forall st, R st st) ->
  (forall st1 st2 st3, R st1 st2 -> R st2 st3 -> R st1 st3) ->
  (forall l st, R st (snd (Grouped.checkProject classify l st))) ->
  forall config st, R st (snd (Grouped.pass classify config st)).
Proof.
  intros Hrefl Htrans Hbody config st. unfold Grouped.pass. apply forOf_invariant; auto.
  intros group st0. apply forOf_invariant; auto.
Qed.

(** The listener in terms of its loops. *)
Lemma Grouped_requestListenerWith_pass (config : Grouped.IConfig) (st : Proc World Grouped.Heap) :
  Grouped.requestListenerWith classify config st =
    (Resolved (mkResponse "text/html" 200
                 (Grouped.renderOutput (heap (snd (Grouped.pass classify config st))) (Grouped.spread config))),
     snd (Grouped.pass classify config st)).
Proof.
  unfold Grouped.requestListenerWith. cbv zeta. change (forOf _ _) with (Grouped.pass classify config).
  unfold bind at 1. destruct (Grouped_pass_resolves config st) as [st' ->].
  reflexivity.
Qed.

End AnyClassifier.

End ListenerFacts.

(** ** The request listener: isolation and what it writes *)

Section ListenerClaims.

Context {World : Type}.

(** A loop over a concatenation is the loops one after the other. *)
Lemma forOf_app {Heap A} (body : A -> Async World Heap unit) (xs ys : list A)
    (st : Proc World Heap) :
  forOf (xs ++ ys) body st = bind (forOf xs body) (fun _ => forOf ys body) st.
Proof.
  revert st. induction xs as [|x xs IH]; intros st; cbn [forOf app].
  - reflexivity.
  - unfold bind in *. destruct (body x st) as [[[]|e] st1]; [apply IH | reflexivity].
Qed.

(** Two nested loops visit the elements of the inner arrays in order. *)
Lemma forOf_concat {Heap A} (body : A -> Async World Heap unit) (xss : list (list A))
    (st : Proc World Heap) :
  forOf xss (fun xs => forOf xs body) st = forOf (concat xss) body st.
Proof.
  revert st. induction xss as [|xs xss IH]; intros st; cbn [forOf concat].
  - reflexivity.
  - rewrite forOf_app. unfold bind.
    destruct (forOf xs body st) as [[[]|e] st1]; [apply IH | reflexivity].
Qed.

Lemma forOf_map {Heap A B} (f : A -> list B) (body : list B -> Async World Heap unit)
    (xs : list A) (st : Proc World Heap) :
  forOf xs (fun x => body (f x)) st = forOf (map f xs) body st.
Proof.
  revert st. induction xs as [|x xs IH]; intros st; cbn [forOf map]; [reflexivity|].
  unfold bind. destruct (body (f x) st) as [[[]|e] st1]; [apply IH | reflexivity].
Qed.

Section AnyClassifierPass.

Variable classify : string -> string -> Async World unit RepoStatus.

(** The pass visits the projects of all groups in order. *)
Lemma Grouped_pass_flat (config : Grouped.IConfig) (st : Proc World Grouped.Heap) :
  Grouped.pass classify config st =
    forOf (concat (map Grouped.projects (Grouped.groups config)))
          (Grouped.checkProject classify) st.
Proof.
  unfold Grouped.pass, Grouped.spread. cbn [Grouped.groups].
  rewrite <- forOf_concat.
  apply (forOf_map Grouped.projects (fun xs => forOf xs (Grouped.checkProject classify))).
Qed.

Lemma reported_alter (status : RepoStatus) (l i : Grouped.ref) (h : Grouped.Heap) :
  Grouped.reported h i -> Grouped.reported (alter (Grouped.setRepoStatus status) l h) i.
Proof.
  intros (p & s & Hp & Hs). unfold Grouped.reported. rewrite lookup_alter.
  case_decide; [subst l|]; rewrite Hp; cbn; eauto.
Qed.

(** After the loop every project it visited, if allocated, has a status. *)
Lemma checkProject_loop_reports (xs : list Grouped.ref) (st : Proc World Grouped.Heap)
    (l : Grouped.ref) :
  In l xs -> is_Some (heap st !! l) ->
  Grouped.reported (heap (snd (forOf xs (Grouped.checkProject classify) st))) l.
Proof.
  revert st. induction xs as [|x xs IH]; intros st Hin Hl; [destruct Hin|].
  cbn [forOf]. unfold bind.
  destruct (Grouped_checkProject_resolves classify x st) as [st1 E].
  destruct (Grouped_checkProject_heap classify x st) as [status Hh].
  rewrite E in *. cbn [snd] in Hh.
  destruct (decide (x = l)) as [->|Hne].
  - assert (Grouped.reported (heap st1) l) as Hr.
    { destruct Hl as [p Hp]. unfold Grouped.reported. rewrite Hh, lookup_alter.
      case_decide; [|congruence]. rewrite Hp. cbn. eauto. }
    revert Hr. generalize st1.
    apply (forOf_invariant (fun s1 s2 => Grouped.reported (heap s1) l -> Grouped.reported (heap s2) l)); auto.
    intros y s1 Hr. destruct (Grouped_checkProject_heap classify y s1) as [status' ->].
    apply reported_alter, Hr.
  - apply IH.
    + destruct Hin as [H|H]; [congruence | exact H].
    + rewrite Hh, lookup_alter. case_decide; [congruence | exact Hl].
Qed.

(** The [readonly] fields of every object of the heap are the same after
    the listener as before, whatever the classifier does. *)
Lemma Grouped_requestListenerWith_readonly (config : Grouped.IConfig)
    (st : Proc World Grouped.Heap) (l : Grouped.ref) :
  Grouped.readonly <$> heap (snd (Grouped.requestListenerWith classify config st)) !! l
  = Grouped.readonly <$> heap st !! l.
Proof.
  rewrite Grouped_requestListenerWith_pass. cbn [snd]. revert l.
  apply (Grouped_pass_invariant classify
           (fun s1 s2 => forall l, Grouped.readonly <$> heap s2 !! l = Grouped.readonly <$> heap s1 !! l)).
  - reflexivity.
  - intros s1 s2 s3 H12 H23 l. rewrite H23. apply H12.
  - intros x s1 l. destruct (Grouped_checkProject_heap classify x s1) as [status ->].
    apply readonly_alter.
Qed.

(** After the listener every allocated project of the configuration has a
    status, whatever the classifier does. *)
Lemma Grouped_requestListenerWith_reports (config : Grouped.IConfig)
    (st : Proc World Grouped.Heap) (group : Grouped.IGroup) (l : Grouped.ref) :
  In group (Grouped.groups config) -> In l (Grouped.projects group) ->
  is_Some (heap st !! l) ->
  Grouped.reported (heap (snd (Grouped.requestListenerWith classify config st))) l.
Proof.
  intros Hg Hl Hs. rewrite Grouped_requestListenerWith_pass. cbn [snd].
  rewrite Grouped_pass_flat. apply checkProject_loop_reports; [|exact Hs].
  apply in_concat. exists (Grouped.projects group). split; [|exact Hl].
  apply in_map, Hg.
Qed.

End AnyClassifierPass.

End ListenerClaims.

(** ** Tasks, alone and side by side *)

Section TaskFacts.

Context {World Heap : Type}.
Variable exec : string -> World -> Spawn * World.

Lemma sequential_bind {A B} (t : Task A) (k : A -> Task B) (st : Proc World Heap) :
  sequential exec (Task.bind t k) st
  = bind (sequential exec t) (fun a => sequential exec (k a)) st.
Proof.
  revert st. induction t as [[a|e]|command h IH]; intros st.
  - reflexivity.
  - reflexivity.
  - cbn [Task.bind sequential]. unfold bind in *.
    destruct (execAsync exec command st) as [r st']. apply IH.
Qed.

Lemma sequential_try_catch {A} (t : Task A) (h : string -> Task A) (st : Proc World Heap) :
  sequential exec (Task.try_catch t h) st
  = try_catch (sequential exec t) (fun e => sequential exec (h e)) st.
Proof.
  revert st. induction t as [[a|e]|command k IH]; intros st.
  - reflexivity.
  - reflexivity.
  - cbn [Task.try_catch sequential]. unfold try_catch in *.
    destruct (execAsync exec command st) as [r st']. apply IH.
Qed.

(** What a task settles with depends on the process through the world
    alone. *)
Lemma sequential_world {A} (t : Task A) (st1 st2 : Proc World Heap) :
  world st1 = world st2 ->
  fst (sequential exec t st1) = fst (sequential exec t st2)
  /\ world (snd (sequential exec t st1)) = world (snd (sequential exec t st2)).
Proof.
  revert st1 st2. induction t as [p|command k IH]; intros st1 st2 Hw; cbn [sequential].
  - split; [reflexivity | exact Hw].
  - unfold execAsync. rewrite Hw.
    destruct (exec command (world st2)) as [[e|cb] w]; apply IH; reflexivity.
Qed.

(** Running a task up to its next [await] and then to its end is running
    it to its end. *)
Lemma call_resumed {A} (t : Task A) (st : Proc World Heap) :
  sequential exec (resumed (fst (call exec t st))) (snd (call exec t st))
  = sequential exec t st.
Proof.
  destruct t as [p|command k]; cbn [call sequential]; [reflexivity|].
  destruct (execAsync exec command st) as [r st']. reflexivity.
Qed.

Lemma call_world {A} (t : Task A) (st : Proc World Heap) :
  (forall c w, snd (exec c w) = w) -> world (snd (call exec t st)) = world st.
Proof.
  intros Hro. destruct t as [p|command k]; cbn [call]; [reflexivity|].
  unfold execAsync. pose proof (Hro command (world st)) as H.
  destruct (exec command (world st)) as [[e|cb] w]; cbn [snd world] in *; exact H.
Qed.

(** A turn of a task that settles within [n] commands. *)
Lemma call_owes {A} (P : Promise A -> Prop) (n : nat) (t : Task A) (st : Proc World Heap) :
  Ends P n t ->
  exists turns spawns new,
    Owes P (fst (call exec t st)) turns spawns
    /\ issued (snd (call exec t st)) = (issued st ++ new)%list
    /\ (turns <= n)%nat
    /\ (List.length new + spawns <= n)%nat.
Proof.
  intros [m p Hp | m command k Hk]; cbn [call].
  - exists 0%nat, 0%nat, []. cbn [fst snd Owes]. rewrite app_nil_r.
    repeat split; [exact Hp | lia | cbn; lia].
  - unfold execAsync. destruct (exec command (world st)) as [[e|cb] w]; cbn [fst snd issued Owes].
    + exists (S m), m, []. rewrite app_nil_r. repeat split; [apply Hk | lia | cbn; lia].
    + exists (S m), m, [command]. repeat split; [apply Hk | lia | cbn; lia].
Qed.

Lemma pick_lookup {A} (n : nat) (ss : list (Slot A)) (i : nat) (t : Task A) :
  pick n ss = Some (i, t) ->
  exists s, ss !! i = Some s /\ waits s = true /\ t = resumed s.
Proof.
  revert n i. induction ss as [|[p|r k] ss IH]; intros n i; cbn [pick].
  - discriminate.
  - destruct (pick n ss) as [[i' t']|] eqn:E; [|discriminate].
    cbn [option_map]. intros H. injection H as <- <-. apply (IH n i' E).
  - destruct n as [|n].
    + intros H. injection H as <- <-. exists (Waiting r k). repeat split.
    + destruct (pick n ss) as [[i' t']|] eqn:E; [|discriminate].
      cbn [option_map]. intros H. injection H as <- <-. apply (IH n i' E).
Qed.

Lemma pick_is_Some {A} (n : nat) (ss : list (Slot A)) :
  (n < List.length (List.filter waits ss))%nat -> is_Some (pick n ss).
Proof.
  revert n. induction ss as [|[p|r k] ss IH]; intros n; cbn [pick List.filter waits List.length].
  - lia.
  - intros H. destruct (IH n H) as [[i t] ->]. cbn. eauto.
  - destruct n as [|n]; [eauto|]. intros H.
    destruct (IH n ltac:(lia)) as [[i t] ->]. cbn. eauto.
Qed.

Section Pool.

Context {A B : Type}.
Variable P : B -> Promise A -> Prop.
Hypothesis P_resolved : forall b e, ~ P b (Rejected e).

Lemma note_owes (b : B) (s : Slot A) (turns spawns : nat) :
  Owes (P b) s turns spawns -> note s None = None.
Proof.
  destruct s as [[a|e]|r k]; cbn [Owes note]; [reflexivity | | reflexivity].
  intros [H _]. destruct (P_resolved b e H).
Qed.

Lemma pick_Pending (bs : list B) (ss : list (Slot A)) (turns spawns n i : nat) (t : Task A) :
  Pending P bs ss turns spawns ->
  pick n ss = Some (i, t) ->
  exists b m turns0 spawns0,
    Ends (P b) m t
    /\ turns = (S m + turns0)%nat
    /\ spawns = (m + spawns0)%nat
    /\ forall s' tw sw,
         Owes (P b) s' tw sw ->
         Pending P bs (<[i := s']> ss) (tw + turns0) (sw + spawns0).
Proof.
  intros HP. revert n i.
  induction HP as [|b bs s ss tw sw turns' spawns' Hs HP IH]; intros n i; cbn [pick].
  - discriminate.
  - destruct s as [p|r k].
    + destruct (pick n ss) as [[i' t']|] eqn:E; [|discriminate].
      cbn [option_map]. intros H. injection H as <- <-.
      destruct (IH n i' E) as (b' & m & t0 & s0 & Hm & -> & -> & Hrep).
      destruct Hs as (Hp & -> & ->).
      exists b', m, t0, s0. repeat split; [exact Hm|].
      intros s' tw sw Hs'. cbn [insert list_insert].
      apply (Pending_cons P b bs (Finished p) _ 0 0); [repeat split; exact Hp | apply Hrep, Hs'].
    + destruct n as [|n].
      * intros H. injection H as <- <-. destruct Hs as (Hk & ->).
        exists b, sw, turns', spawns'. repeat split; [exact Hk|].
        intros s' tw' sw' Hs'. cbn [insert list_insert].
        apply Pending_cons; assumption.
      * destruct (pick n ss) as [[i' t']|] eqn:E; [|discriminate].
        cbn [option_map]. intros H. injection H as <- <-.
        destruct (IH n i' E) as (b' & m & t0 & s0 & Hm & -> & -> & Hrep).
        exists b', m, (tw + t0)%nat, (sw + s0)%nat. repeat split; [exact Hm | lia | lia |].
        intros s' tw' sw' Hs'. cbn [insert list_insert].
        replace (tw' + (tw + t0))%nat with (tw + (tw' + t0))%nat by lia.
        replace (sw' + (sw + s0))%nat with (sw + (sw' + s0))%nat by lia.
        apply Pending_cons; [exact Hs | apply Hrep, Hs'].
Qed.

Lemma Pending_waits (bs : list B) (ss : list (Slot A)) (turns spawns : nat) :
  Pending P bs ss turns spawns ->
  (0 < turns)%nat -> (0 < List.length (List.filter waits ss))%nat.
Proof.
  induction 1 as [|b bs s ss tw sw turns' spawns' Hs HP IH]; [lia|].
  intros H. destruct s as [p|r k]; cbn [List.filter waits List.length]; [|lia].
  destruct Hs as (_ & -> & _). apply IH. lia.
Qed.

Lemma Pending_done (bs : list B) (ss : list (Slot A)) (spawns : nat) :
  Pending P bs ss 0 spawns ->
  Forall2 (fun b s => exists p, s = Finished p /\ P b p) bs ss.
Proof.
  remember 0%nat as turns eqn:E. intros HP. revert E.
  induction HP as [|b bs s ss tw sw turns' spawns' Hs HP IH]; intros E; constructor.
  - destruct s as [p|r k]; [destruct Hs as [Hp _]; eauto|].
    destruct Hs as [_ ->]. lia.
  - apply IH. lia.
Qed.

Lemma turn_Pending (bs : list B) (pool : Pool A) (st : Proc World Heap)
    (turns spawns choice : nat) :
  Pending P bs (slots pool) turns spawns ->
  rejection pool = None ->
  exists turns' spawns' new,
    Pending P bs (slots (fst (turn exec choice pool st))) turns' spawns'
    /\ rejection (fst (turn exec choice pool st)) = None
    /\ issued (snd (turn exec choice pool st)) = (issued st ++ new)%list
    /\ (List.length new + spawns' <= spawns)%nat
    /\ (turns' <= Nat.pred turns)%nat.
Proof.
  intros HP Hr. unfold turn.
  destruct (pick _ (slots pool)) as [[i t]|] eqn:E.
  - destruct (pick_Pending _ _ _ _ _ _ _ HP E) as (b & m & t0 & s0 & Hm & -> & -> & Hrep).
    destruct (call_owes (P b) m t st Hm) as (tw & sw & new & Hs & Hlog & Ht & Hn).
    destruct (call exec t st) as [s st'] eqn:Ec. cbn [fst snd slots rejection] in *.
    exists (tw + t0)%nat, (sw + s0)%nat, new.
    repeat split; [apply Hrep, Hs | | exact Hlog | lia | lia].
    rewrite Hr. apply (note_owes b s tw sw Hs).
  - cbn [fst snd]. destruct turns as [|turns].
    + exists 0%nat, spawns, []. rewrite app_nil_r. repeat split; [exact HP | exact Hr | cbn; lia | lia].
    + pose proof (Pending_waits _ _ _ _ HP ltac:(lia)) as Hw.
      destruct (pick_is_Some (choice mod List.length (List.filter waits (slots pool))) (slots pool))
        as [x Hx].
      { apply Nat.mod_upper_bound. lia. }
      congruence.
Qed.

Lemma eventLoop_Pending (schedule : list nat) (bs : list B) (pool : Pool A)
    (st : Proc World Heap) (turns spawns : nat) :
  Pending P bs (slots pool) turns spawns ->
  rejection pool = None ->
  exists turns' spawns' new,
    Pending P bs (slots (fst (eventLoop exec schedule pool st))) turns' spawns'
    /\ rejection (fst (eventLoop exec schedule pool st)) = None
    /\ issued (snd (eventLoop exec schedule pool st)) = (issued st ++ new)%list
    /\ (List.length new + spawns' <= spawns)%nat
    /\ (turns' <= turns - List.length schedule)%nat.
Proof.
  revert pool st turns spawns.
  induction schedule as [|choice schedule IH]; intros pool st turns spawns HP Hr; cbn [eventLoop].
  - exists turns, spawns, []. rewrite app_nil_r. cbn [fst snd List.length].
    repeat split; [exact HP | exact Hr | cbn; lia | lia].
  - destruct (turn_Pending bs pool st turns spawns choice HP Hr)
      as (t1 & s1 & new1 & HP1 & Hr1 & Hlog1 & Hs1 & Ht1).
    destruct (turn exec choice pool st) as [pool1 st1]. cbn [fst snd] in *.
    destruct (IH pool1 st1 t1 s1 HP1 Hr1) as (t2 & s2 & new2 & HP2 & Hr2 & Hlog2 & Hs2 & Ht2).
    exists t2, s2, (new1 ++ new2)%list.
    repeat split; [exact HP2 | exact Hr2 | | |].
    + rewrite Hlog2, Hlog1, <- app_assoc. reflexivity.
    + rewrite length_app. lia.
    + cbn [List.length]. lia.
Qed.

Lemma start_Pending (task : B -> Task A) (d : nat) (bs : list B) (st : Proc World Heap) :
  (forall b, Ends (P b) d (task b)) ->
  exists turns spawns new,
    Pending P bs (slots (fst (start exec (map task bs) st))) turns spawns
    /\ rejection (fst (start exec (map task bs) st)) = None
    /\ issued (snd (start exec (map task bs) st)) = (issued st ++ new)%list
    /\ (turns <= d * List.length bs)%nat
    /\ (List.length new + spawns <= d * List.length bs)%nat.
Proof.
  intros Hd. revert st. induction bs as [|b bs IH]; intros st; cbn [map start].
  - exists 0%nat, 0%nat, []. rewrite app_nil_r. cbn [fst snd slots rejection List.length].
    repeat split; [constructor | lia | cbn; lia].
  - destruct (call_owes (P b) d (task b) st (Hd b)) as (tw & sw & new1 & Hs & Hlog1 & Ht & Hn).
    destruct (call exec (task b) st) as [s st1]. cbn [fst snd] in *.
    destruct (IH st1) as (t2 & s2 & new2 & HP2 & Hr2 & Hlog2 & Ht2 & Hs2).
    destruct (start exec (map task bs) st1) as [pool st2]. cbn [fst snd slots rejection] in *.
    exists (tw + t2)%nat, (sw + s2)%nat, (new1 ++ new2)%list.
    repeat split.
    + apply Pending_cons; assumption.
    + rewrite (note_owes b s tw sw Hs). exact Hr2.
    + rewrite Hlog2, Hlog1, <- app_assoc. reflexivity.
    + cbn [List.length]. lia.
    + rewrite length_app. cbn [List.length]. lia.
Qed.

End Pool.

(** *** When the commands only read *)

Section ReadOnly.

Hypothesis exec_reads : forall c w, snd (exec c w) = w.

Lemma start_agrees {A} (tasks : list (Task A)) (st : Proc World Heap) :
  world (snd (start exec tasks st)) = world st
  /\ Forall2 (fun t s => fst (sequential exec (resumed s) (snd (start exec tasks st)))
                         = fst (sequential exec t st))
             tasks (slots (fst (start exec tasks st))).
Proof.
  revert st. induction tasks as [|t tasks IH]; intros st; cbn [start].
  - split; [reflexivity | constructor].
  - pose proof (call_resumed t st) as Hc. pose proof (call_world t st exec_reads) as Hw.
    destruct (call exec t st) as [s st1]. cbn [fst snd] in *.
    destruct (IH st1) as [Hw2 Hall].
    destruct (start exec tasks st1) as [pool st2]. cbn [fst snd slots] in *.
    split; [congruence|]. constructor.
    + rewrite <- Hc. apply sequential_world. exact Hw2.
    + eapply Forall2_impl; [exact Hall|]. intros t' s' H. cbn beta in H. rewrite H.
      apply sequential_world. exact Hw.
Qed.

Lemma turn_agrees {A} (choice : nat) (vs : list (Promise A)) (pool : Pool A)
    (st : Proc World Heap) :
  Forall2 (fun v s => fst (sequential exec (resumed s) st) = v) vs (slots pool) ->
  world (snd (turn exec choice pool st)) = world st
  /\ Forall2 (fun v s => fst (sequential exec (resumed s) (snd (turn exec choice pool st))) = v)
             vs (slots (fst (turn exec choice pool st))).
Proof.
  intros Hall. unfold turn.
  destruct (pick _ (slots pool)) as [[i t]|] eqn:E; [|split; [reflexivity | exact Hall]].
  apply pick_lookup in E as (s & Hi & _ & ->).
  pose proof (call_resumed (resumed s) st) as Hc.
  pose proof (call_world (resumed s) st exec_reads) as Hw.
  destruct (call exec (resumed s) st) as [s' st']. cbn [fst snd slots] in *.
  split; [exact Hw|].
  apply Forall2_same_length_lookup. apply Forall2_same_length_lookup in Hall as [Hlen Hall].
  split; [rewrite length_insert; exact Hlen|].
  intros j v sj Hv Hj. destruct (decide (i = j)) as [<-|Hne].
  - rewrite list_lookup_insert_eq in Hj by (eapply lookup_lt_Some; exact Hi).
    injection Hj as <-. rewrite Hc. apply (Hall i v s Hv Hi).
  - rewrite list_lookup_insert_ne in Hj by exact Hne.
    rewrite <- (Hall j v sj Hv Hj). apply sequential_world. exact Hw.
Qed.

Lemma eventLoop_agrees {A} (schedule : list nat) (vs : list (Promise A)) (pool : Pool A)
    (st : Proc World Heap) :
  Forall2 (fun v s => fst (sequential exec (resumed s) st) = v) vs (slots pool) ->
  world (snd (eventLoop exec schedule pool st)) = world st
  /\ Forall2 (fun v s => fst (sequential exec (resumed s) (snd (eventLoop exec schedule pool st))) = v)
             vs (slots (fst (eventLoop exec schedule pool st))).
Proof.
  revert pool st. induction schedule as [|choice schedule IH]; intros pool st Hall; cbn [eventLoop].
  - split; [reflexivity | exact Hall].
  - destruct (turn_agrees choice vs pool st Hall) as [Hw H1].
    destruct (turn exec choice pool st) as [pool1 st1]. cbn [fst snd] in *.
    destruct (IH pool1 st1 H1) as [Hw2 H2]. split; [congruence | exact H2].
Qed.

End ReadOnly.

End TaskFacts.

(** ** The flat listener, whatever the order of the answers *)

Section FlatListener.

Context {World : Type}.
Variable exec : string -> World -> Spawn * World.

(** The task form of the flat classifier, run on its own, is the
    classifier. *)
Lemma Flat_getRepoStatus_sequential (path : string) (st : Proc World unit) :
  sequential exec (Flat.getRepoStatusTask path) st = Flat.getRepoStatus exec path st.
Proof.
  unfold Flat.getRepoStatusTask, Flat.getRepoStatus. cbv zeta.
  generalize ("ls " ++ JS.dquote ++ path ++ JS.dquote)%string as c1.
  set (gitCmd := ("git -C " ++ JS.dquote ++ path ++ JS.dquote)%string).
  generalize ("GIT_DISCOVERY_ACROSS_FILESYSTEM=true" ++ " " ++ gitCmd ++ " log -1")%string as c2.
  generalize ("GIT_DISCOVERY_ACROSS_FILESYSTEM=true" ++ " " ++ gitCmd ++ " status --porcelain=v1")%string as c3.
  generalize ("GIT_DISCOVERY_ACROSS_FILESYSTEM=true" ++ " " ++ gitCmd ++ " rev-list --count @{u}..HEAD")%string as c4.
  generalize ("GIT_DISCOVERY_ACROSS_FILESYSTEM=true" ++ " " ++ gitCmd ++ " rev-list --count HEAD..@{u}")%string as c5.
  clear gitCmd. intros c5 c4 c3 c2 c1.
  unfold Task.execAsync, Task.ret, bind, ret.
  repeat first
    [ reflexivity
    | progress cbn [Task.bind sequential]
    | match goal with
      | |- context [execAsync exec ?c ?s] => destruct (execAsync exec c s) as [[?|?] ?]
      end
    | match goal with |- context [if ?b then _ else _] => destruct b end ].
Qed.

(** It settles within its five commands. *)
Lemma Flat_getRepoStatusTask_ends (path : string) :
  Ends (fun _ => True) 5 (Flat.getRepoStatusTask path).
Proof.
  unfold Flat.getRepoStatusTask, Task.execAsync, Task.ret. cbv zeta.
  repeat first
    [ progress cbn [Task.bind]
    | apply Ends_settled; exact I
    | apply Ends_await; intros [?|?]
    | match goal with |- context [if ?b then _ else _] => destruct b end ].
Qed.

Section AnyTask.

Variable classify : string -> Task RepoStatus.

(** The wrapper of a project never rejects: it resolves with its project,
    within the commands of the classifier. *)
Lemma Flat_checkProject_ends (d : nat) (project : Flat.IProject) :
  Ends (fun _ => True) d (classify (Flat.path project)) ->
  Ends (fun r => exists status, r = Resolved (project, status)) d
       (Flat.checkProject classify project).
Proof.
  unfold Flat.checkProject, Task.ret.
  induction 1 as [n [status|e] _ | n command k _ IH]; cbn [Task.bind Task.try_catch].
  - apply Ends_settled. eauto.
  - apply Ends_settled. eauto.
  - apply Ends_await. exact IH.
Qed.

(** Run on its own, the wrapper settles the promise of the classifier. *)
Lemma Flat_checkProject_sequential (project : Flat.IProject) (st : Proc World unit) :
  fst (sequential exec (Flat.checkProject classify project) st)
  = Resolved (project, settle (fst (sequential exec (classify (Flat.path project)) st))).
Proof.
  unfold Flat.checkProject. rewrite sequential_try_catch. unfold try_catch.
  rewrite sequential_bind. unfold bind.
  destruct (sequential exec (classify (Flat.path project)) st) as [[status|e] st1]; reflexivity.
Qed.

Lemma values_finished {A B} (Q : B -> A -> Prop) (bs : list B) (ss : list (Slot A)) :
  Forall2 (fun b s => exists p, s = Finished p /\ exists a, p = Resolved a /\ Q b a) bs ss ->
  exists vs, values ss = Some vs /\ Forall2 Q bs vs /\ ss = map (fun a => Finished (Resolved a)) vs.
Proof.
  induction 1 as [|b s bs ss (p & -> & a & -> & Hq) _ (vs & E & Hall & ->)].
  - exists []. repeat split. constructor.
  - exists (a :: vs). cbn [values]. rewrite E. repeat split. constructor; assumption.
Qed.

(** What the listener has done after the turns of a schedule. *)
Lemma Flat_requestListenerWith_after (d : nat) (config : Flat.IConfig) (schedule : list nat)
    (st : Proc World unit) :
  (forall path, Ends (fun _ => True) d (classify path)) ->
  let result := Flat.requestListenerWith exec classify config schedule st in
  (exists new,
     issued (snd result) = (issued st ++ new)%list
     /\ (List.length new <= d * List.length (Flat.projects config))%nat)
  /\ (forall e, fst result <> Some (Rejected e))
  /\ ((d * List.length (Flat.projects config) <= List.length schedule)%nat ->
      exists statuses,
        fst result = Some (Resolved (mkResponse "text/html" 200 (Flat.renderOutput statuses)))
        /\ map fst statuses = Flat.projects config
        /\ ((forall c w, snd (exec c w) = w) ->
            map snd statuses
            = map (fun project =>
                     settle (fst (sequential exec (classify (Flat.path project)) st)))
                  (Flat.projects config))).
Proof.
  intros Hd result. subst result. unfold Flat.requestListenerWith, Promise_all.
  set (P := fun (project : Flat.IProject) (r : Promise (Flat.IProject * RepoStatus)) =>
              exists status, r = Resolved (project, status)).
  assert (forall b e, ~ P b (Rejected e)) as HP by (intros b e [status H]; discriminate).
  destruct (start_Pending exec P HP (Flat.checkProject classify) d (Flat.projects config) st)
    as (t1 & s1 & new1 & HP1 & Hr1 & Hlog1 & Ht1 & Hs1).
  { intros b. apply Flat_checkProject_ends, Hd. }
  destruct (start exec (map (Flat.checkProject classify) (Flat.projects config)) st)
    as [pool1 st1] eqn:Estart. cbn [fst snd] in *.
  destruct (eventLoop_Pending exec P HP schedule _ pool1 st1 t1 s1 HP1 Hr1)
    as (t2 & s2 & new2 & HP2 & Hr2 & Hlog2 & Hs2 & Ht2).
  destruct (eventLoop exec schedule pool1 st1) as [pool2 st2] eqn:Eloop. cbn [fst snd] in *.
  unfold settled. rewrite Hr2.
  split; [|split].
  - exists (new1 ++ new2)%list. split.
    + destruct (values (slots pool2)) as [vs|]; cbn [option_map snd];
        rewrite Hlog2, Hlog1, <- app_assoc; reflexivity.
    + rewrite length_app. lia.
  - intros e. destruct (values (slots pool2)) as [vs|]; cbn [option_map fst]; discriminate.
  - intros Hlen. assert (t2 = 0%nat) as -> by lia.
    apply Pending_done in HP2.
    destruct (values_finished (fun b a => exists status, a = (b, status))
                (Flat.projects config) (slots pool2)) as (vs & E & Hall & Hss).
    { eapply Forall2_impl; [exact HP2|]. intros b s (p & -> & status & ->).
      exists (Resolved (b, status)). split; [reflexivity|].
      exists (b, status). split; [reflexivity | eauto]. }
    rewrite E. cbn [option_map fst]. exists vs. split; [reflexivity|].
    assert (map fst vs = Flat.projects config) as Hfst.
    { clear -Hall. induction Hall as [|b v bs vs (status & ->) _ IH]; [reflexivity|].
      cbn [map fst]. congruence. }
    split; [exact Hfst|]. intros Hro.
    pose proof (@start_agrees World unit exec Hro _
                  (map (Flat.checkProject classify) (Flat.projects config)) st) as Hagree1.
    rewrite Estart in Hagree1. cbn [fst snd] in Hagree1. destruct Hagree1 as [_ Hagree1].
    pose proof (@eventLoop_agrees World unit exec Hro _ schedule
                  (map (fun t => fst (sequential exec t st))
                       (map (Flat.checkProject classify) (Flat.projects config)))
                  pool1 st1) as Hagree2.
    rewrite Eloop in Hagree2. cbn [fst snd] in Hagree2.
    destruct Hagree2 as [_ Hagree2].
    { apply Forall2_fmap_l. eapply Forall2_impl; [exact Hagree1|].
      intros t s H. cbn beta in *. exact H. }
    rewrite Hss in Hagree2. revert Hagree2. rewrite <- Hfst. clear.
    induction vs as [|[project status] vs IH]; cbn [map]; [reflexivity|].
    intros H. apply Forall2_cons in H as [H1 H2]. cbn [resumed sequential fst snd] in *.
    rewrite Flat_checkProject_sequential in H1. injection H1 as H1. f_equal; [congruence|].
    apply IH, H2.
Qed.

End AnyTask.

End FlatListener.

Section FlatCards.

Context {World : Type}.
Variable exec : string -> World -> Spawn * World.

(** The page of the flat listener when the commands only read: the card of
    each project shows what its own classification settles with. *)
Lemma Flat_requestListener_cards (config : Flat.IConfig) (schedule : list nat)
    (st : Proc World unit) :
  (forall c w, snd (exec c w) = w) ->
  (5 * List.length (Flat.projects config) <= List.length schedule)%nat ->
  fst (Flat.requestListener exec config schedule st)
  = Some (Resolved (mkResponse "text/html" 200
            (map (fun project =>
                    let status := settle (fst (Flat.getRepoStatus exec (Flat.path project) st)) in
                    mkCard (getStatusTextClass (Some status)) (getStatusIconName (Some status))
                           (Flat.name project) (RepoStatus_value status))
                 (Flat.projects config)))).
Proof.
  intros Hro Hlen.
  destruct (Flat_requestListenerWith_after exec Flat.getRepoStatusTask 5 config schedule st
              Flat_getRepoStatusTask_ends) as (_ & _ & Hdone).
  destruct (Hdone Hlen) as (statuses & E & Hfst & Hsnd). specialize (Hsnd Hro).
  unfold Flat.requestListener. rewrite E. do 3 f_equal.
  rewrite <- Hfst in *. clear E Hfst Hdone Hlen.
  assert (map snd statuses
          = map (fun project => settle (fst (Flat.getRepoStatus exec (Flat.path project) st)))
                (map fst statuses)) as Hs.
  { rewrite Hsnd. apply map_ext. intros project.
    rewrite Flat_getRepoStatus_sequential. reflexivity. }
  clear Hsnd. unfold Flat.renderOutput.
  induction statuses as [|[project status] statuses IH]; [reflexivity|].
  cbn [map fst snd]. f_equal; [|apply IH, (f_equal (@tl RepoStatus) Hs)].
  apply (f_equal (hd UnknownError)) in Hs. cbn [map hd fst snd] in Hs. rewrite <- Hs.
  reflexivity.
Qed.

End FlatCards.

(** ** What a pass writes *)

Lemma setRepoStatus_readonly (status : RepoStatus) (p1 p2 : Grouped.IProject) :
  Grouped.readonly p1 = Grouped.readonly p2 ->
  Grouped.setRepoStatus status p1 = Grouped.setRepoStatus status p2.
Proof.
  destruct p1, p2. unfold Grouped.readonly, Grouped.setRepoStatus. cbn. congruence.
Qed.

Lemma resolveGitDir_readonly (p1 p2 : Grouped.IProject) :
  Grouped.readonly p1 = Grouped.readonly p2 ->
  Grouped.path p1 = Grouped.path p2 /\ Grouped.resolveGitDir p1 = Grouped.resolveGitDir p2.
Proof.
  destruct p1, p2. unfold Grouped.readonly, Grouped.resolveGitDir. cbn.
  intros H. injection H as -> -> ->. split; reflexivity.
Qed.

Section PassFacts.

Context {World : Type}.
Variable classify : string -> string -> Async World unit RepoStatus.

(** Every element of a list has a last occurrence. *)
Lemma in_split_last (l : Grouped.ref) (xs : list Grouped.ref) :
  In l xs -> exists before after, xs = (before ++ l :: after)%list /\ ~ In l after.
Proof.
  induction xs as [|x xs IH]; [intros []|]. intros Hin.
  destruct (in_dec Nat.eq_dec l xs) as [Hl|Hl].
  - destruct (IH Hl) as (before & after & -> & Hn). exists (x :: before), after. split; [reflexivity | exact Hn].
  - destruct Hin as [->|Hin]; [|contradiction]. exists [], xs. split; [reflexivity | exact Hl].
Qed.

Lemma Grouped_loop_readonly (xs : list Grouped.ref) (st : Proc World Grouped.Heap)
    (l : Grouped.ref) :
  Grouped.readonly <$> heap (snd (forOf xs (Grouped.checkProject classify) st)) !! l
  = Grouped.readonly <$> heap st !! l.
Proof.
  revert l.
  apply (forOf_invariant
           (fun s1 s2 => forall l, Grouped.readonly <$> heap s2 !! l = Grouped.readonly <$> heap s1 !! l)).
  - reflexivity.
  - intros s1 s2 s3 H12 H23 l. rewrite H23. apply H12.
  - intros x s1 l. destruct (Grouped_checkProject_heap classify x s1) as [status ->].
    apply readonly_alter.
Qed.

(** A loop leaves alone the projects it does not visit. *)
Lemma Grouped_loop_keeps (xs : list Grouped.ref) (st : Proc World Grouped.Heap)
    (l : Grouped.ref) :
  ~ In l xs ->
  heap (snd (forOf xs (Grouped.checkProject classify) st)) !! l = heap st !! l.
Proof.
  revert st. induction xs as [|x xs IH]; intros st Hn; cbn [forOf]; [reflexivity|].
  unfold bind.
  destruct (Grouped_checkProject_resolves classify x st) as [st1 E].
  destruct (Grouped_checkProject_heap classify x st) as [status Hh].
  rewrite E in *. cbn [snd] in Hh. rewrite IH by (cbn [In] in Hn; tauto).
  rewrite Hh, lookup_alter. case_decide; [|reflexivity].
  subst x. cbn [In] in Hn. tauto.
Qed.

(** The status a project ends the loop with is the one its own
    classification settles with when its turn comes, the last time it
    comes. *)
Lemma Grouped_loop_assigns (before after : list Grouped.ref) (l : Grouped.ref)
    (p : Grouped.IProject) (st : Proc World Grouped.Heap) :
  ~ In l after ->
  heap st !! l = Some p ->
  let st_l := snd (forOf before (Grouped.checkProject classify) st) in
  let r := classify (Grouped.path p) (Grouped.resolveGitDir p)
                    (mkProc (world st_l) tt (issued st_l)) in
  heap (snd (forOf (before ++ l :: after) (Grouped.checkProject classify) st)) !! l
  = Some (Grouped.setRepoStatus (settle (fst r)) p).
Proof.
  intros Hn Hp st_l r. subst r st_l. rewrite forOf_app. unfold bind.
  pose proof (Grouped_loop_readonly before st l) as Hro.
  destruct (forOf_resolves (Grouped.checkProject classify)
              (Grouped_checkProject_resolves classify) before st) as [st1 E].
  rewrite E in *. cbn [snd] in *. rewrite Hp in Hro.
  destruct (heap st1 !! l) as [p'|] eqn:Hp'; [|discriminate].
  assert (Grouped.readonly p' = Grouped.readonly p) as Hr
    by (cbn in Hro; unfold Grouped.readonly in *; congruence).
  destruct (resolveGitDir_readonly p' p Hr) as [Hpath Hgit].
  cbn [forOf]. unfold bind.
  rewrite (Grouped_checkProject_allocated classify l p' st1 Hp'). cbv zeta.
  rewrite Grouped_loop_keeps by exact Hn. cbn [heap].
  rewrite lookup_alter. case_decide; [|congruence].
  rewrite Hp'. cbn. rewrite Hpath, Hgit. f_equal. apply setRepoStatus_readonly, Hr.
Qed.

Lemma Grouped_requestListenerWith_assigns (config : Grouped.IConfig)
    (st : Proc World Grouped.Heap) (before after : list Grouped.ref) (l : Grouped.ref)
    (p : Grouped.IProject) :
  concat (map Grouped.projects (Grouped.groups config)) = (before ++ l :: after)%list ->
  ~ In l after ->
  heap st !! l = Some p ->
  let st_l := snd (forOf before (Grouped.checkProject classify) st) in
  let r := classify (Grouped.path p) (Grouped.resolveGitDir p)
                    (mkProc (world st_l) tt (issued st_l)) in
  heap (snd (Grouped.requestListenerWith classify config st)) !! l
  = Some (Grouped.setRepoStatus (settle (fst r)) p).
Proof.
  intros Hxs Hn Hp. rewrite Grouped_requestListenerWith_pass. cbn [snd].
  rewrite Grouped_pass_flat, Hxs. apply Grouped_loop_assigns; assumption.
Qed.

(** The card of a project in the page. *)
Lemma Grouped_page_card (config : Grouped.IConfig) (st : Proc World Grouped.Heap)
    (group : Grouped.IGroup) (l : Grouped.ref) (p : Grouped.IProject) :
  In group (Grouped.groups config) -> In l (Grouped.projects group) ->
  heap (snd (Grouped.requestListenerWith classify config st)) !! l = Some p ->
  exists resp cards,
    fst (Grouped.requestListenerWith classify config st) = Resolved resp
    /\ In (Grouped.title group, cards) (body resp)
    /\ In (mkCard (getStatusTextClass (Grouped.repoStatus p))
                  (getStatusIconName (Grouped.repoStatus p))
                  (Grouped.name p) (statusText (Grouped.repoStatus p))) cards.
Proof.
  intros Hg Hl. rewrite Grouped_requestListenerWith_pass. cbn [fst snd]. intros Hp.
  eexists _, _. split; [reflexivity|]. cbn [body]. split.
  - unfold Grouped.renderOutput, Grouped.spread. cbn [Grouped.groups].
    apply in_map_iff. exists group. split; [reflexivity | exact Hg].
  - apply in_concat. eexists. split; [apply in_map, Hl|].
    unfold Grouped.renderProject. rewrite Hp. left. reflexivity.
Qed.

End PassFacts.

(** ** Claims about the listener and the resolver *)

(** C4.  A failure while one project is classified is that project's
    alone.  In the grouped revision, whatever the classifier does (it may
    throw), a step of the pass writes to its project the status the
    classifier resolved with, or UnknownError when it threw, and leaves
    every other object as it was; the listener resolves with status 200 and
    a section per group, and every project ends the pass with the status
    that its own classification settled with when its turn came, which is
    the status its card shows.  In the flat revision, for every order in
    which the answers of the commands arrive, the listener never rejects;
    once every project has had its turns it responds with status 200 and one
    card per project, in the order of the configuration; and when the
    commands only read, each card shows the status that the classification
    of its own project settles with, UnknownError where it throws: for the
    listener of the program, what [getRepoStatus] gives for that project on
    its own. *)
Theorem classification_failure_is_isolated {World : Type}
    (exec : string -> World -> Spawn * World)
    (classifyG : string -> string -> Async World unit RepoStatus)
    (classifyF : string -> Task RepoStatus) (d : nat) :
  (forall (l : Grouped.ref) (p : Grouped.IProject) (st : Proc World Grouped.Heap),
     heap st !! l = Some p ->
     let r := classifyG (Grouped.path p) (Grouped.resolveGitDir p)
                        (mkProc (world st) tt (issued st)) in
     exists st',
       Grouped.checkProject classifyG l st = (Resolved tt, st')
       /\ heap st' !! l = Some (Grouped.setRepoStatus (settle (fst r)) p)
       /\ forall l', l' <> l -> heap st' !! l' = heap st !! l')
  /\ (forall (config : Grouped.IConfig) (st : Proc World Grouped.Heap),
        exists resp st',
          Grouped.requestListenerWith classifyG config st = (Resolved resp, st')
          /\ statusCode resp = 200
          /\ map fst (body resp) = map Grouped.title (Grouped.groups config)
          /\ forall before l after p,
               concat (map Grouped.projects (Grouped.groups config))
               = (before ++ l :: after)%list ->
               ~ In l after ->
               heap st !! l = Some p ->
               let st_l := snd (forOf before (Grouped.checkProject classifyG) st) in
               let status :=
                 settle (fst (classifyG (Grouped.path p) (Grouped.resolveGitDir p)
                                        (mkProc (world st_l) tt (issued st_l)))) in
               heap st' !! l = Some (Grouped.setRepoStatus status p)
               /\ forall group,
                    In group (Grouped.groups config) -> In l (Grouped.projects group) ->
                    exists cards,
                      In (Grouped.title group, cards) (body resp)
                      /\ In (mkCard (getStatusTextClass (Some status))
                                    (getStatusIconName (Some status))
                                    (Grouped.name p) (RepoStatus_value status)) cards)
  /\ ((forall path, Ends (fun _ => True) d (classifyF path)) ->
      forall (config : Flat.IConfig) (schedule : list nat) (st : Proc World unit),
        let result := fst (Flat.requestListenerWith exec classifyF config schedule st) in
        (forall e, result <> Some (Rejected e))
        /\ ((d * List.length (Flat.projects config) <= List.length schedule)%nat ->
            exists resp,
              result = Some (Resolved resp)
              /\ statusCode resp = 200
              /\ map card_name (body resp) = map Flat.name (Flat.projects config)
              /\ ((forall c w, snd (exec c w) = w) ->
                  body resp
                  = map (fun project =>
                           let status :=
                             settle (fst (sequential exec (classifyF (Flat.path project)) st)) in
                           mkCard (getStatusTextClass (Some status))
                                  (getStatusIconName (Some status))
                                  (Flat.name project) (RepoStatus_value status))
                        (Flat.projects config))))
  /\ (forall (config : Flat.IConfig) (schedule : list nat) (st : Proc World unit),
        (forall c w, snd (exec c w) = w) ->
        (5 * List.length (Flat.projects config) <= List.length schedule)%nat ->
        fst (Flat.requestListener exec config schedule st)
        = Some (Resolved (mkResponse "text/html" 200
                  (map (fun project =>
                          let status :=
                            settle (fst (Flat.getRepoStatus exec (Flat.path project) st)) in
                          mkCard (getStatusTextClass (Some status))
                                 (getStatusIconName (Some status))
                                 (Flat.name project) (RepoStatus_value status))
                       (Flat.projects config))))).
Proof.
  split; [|split; [|split; [|apply Flat_requestListener_cards]]].
  - intros l p st H r. rewrite (Grouped_checkProject_allocated classifyG l p st H).
    fold r. eexists. split; [reflexivity|]. cbn [heap]. split.
    + rewrite lookup_alter. case_decide; [|congruence]. rewrite H. reflexivity.
    + intros l' Hne. rewrite lookup_alter. case_decide; [congruence | reflexivity].
  - intros config st.
    pose proof (Grouped_requestListenerWith_assigns classifyG config st) as Hpin.
    pose proof (Grouped_page_card classifyG config st) as Hcard.
    rewrite Grouped_requestListenerWith_pass in *. cbn [fst snd] in *.
    eexists _, _. split; [reflexivity|]. cbn [statusCode body].
    split; [reflexivity|]. split.
    + unfold Grouped.renderOutput, Grouped.spread. cbn [Grouped.groups].
      rewrite map_map. reflexivity.
    + intros before l after p Hxs Hn Hp.
      pose proof (Hpin before after l p Hxs Hn Hp) as Hl'. cbv zeta in Hl'.
      split; [exact Hl'|]. intros group Hg Hl.
      destruct (Hcard group l _ Hg Hl Hl') as (resp & cards & E & Hsec & Hin).
      injection E as <-. exists cards. split; [exact Hsec | exact Hin].
  - intros Hd config schedule st result. subst result.
    destruct (Flat_requestListenerWith_after exec classifyF d config schedule st Hd)
      as (_ & Hnever & Hdone).
    split; [exact Hnever|]. intros Hlen.
    destruct (Hdone Hlen) as (statuses & E & Hfst & Hsnd).
    eexists. split; [exact E|]. cbn [statusCode body]. split; [reflexivity|]. split.
    + rewrite <- Hfst. unfold Flat.renderOutput. rewrite !map_map.
      apply map_ext. intros [project status]. reflexivity.
    + intros Hro. specialize (Hsnd Hro). rewrite <- Hfst, map_map.
      rewrite <- Hfst, map_map in Hsnd. unfold Flat.renderOutput.
      clear -Hsnd. induction statuses as [|[project status] statuses IH]; [reflexivity|].
      cbn [map fst snd] in *. injection Hsnd as <- Hsnd. f_equal. apply IH, Hsnd.
Qed.

(** C9 (as amended).  A request leaves the [readonly] fields (name, path,
    gitDir) of every project object as they were, allocates and frees no
    object, and so reads the same titles, project lists and [readonly]
    fields through the configuration before and after.  What the pass does
    write is the [repoStatus] field: every project of every group has a
    last turn in the pass, and it ends the request with the status that its
    classification settled with at that turn, in the world the earlier
    classifications left, whatever status it held before. *)
Theorem requestListener_keeps_readonly_fields {World : Type}
    (exec : string -> World -> Spawn * World)
    (config : Grouped.IConfig) (st : Proc World Grouped.Heap) :
  let st' := snd (Grouped.requestListener exec config st) in
  (forall l, Grouped.readonly <$> heap st' !! l = Grouped.readonly <$> heap st !! l)
  /\ Grouped.readonlySnapshot (heap st') config = Grouped.readonlySnapshot (heap st) config
  /\ (forall group l,
        In group (Grouped.groups config) -> In l (Grouped.projects group) ->
        exists before after,
          concat (map Grouped.projects (Grouped.groups config)) = (before ++ l :: after)%list
          /\ ~ In l after)
  /\ (forall before l after p,
        concat (map Grouped.projects (Grouped.groups config)) = (before ++ l :: after)%list ->
        ~ In l after ->
        heap st !! l = Some p ->
        let st_l :=
          snd (forOf before (Grouped.checkProject (Grouped.getRepoStatus exec)) st) in
        let computed :=
          settle (fst (Grouped.getRepoStatus exec (Grouped.path p) (Grouped.resolveGitDir p)
                         (mkProc (world st_l) tt (issued st_l)))) in
        heap st' !! l = Some (Grouped.setRepoStatus computed p)).
Proof.
  intros st'. subst st'. unfold Grouped.requestListener.
  assert (forall l, Grouped.readonly <$>
                      heap (snd (Grouped.requestListenerWith (Grouped.getRepoStatus exec) config st)) !! l
                    = Grouped.readonly <$> heap st !! l) as Hframe
    by apply Grouped_requestListenerWith_readonly.
  split; [exact Hframe | split; [|split]].
  - unfold Grouped.readonlySnapshot. apply map_ext. intros group. f_equal.
    apply map_ext. intros l. apply Hframe.
  - intros group l Hg Hl. apply in_split_last. apply in_concat.
    exists (Grouped.projects group). split; [apply in_map, Hg | exact Hl].
  - intros before l after p. apply Grouped_requestListenerWith_assigns.
Qed.

(** C8 (as amended).  The resolver yields the configured [gitDir] verbatim
    when it is a non-empty string, and the working path followed by "/.git"
    when it is absent or empty.  It is a function of the project alone: the
    step of the pass hands its result to the classifier in the very world,
    and with the very command log, it started from, and does so for every
    allocated project. *)
Theorem resolveGitDir_override_or_default (project : Grouped.IProject) :
  (forall g, Grouped.gitDir project = Some g -> g <> "" -> Grouped.resolveGitDir project = g)
  /\ (Grouped.gitDir project = None \/ Grouped.gitDir project = Some "" ->
      Grouped.resolveGitDir project = Grouped.path project ++ "/.git")
  /\ (forall (World : Type) (classify : string -> string -> Async World unit RepoStatus)
             (l : Grouped.ref) (st : Proc World Grouped.Heap),
        heap st !! l = Some project ->
        let r := classify (Grouped.path project) (Grouped.resolveGitDir project)
                          (mkProc (world st) tt (issued st)) in
        Grouped.checkProject classify l st =
          (Resolved tt,
           mkProc (world (snd r)) (alter (Grouped.setRepoStatus (settle (fst r))) l (heap st))
                  (issued (snd r)))).
Proof.
  unfold Grouped.resolveGitDir, Grouped.or_else. split; [|split].
  - intros g H Hne. rewrite H. destruct g; [congruence | reflexivity].
  - intros [H|H]; rewrite H; reflexivity.
  - intros World classify l st H. apply Grouped_checkProject_allocated, H.
Qed.

(** C2, the flat revision at its failing input: the status output of a
    repository with exactly one modified tracked file parses into the single
    code "M ", which is no "??"; the test [statuses.length > 1] fails on it,
    the classifier goes on to the counts and returns Okay.  The grouped
    revision returns UncommittedChanges in the same world. *)
Theorem Flat_one_modified_file_is_Okay :
  let st := Script.start (Script.oneModified "/projects/site") tt in
  Flat.statusCodes (" M file.txt" ++ Script.nl) = ["M "]
  /\ fst (Flat.getRepoStatus (calling Script.exec) "/projects/site" st) = Resolved Okay
  /\ fst (Grouped.getRepoStatus (calling Script.exec) "/projects/site" "/projects/site/.git" st)
     = Resolved UncommittedChanges.
Proof. vm_compute. repeat split. Qed.

(** One untracked and one modified file: UntrackedFiles in both revisions. *)
Example modified_and_untracked_is_UntrackedFiles :
  let st := Script.start (Script.modifiedAndUntracked "/projects/site") tt in
  fst (Flat.getRepoStatus (calling Script.exec) "/projects/site" st) = Resolved UntrackedFiles
  /\ fst (Grouped.getRepoStatus (calling Script.exec) "/projects/site" "/projects/site/.git" st)
     = Resolved UntrackedFiles.
Proof. vm_compute. split; reflexivity. Qed.

(** A clean repository level with its upstream takes all five commands. *)
Example clean_repository_spawns_five :
  let st := Script.start (Script.cleanRepo "/projects/site") tt in
  issued (snd (Grouped.getRepoStatus (calling Script.exec) "/projects/site" "/projects/site/.git" st))
  = Grouped.commands "/projects/site" "/projects/site/.git"
  /\ issued (snd (Flat.getRepoStatus (calling Script.exec) "/projects/site" st))
     = Flat.commands "/projects/site".
Proof. vm_compute. split; reflexivity. Qed.

(** ** Counterexamples to the claims as first stated *)

(** C1 as stated fails: the working path [/etc/passwd/missing] does not
    exist, [ls] reports it with "Not a directory", and the classifier goes
    on to the history command and returns NotAGitRepo. *)
Lemma missing_path_is_not_PathNotFound :
  let path := "/etc/passwd/missing" in
  Posix.present Posix.etc path = false
  /\ fst (Grouped.getRepoStatus (calling Script.exec) path (path ++ "/.git")
            (Script.start (Posix.world Posix.etc path (path ++ "/.git")) tt))
     = Resolved NotAGitRepo.
Proof. vm_compute. split; reflexivity. Qed.

(** C6 as stated fails: a command line that [exec] refuses makes it throw
    inside the executor of the promise, and [execAsync] rejects. *)
Lemma execAsync_rejects_a_refused_command :
  exists (command reason : string) (st' : Proc Script.World unit),
    execAsync Script.node command (Script.start [] tt) = (Rejected reason, st').
Proof. eexists ("ls " ++ String Script.NUL ""), _, _. vm_compute. reflexivity. Qed.

(** C9 as stated fails: the objects read through the configuration are not
    the same after a request as before, for the request has written Okay
    to the [repoStatus] field of the project. *)
Lemma request_writes_repoStatus :
  let h := <[0%nat := Grouped.mkProject "site" "/projects/site" None None]> (∅ : Grouped.Heap) in
  let config := Grouped.mkConfig [Grouped.mkGroup "Personal Projects" [0%nat]] in
  let st := Script.start (Script.cleanRepo "/projects/site") h in
  Grouped.snapshot (heap (snd (Grouped.requestListener (calling Script.exec) config st))) config
  <> Grouped.snapshot (heap st) config.
Proof. vm_compute. discriminate. Qed.

(** C8 as stated fails: an override that is set to the empty string is not
    what the resolver yields. *)
Lemma empty_override_is_not_used :
  exists (project : Grouped.IProject) (g : string),
    Grouped.gitDir project = Some g /\ Grouped.resolveGitDir project <> g.
Proof.
  exists (Grouped.mkProject "YADM" "/projects/yadm" (Some "") None), "".
  split; [reflexivity | vm_compute; discriminate].
Qed.

(** ** The theorems at concrete inputs *)

(** Deciding whether a concrete text contains another. *)
Ltac contains_text := apply indexOf_Contains; vm_compute; reflexivity.
Ltac lacks_text :=
  let H := fresh in intros H; apply indexOf_Contains in H; vm_compute in H; discriminate H.

(** C1 at a path that does not exist, beside a repository that would answer
    every later command. *)
Lemma getRepoStatus_first_applicable_witness :
  Contains
    (stderr (existsCheck (outcomesOf (fst (run Script.exec
       (Grouped.commands "/tmp/missing" "/tmp/missing/.git")
       (Script.missingPath "/tmp/missing"))))))
    "No such file or directory"
  /\ fst (Grouped.getRepoStatus (calling Script.exec) "/tmp/missing" "/tmp/missing/.git"
            (Script.start (Script.missingPath "/tmp/missing") tt))
     = Resolved PathNotFound.
Proof.
  split; [contains_text|].
  apply (proj1 (proj2 (proj2 (getRepoStatus_first_applicable Script.exec
                                "/tmp/missing" "/tmp/missing/.git"
                                (Script.start (Script.missingPath "/tmp/missing") tt))))).
  contains_text.
Defined.

(** C10 at a directory that may not be listed: the error text differs, and
    both revisions go on to the history command. *)
Lemma PathNotFound_iff_no_such_file_witness :
  (exists later,
     issued (snd (Flat.getRepoStatus (calling Script.exec) "/root/secret"
                    (Script.start (Script.unreadableRepo "/root/secret") tt)))
     = ([] ++ firstn 2 (Flat.commands "/root/secret") ++ later)%list)
  /\ (exists later,
        issued (snd (Grouped.getRepoStatus (calling Script.exec) "/root/secret" "/root/secret/.git"
                       (Script.start (Script.unreadableRepo "/root/secret") tt)))
        = ([] ++ firstn 2 (Grouped.commands "/root/secret" "/root/secret/.git") ++ later)%list).
Proof.
  pose proof (PathNotFound_iff_no_such_file Script.exec "/root/secret" "/root/secret/.git"
                (Script.start (Script.unreadableRepo "/root/secret") tt)) as (_ & _ & HF & HG).
  split; [apply HF | apply HG]; lacks_text.
Defined.

(** C5 at a fresh repository with an untracked file. *)
Lemma NoCommitsYet_before_status_probe_witness :
  fst (Flat.getRepoStatus (calling Script.exec) "/projects/new"
         (Script.start (Script.emptyRepo "/projects/new") tt)) = Resolved NoCommitsYet
  /\ fst (Grouped.getRepoStatus (calling Script.exec) "/projects/new" "/projects/new/.git"
            (Script.start (Script.emptyRepo "/projects/new") tt)) = Resolved NoCommitsYet.
Proof.
  pose proof (NoCommitsYet_before_status_probe Script.exec "/projects/new" "/projects/new/.git"
                (Script.start (Script.emptyRepo "/projects/new") tt)) as (HF & HG).
  split.
  - apply HF; [lacks_text | lacks_text | contains_text].
  - apply HG; [lacks_text | lacks_text | contains_text].
Defined.

(** C3 at a clean repository whose branch has no upstream. *)
Lemma unparseable_count_is_zero_witness :
  fst (Flat.getRepoStatus (calling Script.exec) "/projects/local"
         (Script.start (Script.noUpstream "/projects/local") tt)) = Resolved Okay
  /\ fst (Grouped.getRepoStatus (calling Script.exec) "/projects/local" "/projects/local/.git"
            (Script.start (Script.noUpstream "/projects/local") tt)) = Resolved Okay.
Proof.
  pose proof (unparseable_count_is_zero Script.exec "/projects/local" "/projects/local/.git"
                (Script.start (Script.noUpstream "/projects/local") tt))
    as (_ & _ & _ & _ & _ & HF & HG).
  split.
  - apply HF; first [lacks_text | vm_compute; reflexivity].
  - apply HG; first [lacks_text | vm_compute; reflexivity].
Defined.

(** C6 at a command whose executable is missing: the failure comes back as
    data. *)
Lemma execAsync_rejects_only_when_exec_throws_witness :
  exists r,
    execAsync (calling Script.exec) "yadm status" (Script.start [] tt)
    = (Resolved r, mkProc [] tt ["yadm status"])
    /\ stderr r = "sh: not found"
    /\ error r = Some "Command failed: sh: not found".
Proof.
  destruct (proj1 (execAsync_rejects_only_when_exec_throws (calling Script.exec)
                     "yadm status" (Script.start [] tt))
              (Script.failure 127 "sh: not found") [] eq_refl)
    as (r & E & _ & Herr & Hmsg & _).
  exists r. split; [exact E | split; [exact Herr | exact Hmsg]].
Defined.

(** [Script.node] leaves the table as it is. *)
Lemma node_reads (c : string) (w : Script.World) : snd (Script.node c w) = w.
Proof. unfold Script.node, calling, Script.exec. destruct (Script.hasNul c); reflexivity. Qed.

(** C4 at three projects, the second of which makes [exec] throw: it alone
    ends with UnknownError, and the clean repository before it and the plain
    directory after it end with Okay and NotAGitRepo, in both revisions. *)
Lemma classification_failure_is_isolated_witness :
  (let st' := snd (Grouped.requestListener Script.node Scenes.threeProjectsGrouped
                     (Script.start Scenes.threeProjectsWorld Scenes.threeProjectsHeap)) in
   Grouped.repoStatus <$> heap st' !! 0%nat = Some (Some Okay)
   /\ Grouped.repoStatus <$> heap st' !! 1%nat = Some (Some UnknownError)
   /\ Grouped.repoStatus <$> heap st' !! 2%nat = Some (Some NotAGitRepo))
  /\ exists resp,
       fst (Flat.requestListener Script.node Scenes.threeProjectsFlat
              [2; 0; 1; 1; 0; 0; 2; 0; 1; 0; 0; 0; 0; 0; 0]%nat
              (Script.start Scenes.threeProjectsWorld tt))
       = Some (Resolved resp)
       /\ map card_status (body resp) = ["Okay!"; "Unknown Error"; "Not a git repo"].
Proof.
  destruct (classification_failure_is_isolated Script.node
              (Grouped.getRepoStatus Script.node) Flat.getRepoStatusTask 5)
    as (_ & HG & HF & _).
  split.
  - destruct (HG Scenes.threeProjectsGrouped
                (Script.start Scenes.threeProjectsWorld Scenes.threeProjectsHeap))
      as (resp & st' & E & _ & _ & Hpin).
    unfold Grouped.requestListener. rewrite E. cbn [snd].
    split; [|split].
    + pose proof (Hpin [] 0%nat [1%nat; 2%nat]
                    (Grouped.mkProject "site" "/projects/site" None None)
                    eq_refl ltac:(cbn; intuition discriminate) eq_refl) as H.
      cbv zeta in H. destruct H as [H _].
      refine (eq_trans (f_equal (fmap Grouped.repoStatus) H) _). vm_compute. reflexivity.
    + pose proof (Hpin [0%nat] 1%nat [2%nat]
                    (Grouped.mkProject "broken" Scenes.brokenPath None None)
                    eq_refl ltac:(cbn; intuition discriminate) eq_refl) as H.
      cbv zeta in H. destruct H as [H _].
      refine (eq_trans (f_equal (fmap Grouped.repoStatus) H) _). vm_compute. reflexivity.
    + pose proof (Hpin [0%nat; 1%nat] 2%nat []
                    (Grouped.mkProject "notes" "/projects/notes" None None)
                    eq_refl ltac:(cbn; intuition) eq_refl) as H.
      cbv zeta in H. destruct H as [H _].
      refine (eq_trans (f_equal (fmap Grouped.repoStatus) H) _). vm_compute. reflexivity.
  - destruct (HF Flat_getRepoStatusTask_ends Scenes.threeProjectsFlat
                [2; 0; 1; 1; 0; 0; 2; 0; 1; 0; 0; 0; 0; 0; 0]%nat
                (Script.start Scenes.threeProjectsWorld tt)) as [_ Hdone].
    destruct Hdone as (resp & E & _ & _ & Hbody); [cbn; lia|].
    exists resp. split; [exact E|]. rewrite (Hbody node_reads). vm_compute. reflexivity.
Defined.

(** C9 at the two projects, the first holding the UnknownError an earlier
    request left: the request writes Okay over it. *)
Lemma requestListener_keeps_readonly_fields_witness :
  Scenes.staleHeap !! 0%nat
  = Some (Grouped.mkProject "site" "/projects/site" None (Some UnknownError))
  /\ heap (snd (Grouped.requestListener (calling Script.exec) Script.twoProjectsGrouped
                  (Script.start Script.twoProjectsWorld Scenes.staleHeap))) !! 0%nat
     = Some (Grouped.mkProject "site" "/projects/site" None (Some Okay)).
Proof.
  split; [vm_compute; reflexivity|].
  pose proof (proj2 (proj2 (proj2 (requestListener_keeps_readonly_fields (calling Script.exec)
                                     Script.twoProjectsGrouped
                                     (Script.start Script.twoProjectsWorld Scenes.staleHeap))))
                [] 0%nat [1%nat]
                (Grouped.mkProject "site" "/projects/site" None (Some UnknownError))
                eq_refl ltac:(cbn; intuition discriminate) eq_refl) as H.
  cbv zeta in H. refine (eq_trans H _). vm_compute. reflexivity.
Defined.

(** C8 at a project with an override, as in the README. *)
Lemma resolveGitDir_override_or_default_witness :
  Grouped.resolveGitDir
    (Grouped.mkProject "YADM" "/projects/yadm" (Some "/projects/yadm-git") None)
  = "/projects/yadm-git".
Proof.
  apply (proj1 (resolveGitDir_override_or_default
                  (Grouped.mkProject "YADM" "/projects/yadm" (Some "/projects/yadm-git") None))).
  - reflexivity.
  - discriminate.
Defined.

(** * Further properties of the code *)

(** ** The status codes read off the output of the status command *)

Section StatusCodeFacts.

Lemma split_cons (sep : ascii) (s : string) :
  exists piece pieces, JS.split sep s = piece :: pieces.
Proof.
  induction s as [|c r IH]; cbn [JS.split]; [eauto|].
  destruct (Ascii.eqb c sep); [eauto|].
  destruct IH as (piece & pieces & ->). eauto.
Qed.

Lemma split_length (sep : ascii) (s : string) :
  List.length (JS.split sep s) = S (Counts.occurrences sep s).
Proof.
  induction s as [|c r IH]; cbn [JS.split Counts.occurrences]; [reflexivity|].
  destruct (Ascii.eqb c sep); cbn [List.length]; [congruence|].
  destruct (split_cons sep r) as (piece & pieces & E). rewrite E in *.
  cbn [List.length] in *. exact IH.
Qed.

(** A piece that starts before the first separator starts the first piece. *)
Lemma split_head (sep c : ascii) (r : string) :
  Ascii.eqb c sep = false ->
  exists piece pieces, JS.split sep (String c r) = String c piece :: pieces.
Proof.
  intros H. cbn [JS.split]. rewrite H.
  destruct (split_cons sep r) as (piece & pieces & ->). eauto.
Qed.

Lemma trimStart_head (s : string) (c : ascii) (r : string) :
  JS.trimStart s = String c r -> JS.isWhiteSpace c = false.
Proof.
  induction s as [|d s IH]; cbn [JS.trimStart]; [discriminate|].
  destruct (JS.isWhiteSpace d) eqn:E; [exact IH|].
  intros H. injection H as <- _. exact E.
Qed.

Lemma trimEnd_head (c : ascii) (r : string) :
  JS.isWhiteSpace c = false -> exists r', JS.trimEnd (String c r) = String c r'.
Proof.
  intros H. cbn [JS.trimEnd]. rewrite H. destruct (JS.trimEnd r); eauto.
Qed.

(** A trimmed string is empty or starts with a character that is no white
    space. *)
Lemma trim_head (s : string) (c : ascii) (r : string) :
  JS.trim s = String c r -> JS.isWhiteSpace c = false.
Proof.
  unfold JS.trim. destruct (JS.trimStart s) as [|d t] eqn:E; [discriminate|].
  pose proof (trimStart_head s d t E) as Hd.
  destruct (trimEnd_head d t Hd) as [r' ->]. intros H. injection H as <- _. exact Hd.
Qed.

Lemma not_space_not_LF (c : ascii) : JS.isWhiteSpace c = false -> Ascii.eqb c JS.LF = false.
Proof.
  intros H. destruct (Ascii.eqb_spec c JS.LF) as [->|]; [|reflexivity].
  vm_compute in H. discriminate.
Qed.

(** The first code of a non-blank output is not empty. *)
Lemma Flat_statusCodes_head (out : string) :
  JS.trim out <> "" ->
  exists c code codes, Flat.statusCodes out = String c code :: codes.
Proof.
  intros H. unfold Flat.statusCodes.
  destruct (JS.trim out) as [|c r] eqn:E; [congruence|].
  destruct (split_head JS.LF c r (not_space_not_LF c (trim_head out c r E)))
    as (piece & pieces & ->).
  cbn [map]. unfold JS.substr. cbn [substring]. eauto.
Qed.

Lemma Flat_statusCodes_blank (out : string) :
  JS.trim out = "" -> Flat.statusCodes out = [""].
Proof. intros H. unfold Flat.statusCodes. rewrite H. reflexivity. Qed.

Lemma Grouped_statusCodes_filter (out : string) :
  Grouped.statusCodes out =
    List.filter (fun s => negb (String.eqb s "")) (Flat.statusCodes out).
Proof. reflexivity. Qed.

Lemma substr_length (s : string) : (String.length (JS.substr s 0 2) <= 2)%nat.
Proof.
  unfold JS.substr. destruct s as [|a [|b [|c s]]]; cbn [substring String.length]; lia.
Qed.

(** X1.  The array the flat revision tests with [statuses.length > 1] is
    never empty: it has one entry more than the trimmed output of the status
    command has line feeds. *)
Theorem Flat_statusCodes_length (out : string) :
  List.length (Flat.statusCodes out) = S (Counts.occurrences JS.LF (JS.trim out)).
Proof. unfold Flat.statusCodes. rewrite length_map. apply split_length. Qed.

Lemma Grouped_statusCodes_nil (out : string) :
  Grouped.statusCodes out = [] <-> JS.trim out = "".
Proof.
  rewrite Grouped_statusCodes_filter. split.
  - intros H. destruct (JS.trim out) as [|c r] eqn:E; [reflexivity|].
    destruct (Flat_statusCodes_head out) as (d & code & codes & K); [congruence|].
    rewrite K in H. cbn in H. discriminate.
  - intros H. rewrite (Flat_statusCodes_blank out H). reflexivity.
Qed.

(** X2.  The codes the grouped revision keeps are one or two characters
    long, and there is none exactly when the output of the status command is
    blank (empty once trimmed). *)
Theorem Grouped_statusCodes_blank_iff (out : string) :
  (Grouped.statusCodes out = [] <-> JS.trim out = "")
  /\ (forall code, In code (Grouped.statusCodes out) ->
        (1 <= String.length code <= 2)%nat).
Proof.
  split.
  - apply Grouped_statusCodes_nil.
  - intros code H. unfold Grouped.statusCodes in H.
    apply filter_In in H as [H Hne]. apply in_map_iff in H as (line & <- & _).
    pose proof (substr_length line). destruct (JS.substr line 0 2); [discriminate|].
    cbn [String.length] in *. lia.
Qed.

End StatusCodeFacts.

(** ** The classifier beyond the claims *)

Section ClassifierExtras.

Context {World : Type}.
(** In this part [exec] refuses no command: it is given by what it hands to
    the callback, and the program runs with [calling exec]. *)
Variable exec : string -> World -> ExecCallback * World.

Ltac split_tests :=
  repeat match goal with
         | |- context [if ?b then _ else _] => destruct b eqn:?
         end.

Ltac absent H :=
  let E := fresh "E" in
  match type of H with
  | ~ Contains ?s ?t =>
      assert ((0 <=? JS.indexOf s t) = false) as E
        by (apply not_true_is_false; rewrite indexOf_Contains; exact H)
  end.

Lemma gt_positive (out : string) :
  JS.gt (JS.parseInt out) 0 = true <-> Counts.positive out.
Proof.
  unfold Counts.positive, JS.gt. destruct (JS.parseInt out) as [|n].
  - split; [discriminate | intros (n & H & _); discriminate].
  - rewrite Z.ltb_lt. split; [eauto|]. intros (m & H & Hm). congruence.
Qed.

Lemma gt_not_positive (out : string) :
  ~ Counts.positive out -> JS.gt (JS.parseInt out) 0 = false.
Proof. intros H. apply not_true_is_false. rewrite gt_positive. exact H. Qed.

(** The tests of the flat classifier that come before the counts all fail. *)
Lemma Flat_reaches_tests (o : Outcomes) :
  Counts.flatReaches o ->
  (0 <=? JS.indexOf (stderr (existsCheck o)) "No such file or directory") = false
  /\ (0 <=? JS.indexOf (stderr (logCheck o)) "not a git repository") = false
  /\ (0 <=? JS.indexOf (stderr (logCheck o)) "does not have any commits") = false
  /\ (0 <=? JS.Array_indexOf (Flat.statusCodes (stdout (statusCheck o))) "??") = false
  /\ (JS.Array_length (Flat.statusCodes (stdout (statusCheck o))) >? 1) = false.
Proof.
  intros (H1 & H2 & H3 & H4 & H5). absent H1. absent H2. absent H3.
  repeat split; try assumption.
  - apply not_true_is_false. rewrite Array_indexOf_In. exact H4.
  - unfold JS.Array_length. apply not_true_is_false. intros K.
    apply Z.gtb_lt in K. lia.
Qed.

Lemma Grouped_reaches_tests (o : Outcomes) :
  Counts.groupedReaches o ->
  (0 <=? JS.indexOf (stderr (existsCheck o)) "No such file or directory") = false
  /\ (0 <=? JS.indexOf (stderr (logCheck o)) "not a git repository") = false
  /\ (0 <=? JS.indexOf (stderr (logCheck o)) "does not have any commits") = false
  /\ (0 <=? JS.indexOf (stderr (logCheck o)) "fatal") = false
  /\ (0 <=? JS.indexOf (stderr (statusCheck o)) "fatal") = false
  /\ (0 <=? JS.Array_indexOf (Grouped.statusCodes (stdout (statusCheck o))) "??") = false
  /\ (JS.Array_length (Grouped.statusCodes (stdout (statusCheck o))) >? 0) = false.
Proof.
  intros (H1 & H2 & H3 & H4 & H5 & H6). absent H1. absent H2. absent H3. absent H4. absent H5.
  rewrite H6. repeat split; assumption || reflexivity.
Qed.

(** X3.  Ahead wins over behind.  In both revisions, when the classifier
    reaches the counts and the ahead count parses as a positive number, the
    result is UnpushedChanges after four commands: the behind count is not
    asked for, whatever it would be. *)
Theorem ahead_count_wins (path gitDir : string) (st : Proc World unit) :
  let oF := outcomesOf (fst (run exec (Flat.commands path) (world st))) in
  let oG := outcomesOf (fst (run exec (Grouped.commands path gitDir) (world st))) in
  (Counts.flatReaches oF -> Counts.positive (stdout (aheadCheck oF)) ->
   fst (Flat.getRepoStatus (calling exec) path st) = Resolved UnpushedChanges
   /\ issued (snd (Flat.getRepoStatus (calling exec) path st))
      = (issued st ++ firstn 4 (Flat.commands path))%list)
  /\ (Counts.groupedReaches oG -> Counts.positive (stdout (aheadCheck oG)) ->
      fst (Grouped.getRepoStatus (calling exec) path gitDir st) = Resolved UnpushedChanges
      /\ issued (snd (Grouped.getRepoStatus (calling exec) path gitDir st))
         = (issued st ++ firstn 4 (Grouped.commands path gitDir))%list).
Proof.
  intros oF oG.
  rewrite Flat_getRepoStatus_verdict, Grouped_getRepoStatus_verdict,
    Flat_getRepoStatus_issued, Grouped_getRepoStatus_issued. fold oF oG.
  split; intros H Hp; apply gt_positive in Hp.
  - apply Flat_reaches_tests in H as (E1 & E2 & E3 & E4 & E5).
    unfold Flat.verdict, Flat.spawned. rewrite E1, E2, E3, E4, E5, Hp. split; reflexivity.
  - apply Grouped_reaches_tests in H as (E1 & E2 & E3 & E4 & E5 & E6 & E7).
    unfold Grouped.verdict, Grouped.spawned. rewrite E1, E2, E3, E4, E5, E6, E7, Hp.
    split; reflexivity.
Qed.

(** X4.  In both revisions, when the classifier reaches the counts and the
    ahead count is not positive, all five commands are spawned and the
    behind count decides: UnpulledChanges when it parses as a positive
    number, Okay otherwise. *)
Theorem behind_count_decides (path gitDir : string) (st : Proc World unit) :
  let oF := outcomesOf (fst (run exec (Flat.commands path) (world st))) in
  let oG := outcomesOf (fst (run exec (Grouped.commands path gitDir) (world st))) in
  (Counts.flatReaches oF -> ~ Counts.positive (stdout (aheadCheck oF)) ->
   issued (snd (Flat.getRepoStatus (calling exec) path st)) = (issued st ++ Flat.commands path)%list
   /\ (Counts.positive (stdout (behindCheck oF)) ->
       fst (Flat.getRepoStatus (calling exec) path st) = Resolved UnpulledChanges)
   /\ (~ Counts.positive (stdout (behindCheck oF)) ->
       fst (Flat.getRepoStatus (calling exec) path st) = Resolved Okay))
  /\ (Counts.groupedReaches oG -> ~ Counts.positive (stdout (aheadCheck oG)) ->
      issued (snd (Grouped.getRepoStatus (calling exec) path gitDir st))
      = (issued st ++ Grouped.commands path gitDir)%list
      /\ (Counts.positive (stdout (behindCheck oG)) ->
          fst (Grouped.getRepoStatus (calling exec) path gitDir st) = Resolved UnpulledChanges)
      /\ (~ Counts.positive (stdout (behindCheck oG)) ->
          fst (Grouped.getRepoStatus (calling exec) path gitDir st) = Resolved Okay)).
Proof.
  intros oF oG.
  rewrite Flat_getRepoStatus_verdict, Grouped_getRepoStatus_verdict,
    Flat_getRepoStatus_issued, Grouped_getRepoStatus_issued. fold oF oG.
  split; intros H Hp; apply gt_not_positive in Hp.
  - apply Flat_reaches_tests in H as (E1 & E2 & E3 & E4 & E5).
    unfold Flat.verdict, Flat.spawned. rewrite E1, E2, E3, E4, E5, Hp.
    split; [reflexivity | split; intros Hb].
    + apply gt_positive in Hb. rewrite Hb. reflexivity.
    + apply gt_not_positive in Hb. rewrite Hb. reflexivity.
  - apply Grouped_reaches_tests in H as (E1 & E2 & E3 & E4 & E5 & E6 & E7).
    unfold Grouped.verdict, Grouped.spawned. rewrite E1, E2, E3, E4, E5, E6, E7, Hp.
    split; [reflexivity | split; intros Hb].
    + apply gt_positive in Hb. rewrite Hb. reflexivity.
    + apply gt_not_positive in Hb. rewrite Hb. reflexivity.
Qed.

(** Commands that leave the world as it is, run in a row, leave it as it
    is. *)
Lemma run_readonly (commands : list string) (w : World) :
  (forall c, In c commands -> forall w', snd (exec c w') = w') ->
  snd (run exec commands w) = w.
Proof.
  revert w. induction commands as [|c cs IH]; intros w H; cbn [run]; [reflexivity|].
  pose proof (H c (or_introl eq_refl) w) as Hc.
  destruct (exec c w) as [cb w1]. cbn [snd] in Hc. subst w1.
  specialize (IH w (fun c' Hin => H c' (or_intror Hin))).
  destruct (run exec cs w) as [results w2]. exact IH.
Qed.

Lemma In_firstn {A} (n : nat) (l : list A) (x : A) : In x (firstn n l) -> In x l.
Proof.
  intros H. rewrite <- (firstn_skipn n l). apply in_or_app. left. exact H.
Qed.

(** X6.  Classifying twice gives the same status when the commands only
    read.  In both revisions, if each of the five commands leaves the world
    as it found it, a classification leaves the world unchanged and a second
    one right after it resolves with the same status. *)
Theorem classification_is_repeatable (path gitDir : string) (st : Proc World unit) :
  ((forall c, In c (Flat.commands path) -> forall w, snd (exec c w) = w) ->
   let st1 := snd (Flat.getRepoStatus (calling exec) path st) in
   world st1 = world st
   /\ fst (Flat.getRepoStatus (calling exec) path st1) = fst (Flat.getRepoStatus (calling exec) path st))
  /\ ((forall c, In c (Grouped.commands path gitDir) -> forall w, snd (exec c w) = w) ->
      let st1 := snd (Grouped.getRepoStatus (calling exec) path gitDir st) in
      world st1 = world st
      /\ fst (Grouped.getRepoStatus (calling exec) path gitDir st1)
         = fst (Grouped.getRepoStatus (calling exec) path gitDir st)).
Proof.
  split; intros H st1.
  - assert (world st1 = world st) as Hw.
    { subst st1. rewrite Flat_getRepoStatus_run. cbn [snd world].
      apply run_readonly. intros c Hc. apply H. eapply In_firstn, Hc. }
    split; [exact Hw|]. rewrite !Flat_getRepoStatus_verdict, Hw. reflexivity.
  - assert (world st1 = world st) as Hw.
    { subst st1. rewrite Grouped_getRepoStatus_run. cbn [snd world].
      apply run_readonly. intros c Hc. apply H. eapply In_firstn, Hc. }
    split; [exact Hw|]. rewrite !Grouped_getRepoStatus_verdict, Hw. reflexivity.
Qed.

End ClassifierExtras.

(** ** The two revisions against each other *)

Section RevisionFacts.

Context {World : Type}.
(** In this part [exec] refuses no command: it is given by what it hands to
    the callback, and the program runs with [calling exec]. *)
Variable exec : string -> World -> ExecCallback * World.

Ltac split_tests :=
  repeat match goal with
         | |- context [if ?b then _ else _] => destruct b eqn:?
         end.

(** Dropping the empty codes neither adds nor removes a "??". *)
Lemma untracked_test_agrees (out : string) :
  (0 <=? JS.Array_indexOf (Grouped.statusCodes out) "??")
  = (0 <=? JS.Array_indexOf (Flat.statusCodes out) "??").
Proof.
  apply eq_true_iff_eq. rewrite !Array_indexOf_In, Grouped_statusCodes_filter, filter_In.
  split; [tauto | intros H; split; [exact H | reflexivity]].
Qed.

Lemma Flat_statusCodes_length_pos (out : string) :
  (1 <= List.length (Flat.statusCodes out))%nat.
Proof.
  unfold Flat.statusCodes. rewrite length_map.
  destruct (split_cons JS.LF (JS.trim out)) as (piece & pieces & ->). cbn. lia.
Qed.

(** The decisions of the two revisions on the same answers. *)
Lemma verdicts_differ_only (o : Outcomes) :
  Flat.verdict o = Grouped.verdict o
  \/ Grouped.verdict o = UnknownError
  \/ (Grouped.verdict o = UncommittedChanges
      /\ List.length (Flat.statusCodes (stdout (statusCheck o))) = 1%nat).
Proof.
  unfold Flat.verdict, Grouped.verdict. rewrite untracked_test_agrees.
  destruct (0 <=? JS.indexOf (stderr (existsCheck o)) _); [now left|].
  destruct (0 <=? JS.indexOf (stderr (logCheck o)) "not a git repository"); [now left|].
  destruct (0 <=? JS.indexOf (stderr (logCheck o)) "does not have any commits"); [now left|].
  destruct (0 <=? JS.indexOf (stderr (logCheck o)) "fatal"); [now right; left|].
  destruct (0 <=? JS.indexOf (stderr (statusCheck o)) "fatal"); [now right; left|].
  destruct (0 <=? JS.Array_indexOf _ "??"); [now left|].
  pose proof (Flat_statusCodes_length_pos (stdout (statusCheck o))) as Hpos.
  destruct (JS.Array_length (Flat.statusCodes _) >? 1) eqn:EF;
    destruct (JS.Array_length (Grouped.statusCodes _) >? 0) eqn:EG.
  - now left.
  - exfalso. rewrite Array_length_pos in EG. apply negb_false_iff, Nat.eqb_eq in EG.
    apply length_zero_iff_nil, Grouped_statusCodes_nil in EG.
    rewrite (Flat_statusCodes_blank _ EG) in EF. discriminate.
  - right; right. split; [reflexivity|].
    unfold JS.Array_length in EF. apply not_true_iff_false in EF.
    rewrite Z.gtb_lt in EF. lia.
  - now left.
Qed.

(** X7.  When the world answers the commands of both revisions alike, the
    two classifiers resolve with the same status except in two cases: the
    grouped one answers UnknownError (a "fatal" the flat one does not look
    for), or it answers UncommittedChanges on a status output of a single
    line (which the flat one lets pass). *)
Theorem revisions_differ_only (path gitDir : string) (st : Proc World unit) :
  let oF := outcomesOf (fst (run exec (Flat.commands path) (world st))) in
  let oG := outcomesOf (fst (run exec (Grouped.commands path gitDir) (world st))) in
  oF = oG ->
  fst (Flat.getRepoStatus (calling exec) path st) = fst (Grouped.getRepoStatus (calling exec) path gitDir st)
  \/ fst (Grouped.getRepoStatus (calling exec) path gitDir st) = Resolved UnknownError
  \/ (fst (Grouped.getRepoStatus (calling exec) path gitDir st) = Resolved UncommittedChanges
      /\ List.length (Flat.statusCodes (stdout (statusCheck oG))) = 1%nat).
Proof.
  intros oF oG H.
  rewrite Flat_getRepoStatus_verdict, Grouped_getRepoStatus_verdict. fold oF oG.
  rewrite H. destruct (verdicts_differ_only oG) as [K|[K|[K L]]].
  - left. congruence.
  - right; left. congruence.
  - right; right. split; [congruence | exact L].
Qed.

End RevisionFacts.

(** ** What a request costs and what its page shows *)

Section RequestFacts.

Context {World : Type}.

Section AnyClassifierPage.

Variable classify : string -> string -> Async World unit RepoStatus.

(** X10.  No card of the grouped page is without a status.  Whatever the
    classifier does, the request resolves and every card of every section
    of its page shows the text, the class and the icon of one of the nine
    statuses: none reads "undefined". *)
Theorem Grouped_page_shows_a_status (config : Grouped.IConfig) (st : Proc World Grouped.Heap) :
  exists resp st',
    Grouped.requestListenerWith classify config st = (Resolved resp, st')
    /\ forall title cards card,
         In (title, cards) (body resp) -> In card cards ->
         card_status card <> "undefined"
         /\ exists status,
              card_status card = RepoStatus_value status
              /\ card_textClass card = getStatusTextClass (Some status)
              /\ card_icon card = getStatusIconName (Some status).
Proof.
  pose proof (Grouped_requestListenerWith_reports classify config st) as Hrep.
  pose proof (Grouped_requestListenerWith_readonly classify config st) as Hframe.
  rewrite Grouped_requestListenerWith_pass in *. cbn [snd] in *.
  eexists _, _. split; [reflexivity|]. cbn [body].
  intros title cards card Hsec Hcard.
  unfold Grouped.renderOutput, Grouped.spread in Hsec. cbn [Grouped.groups] in Hsec.
  apply in_map_iff in Hsec as (group & Heq & Hg). injection Heq as _ <-.
  apply in_concat in Hcard as (cs & Hcs & Hin).
  apply in_map_iff in Hcs as (l & <- & Hl).
  unfold Grouped.renderProject in Hin.
  destruct (heap (snd (Grouped.pass classify config st)) !! l) as [p'|] eqn:Hp'; [|destruct Hin].
  destruct Hin as [<-|[]]. cbn [card_status card_textClass card_icon].
  assert (is_Some (heap st !! l)) as Hs.
  { specialize (Hframe l). rewrite Hp' in Hframe. destruct (heap st !! l); [eauto | discriminate]. }
  destruct (Hrep group l Hg Hl Hs) as (p & status & Hp & Hst).
  rewrite Hp' in Hp. injection Hp as <-. rewrite Hst. cbn [statusText].
  split; [destruct status; discriminate | eauto].
Qed.

End AnyClassifierPage.

End RequestFacts.

(** ** What holds whatever [exec] does *)

Section AnyExecExtras.

Context {World : Type}.
Variable exec : string -> World -> Spawn * World.

Lemma Grouped_loop_spawns_any (xs : list Grouped.ref) (st : Proc World Grouped.Heap) :
  exists new,
    issued (snd (forOf xs (Grouped.checkProject (Grouped.getRepoStatus exec)) st))
    = (issued st ++ new)%list
    /\ (List.length new <= 5 * List.length xs)%nat.
Proof.
  revert st. induction xs as [|x xs IH]; intros st; cbn [forOf].
  - exists []. rewrite app_nil_r. split; [reflexivity | cbn; lia].
  - unfold bind.
    assert (exists st1 new1,
               Grouped.checkProject (Grouped.getRepoStatus exec) x st = (Resolved tt, st1)
               /\ issued st1 = (issued st ++ new1)%list /\ (List.length new1 <= 5)%nat)
      as (st1 & new1 & E & E1 & H1).
    { destruct (heap st !! x) as [p|] eqn:Hx.
      - rewrite (Grouped_checkProject_allocated _ x p st Hx).
        destruct (Grouped_getRepoStatus_settles exec (Grouped.path p) (Grouped.resolveGitDir p)
                    (mkProc (world st) tt (issued st))) as (n & E1 & _).
        eexists _, _. split; [reflexivity|]. cbn [issued] in *. split; [exact E1|].
        rewrite length_firstn, Grouped_commands_length. lia.
      - rewrite Grouped_checkProject_dangling by exact Hx.
        exists st, []. rewrite app_nil_r. repeat split. cbn. lia. }
    rewrite E. destruct (IH st1) as (new2 & E2 & H2).
    exists (new1 ++ new2)%list. rewrite E2, E1, <- app_assoc, length_app.
    cbn [List.length]. split; [reflexivity | lia].
Qed.

(** When [exec] refuses nothing, [map] has spawned the listing of every
    project, in the order of the array, before any command has answered. *)
Lemma Flat_start_spawns_listings (answer : string -> World -> ExecCallback * World)
    (ps : list Flat.IProject) (st : Proc World unit) :
  issued (snd (start (calling answer) (map (Flat.checkProject Flat.getRepoStatusTask) ps) st))
  = (issued st ++ map (fun project => nth 0 (Flat.commands (Flat.path project)) "") ps)%list.
Proof.
  revert st. induction ps as [|p ps IH]; intros st; cbn [map start].
  - cbn [snd]. rewrite app_nil_r. reflexivity.
  - unfold Flat.checkProject at 1, Flat.getRepoStatusTask at 1, Task.execAsync at 1.
    cbv zeta. cbn [Task.bind Task.try_catch call].
    unfold execAsync at 1, calling at 1.
    destruct (answer _ (world st)) as [cb w].
    specialize (IH (mkProc w (heap st) (issued st ++ [nth 0 (Flat.commands (Flat.path p)) ""]))).
    cbn [nth Flat.commands] in IH. cbv zeta in IH.
    destruct (start _ _ _) as [pool st2]. cbn [snd issued] in *.
    rewrite IH, <- app_assoc. reflexivity.
Qed.

(** X5.  What a classification has spawned follows from how it ends,
    whatever [exec] does.  In both revisions the commands spawned are the
    first n command lines.  When the classification resolves with a status,
    n is 1 for PathNotFound, 2 for NotAGitRepo and NoCommitsYet, 3 for
    UntrackedFiles and UncommittedChanges, 4 for UnpushedChanges, 5 for
    UnpulledChanges and Okay, and 2 or 3 for UnknownError.  When it rejects,
    n is below 5 and the reason is what [exec] threw on the next command
    line. *)
Theorem cost_follows_from_status (path gitDir : string) (st : Proc World unit) :
  (exists n,
     issued (snd (Flat.getRepoStatus exec path st))
     = (issued st ++ firstn n (Flat.commands path))%list
     /\ (forall status,
           fst (Flat.getRepoStatus exec path st) = Resolved status -> Counts.costOf status n)
     /\ (forall reason,
           fst (Flat.getRepoStatus exec path st) = Rejected reason ->
           (n < 5)%nat
           /\ exists w w', exec (nth n (Flat.commands path) "") w = (Throws reason, w')))
  /\ (exists n,
        issued (snd (Grouped.getRepoStatus exec path gitDir st))
        = (issued st ++ firstn n (Grouped.commands path gitDir))%list
        /\ (forall status,
              fst (Grouped.getRepoStatus exec path gitDir st) = Resolved status ->
              Counts.costOf status n)
        /\ (forall reason,
              fst (Grouped.getRepoStatus exec path gitDir st) = Rejected reason ->
              (n < 5)%nat
              /\ exists w w',
                   exec (nth n (Grouped.commands path gitDir) "") w = (Throws reason, w'))).
Proof.
  destruct (Flat_getRepoStatus_settles exec path st) as (n & E & H).
  destruct (Grouped_getRepoStatus_settles exec path gitDir st) as (m & E' & H').
  split.
  - exists n. split; [exact E|].
    destruct (fst (Flat.getRepoStatus exec path st)) as [s|e]; split; intros x Hx;
      first [discriminate Hx | injection Hx as <-]; tauto.
  - exists m. split; [exact E'|].
    destruct (fst (Grouped.getRepoStatus exec path gitDir st)) as [s|e]; split; intros x Hx;
      first [discriminate Hx | injection Hx as <-]; tauto.
Qed.

(** X8.  In the flat revision "Unknown Error" means that [exec] threw.  The
    flat classifier never resolves with UnknownError, whatever [exec] does.
    So, when the commands only read and every project has had its turns, the
    page has one card per project, in order and under its name, and a card
    reads "Unknown Error" exactly when the classification of its project
    rejects, whatever the order in which the answers arrived. *)
Theorem Flat_UnknownError_only_when_exec_throws (config : Flat.IConfig)
    (schedule : list nat) (st : Proc World unit) :
  (forall path st0, fst (Flat.getRepoStatus exec path st0) <> Resolved UnknownError)
  /\ ((forall c w, snd (exec c w) = w) ->
      (5 * List.length (Flat.projects config) <= List.length schedule)%nat ->
      exists resp,
        fst (Flat.requestListener exec config schedule st) = Some (Resolved resp)
        /\ Forall2 (fun project card =>
                      card_name card = Flat.name project
                      /\ (card_status card = "Unknown Error"
                          <-> exists reason,
                                fst (Flat.getRepoStatus exec (Flat.path project) st)
                                = Rejected reason))
                   (Flat.projects config) (body resp)).
Proof.
  assert (forall path st0, fst (Flat.getRepoStatus exec path st0) <> Resolved UnknownError)
    as Hnever.
  { intros path st0 H. destruct (Flat_getRepoStatus_settles exec path st0) as (n & _ & Hn).
    rewrite H in Hn. tauto. }
  split; [exact Hnever|]. intros Hro Hlen.
  destruct (Flat_requestListenerWith_after exec Flat.getRepoStatusTask 5 config schedule st
              Flat_getRepoStatusTask_ends) as (_ & _ & Hdone).
  destruct (Hdone Hlen) as (statuses & E & Hfst & Hsnd). specialize (Hsnd Hro).
  eexists. split; [exact E|]. cbn [body]. rewrite <- Hfst in *. clear E Hfst Hdone Hlen.
  assert (map snd statuses
          = map (fun project => settle (fst (Flat.getRepoStatus exec (Flat.path project) st)))
                (map fst statuses)) as Hs.
  { rewrite Hsnd. apply map_ext. intros project.
    rewrite Flat_getRepoStatus_sequential. reflexivity. }
  clear Hsnd. unfold Flat.renderOutput.
  induction statuses as [|[project status] statuses IH]; constructor.
  - cbn [card_name card_status statusText fst]. split; [reflexivity|].
    apply (f_equal (hd UnknownError)) in Hs. cbn [map hd fst snd] in Hs.
    pose proof (Hnever (Flat.path project) st) as Hn.
    destruct (fst (Flat.getRepoStatus exec (Flat.path project) st)) as [s|e];
      cbn [settle] in Hs; subst status.
    + split; [|intros [reason H]; discriminate H].
      intros H. destruct s; cbn in H; try discriminate. congruence.
    + split; [eauto | reflexivity].
  - apply IH. apply (f_equal (@tl RepoStatus)) in Hs. exact Hs.
Qed.

(** X9.  The commands of a request.  Whatever [exec] does, a request only
    adds to the log of spawned commands: in the flat revision at most five
    per configured project, whatever the order in which the answers arrive,
    and in the grouped revision at most five per project listed in the
    groups.  In the flat revision, when [exec] refuses nothing, the first
    commands added are the listings of all the projects in the order of the
    configuration: every project is started before any command has
    answered. *)
Theorem request_spawns_at_most_five_per_project
    (flat : Flat.IConfig) (grouped : Grouped.IConfig) (schedule : list nat)
    (stF : Proc World unit) (stG : Proc World Grouped.Heap) :
  (exists new,
     issued (snd (Flat.requestListener exec flat schedule stF)) = (issued stF ++ new)%list
     /\ (List.length new <= 5 * List.length (Flat.projects flat))%nat)
  /\ (exists new,
        issued (snd (Grouped.requestListener exec grouped stG)) = (issued stG ++ new)%list
        /\ (List.length new
            <= 5 * List.length (concat (map Grouped.projects (Grouped.groups grouped))))%nat)
  /\ (forall answer : string -> World -> ExecCallback * World,
        exists later,
          issued (snd (Flat.requestListener (calling answer) flat schedule stF))
          = (issued stF
             ++ map (fun project => nth 0 (Flat.commands (Flat.path project)) "")
                    (Flat.projects flat)
             ++ later)%list).
Proof.
  split; [|split].
  - apply (Flat_requestListenerWith_after exec Flat.getRepoStatusTask 5 flat schedule stF
             Flat_getRepoStatusTask_ends).
  - unfold Grouped.requestListener. rewrite Grouped_requestListenerWith_pass. cbn [snd].
    rewrite Grouped_pass_flat. apply Grouped_loop_spawns_any.
  - intros answer. unfold Flat.requestListener, Flat.requestListenerWith, Promise_all.
    set (P := fun (project : Flat.IProject) (r : Promise (Flat.IProject * RepoStatus)) =>
                exists status, r = Resolved (project, status)).
    assert (forall b e, ~ P b (Rejected e)) as HP by (intros b e [status H]; discriminate).
    destruct (start_Pending (calling answer) P HP (Flat.checkProject Flat.getRepoStatusTask) 5
                (Flat.projects flat) stF) as (t1 & s1 & new1 & HP1 & Hr1 & _).
    { intros b. apply Flat_checkProject_ends, Flat_getRepoStatusTask_ends. }
    pose proof (Flat_start_spawns_listings answer (Flat.projects flat) stF) as Hlog1.
    destruct (start _ _ stF) as [pool1 st1]. cbn [fst snd] in *.
    destruct (eventLoop_Pending (calling answer) P HP schedule _ pool1 st1 t1 s1 HP1 Hr1)
      as (t2 & s2 & new2 & _ & _ & Hlog2 & _).
    destruct (eventLoop _ schedule pool1 st1) as [pool2 st2]. cbn [fst snd] in *.
    exists new2. rewrite Hlog2, Hlog1, <- app_assoc. reflexivity.
Qed.

End AnyExecExtras.

(** ** Any [exec] and the worlds that call back *)

Section TwoExecs.

Context {World : Type}.
Variables exec exec' : string -> World -> Spawn * World.

Ltac same_step :=
  first
    [ reflexivity
    | progress cbn [world heap issued fst snd]
    | match goal with
      | H : forall w, exec ?c w = exec' ?c w |- context [exec ?c ?w] => rewrite (H w)
      end
    | match goal with
      | |- context [exec' ?c ?w] => destruct (exec' c w) as [[?|?] ?]
      end
    | match goal with |- context [if ?b then _ else _] => destruct b end ].

(** A classification asks [exec] for its five command lines and for nothing
    else. *)
Lemma Flat_getRepoStatus_ext (path : string) (st : Proc World unit) :
  (forall c, In c (Flat.commands path) -> forall w, exec c w = exec' c w) ->
  Flat.getRepoStatus exec path st = Flat.getRepoStatus exec' path st.
Proof.
  destruct st as [w [] log].
  unfold Flat.getRepoStatus, Flat.commands. cbv zeta.
  generalize ("ls " ++ JS.dquote ++ path ++ JS.dquote)%string as c1.
  set (gitCmd := ("git -C " ++ JS.dquote ++ path ++ JS.dquote)%string).
  generalize ("GIT_DISCOVERY_ACROSS_FILESYSTEM=true" ++ " " ++ gitCmd ++ " log -1")%string as c2.
  generalize ("GIT_DISCOVERY_ACROSS_FILESYSTEM=true" ++ " " ++ gitCmd ++ " status --porcelain=v1")%string as c3.
  generalize ("GIT_DISCOVERY_ACROSS_FILESYSTEM=true" ++ " " ++ gitCmd ++ " rev-list --count @{u}..HEAD")%string as c4.
  generalize ("GIT_DISCOVERY_ACROSS_FILESYSTEM=true" ++ " " ++ gitCmd ++ " rev-list --count HEAD..@{u}")%string as c5.
  clear gitCmd. intros c5 c4 c3 c2 c1 H.
  assert (forall w, exec c1 w = exec' c1 w) as H1 by (apply H; cbn; tauto).
  assert (forall w, exec c2 w = exec' c2 w) as H2 by (apply H; cbn; tauto).
  assert (forall w, exec c3 w = exec' c3 w) as H3 by (apply H; cbn; tauto).
  assert (forall w, exec c4 w = exec' c4 w) as H4 by (apply H; cbn; tauto).
  assert (forall w, exec c5 w = exec' c5 w) as H5 by (apply H; cbn; tauto).
  clear H. unfold bind, execAsync, ret.
  repeat same_step.
Qed.

Lemma Grouped_getRepoStatus_ext (projectPath gitDir : string) (st : Proc World unit) :
  (forall c, In c (Grouped.commands projectPath gitDir) -> forall w, exec c w = exec' c w) ->
  Grouped.getRepoStatus exec projectPath gitDir st
  = Grouped.getRepoStatus exec' projectPath gitDir st.
Proof.
  destruct st as [w [] log].
  unfold Grouped.getRepoStatus, Grouped.commands. cbv zeta.
  generalize ("ls " ++ JS.dquote ++ projectPath ++ JS.dquote)%string as c1.
  set (gitCmd := ("git --work-tree=" ++ JS.dquote ++ projectPath ++ JS.dquote
                  ++ " --git-dir=" ++ JS.dquote ++ gitDir ++ JS.dquote)%string).
  generalize ("GIT_DISCOVERY_ACROSS_FILESYSTEM=true" ++ " " ++ gitCmd ++ " log -1")%string as c2.
  generalize ("GIT_DISCOVERY_ACROSS_FILESYSTEM=true" ++ " " ++ gitCmd ++ " status --porcelain=v1")%string as c3.
  generalize ("GIT_DISCOVERY_ACROSS_FILESYSTEM=true" ++ " " ++ gitCmd ++ " rev-list --count @{u}..HEAD")%string as c4.
  generalize ("GIT_DISCOVERY_ACROSS_FILESYSTEM=true" ++ " " ++ gitCmd ++ " rev-list --count HEAD..@{u}")%string as c5.
  clear gitCmd. intros c5 c4 c3 c2 c1 H.
  assert (forall w, exec c1 w = exec' c1 w) as H1 by (apply H; cbn; tauto).
  assert (forall w, exec c2 w = exec' c2 w) as H2 by (apply H; cbn; tauto).
  assert (forall w, exec c3 w = exec' c3 w) as H3 by (apply H; cbn; tauto).
  assert (forall w, exec c4 w = exec' c4 w) as H4 by (apply H; cbn; tauto).
  assert (forall w, exec c5 w = exec' c5 w) as H5 by (apply H; cbn; tauto).
  clear H. unfold bind, execAsync, ret.
  repeat same_step.
Qed.

End TwoExecs.

Section Bridge.

Context {World : Type}.
Variable exec : string -> World -> Spawn * World.

(** X17.  A classification asks [exec] for its five command lines and
    nothing else; so when [exec] throws on none of them, the classification
    is the one of the world that hands the same outcomes to the callback,
    and everything proved of such worlds holds of it. *)
Theorem classification_of_an_exec_that_calls_back (path gitDir : string) (st : Proc World unit) :
  ((forall c, In c (Flat.commands path) -> forall w, exists cb w', exec c w = (CallsBack cb, w')) ->
   Flat.getRepoStatus exec path st = Flat.getRepoStatus (calling (answersOf exec)) path st)
  /\ ((forall c, In c (Grouped.commands path gitDir) ->
       forall w, exists cb w', exec c w = (CallsBack cb, w')) ->
      Grouped.getRepoStatus exec path gitDir st
      = Grouped.getRepoStatus (calling (answersOf exec)) path gitDir st).
Proof.
  split; intros H; [apply Flat_getRepoStatus_ext | apply Grouped_getRepoStatus_ext];
    intros c Hc w; destruct (H c Hc w) as (cb & w' & E);
    unfold calling, answersOf; rewrite E; reflexivity.
Qed.

End Bridge.

(** X11.  The presentation of a status is consistent: the exclamation icon
    goes with the danger colour and with nothing else, the danger colour is
    that of PathNotFound, NotAGitRepo, UnknownError and of a missing status,
    and the success colour is that of Okay alone. *)
Theorem danger_icon_iff_danger_class (status : option RepoStatus) :
  (getStatusIconName status = "fa-exclamation-circle"
     <-> getStatusTextClass status = "has-text-danger")
  /\ (getStatusTextClass status = "has-text-danger"
      <-> status = None \/ status = Some PathNotFound \/ status = Some NotAGitRepo
          \/ status = Some UnknownError)
  /\ (getStatusTextClass status = "has-text-success" <-> status = Some Okay).
Proof.
  destruct status as [[]|]; cbn;
    repeat split; intros; try discriminate; try reflexivity; try tauto;
    repeat match goal with H : _ \/ _ |- _ => destruct H end; try discriminate; tauto.
Qed.

(** ** The page as text *)

Section HtmlFacts.

Lemma string_app_assoc (a b c : string) : ((a ++ b) ++ c)%string = (a ++ b ++ c)%string.
Proof.
  induction a as [|x a IH]; rewrite ?append_empty, ?append_cons; [reflexivity|].
  rewrite IH. reflexivity.
Qed.

Lemma string_app_empty_r (a : string) : (a ++ "")%string = a.
Proof. induction a as [|x a IH]; rewrite ?append_cons, ?IH; reflexivity. Qed.

(** A loop that appends a piece per element appends their concatenation. *)
Lemma fold_left_append {A} (f : A -> string) (xs : list A) (init : string) :
  fold_left (fun output x => output ++ f x)%string xs init
  = (init ++ Html.join (map f xs))%string.
Proof.
  revert init. induction xs as [|x xs IH]; intros init; cbn [fold_left map Html.join fold_right].
  - rewrite string_app_empty_r. reflexivity.
  - rewrite IH, string_app_assoc. reflexivity.
Qed.

Lemma fold_left_pointwise {A B} (f g : A -> B -> A) (xs : list B) (init : A) :
  (forall a b, f a b = g a b) -> fold_left f xs init = fold_left g xs init.
Proof.
  intros H. revert init. induction xs as [|x xs IH]; intros init; cbn [fold_left];
    [reflexivity|]. rewrite H. apply IH.
Qed.

Lemma join_app (xs ys : list string) :
  Html.join (xs ++ ys) = (Html.join xs ++ Html.join ys)%string.
Proof.
  induction xs as [|x xs IH]; cbn [app Html.join fold_right]; [reflexivity|].
  fold (Html.join (xs ++ ys)). fold (Html.join xs). rewrite IH, string_app_assoc. reflexivity.
Qed.

Lemma join_concat (xss : list (list string)) :
  Html.join (concat xss) = Html.join (map Html.join xss).
Proof.
  induction xss as [|xs xss IH]; cbn [concat map]; [reflexivity|].
  rewrite join_app, IH. reflexivity.
Qed.

Lemma Flat_page_of_cards (results : list (Flat.IProject * RepoStatus)) :
  FlatHtml.renderOutput results
  = (FlatHtml.header ++ Html.join (map Html.cardOf (Flat.renderOutput results))
     ++ FlatHtml.footer)%string.
Proof.
  unfold FlatHtml.renderOutput, Flat.renderOutput.
  rewrite (fold_left_pointwise _
             (fun output x => output ++ Html.cardOf
                (let '(project, status) := x in
                 mkCard (getStatusTextClass (Some status)) (getStatusIconName (Some status))
                        (Flat.name project) (statusText (Some status))))%string).
  - rewrite fold_left_append, string_app_assoc, map_map. reflexivity.
  - intros output [project status]. reflexivity.
Qed.

Lemma Grouped_renderProjects_join (h : Grouped.Heap) (projects : list Grouped.ref)
    (output : string) :
  GroupedHtml.renderProjects h projects output
  = (output ++ Html.join (map Html.cardOf (concat (map (Grouped.renderProject h) projects))))%string.
Proof.
  unfold GroupedHtml.renderProjects.
  revert output. induction projects as [|l ls IH]; intros output; cbn [fold_left map concat].
  - cbn. rewrite string_app_empty_r. reflexivity.
  - rewrite IH. unfold Grouped.renderProject at 2. destruct (h !! l) as [p|].
    + cbn [app map Html.join fold_right]. rewrite string_app_assoc. reflexivity.
    + reflexivity.
Qed.

Lemma Grouped_page_of_cards (h : Grouped.Heap) (config : Grouped.IConfig) :
  GroupedHtml.renderOutput h config
  = (GroupedHtml.header
     ++ Html.join (map GroupedHtml.sectionOf (Grouped.renderOutput h config))
     ++ GroupedHtml.footer)%string.
Proof.
  unfold GroupedHtml.renderOutput, Grouped.renderOutput.
  rewrite (fold_left_pointwise _
             (fun output group => output ++ GroupedHtml.sectionOf
                (Grouped.title group,
                 concat (map (Grouped.renderProject h) (Grouped.projects group))))%string).
  - rewrite fold_left_append, string_app_assoc, map_map. reflexivity.
  - intros output group. rewrite Grouped_renderProjects_join.
    unfold GroupedHtml.sectionOf. cbn [fst snd]. rewrite !string_app_assoc. reflexivity.
Qed.

(** X12.  The page is its fixed head, one block per entry in order, and its
    fixed foot.  The text [renderOutput] builds is, in the flat revision, the
    header, the card of each [project, status] pair and the footer; in the
    grouped revision the header, for each group its heading, the cards of
    its projects and a closing tag, and the footer.  A card depends on a
    project through its name and its status alone, and with no project the
    page is header and footer. *)
Theorem page_is_header_cards_footer
    (results : list (Flat.IProject * RepoStatus))
    (h : Grouped.Heap) (config : Grouped.IConfig) :
  FlatHtml.renderOutput results
    = (FlatHtml.header ++ Html.join (map Html.cardOf (Flat.renderOutput results))
       ++ FlatHtml.footer)%string
  /\ GroupedHtml.renderOutput h config
     = (GroupedHtml.header
        ++ Html.join (map GroupedHtml.sectionOf (Grouped.renderOutput h config))
        ++ GroupedHtml.footer)%string
  /\ FlatHtml.renderOutput [] = (FlatHtml.header ++ FlatHtml.footer)%string
  /\ GroupedHtml.renderOutput h (Grouped.mkConfig [])
     = (GroupedHtml.header ++ GroupedHtml.footer)%string.
Proof.
  split; [apply Flat_page_of_cards | split; [apply Grouped_page_of_cards | split; reflexivity]].
Qed.

End HtmlFacts.

Section HtmlContents.

Lemma Contains_app_l (a b t : string) : Contains a t -> Contains (a ++ b)%string t.
Proof.
  intros (before & rest & ->). exists before, (rest ++ b)%string.
  rewrite !string_app_assoc. reflexivity.
Qed.

Lemma Contains_app_r (a b t : string) : Contains b t -> Contains (a ++ b)%string t.
Proof.
  intros (before & rest & ->). exists (a ++ before)%string, rest.
  rewrite !string_app_assoc. reflexivity.
Qed.

Lemma Contains_join (pieces : list string) (piece t : string) :
  In piece pieces -> Contains piece t -> Contains (Html.join pieces) t.
Proof.
  induction pieces as [|p ps IH]; intros Hin Hc; [destruct Hin|].
  cbn [Html.join fold_right]. fold (Html.join ps). destruct Hin as [->|Hin].
  - apply Contains_app_l, Hc.
  - apply Contains_app_r, IH; assumption.
Qed.

(** [a ++ x ++ t] is at the head of [a ++ x ++ S] when [t] is at the head
    of [S]. *)
Lemma Contains_frame (a x t S : string) :
  String.prefix t S = true -> Contains (a ++ x ++ S)%string (a ++ x ++ t)%string.
Proof.
  intros H. apply prefix_append in H as [rest ->].
  exists EmptyString, rest. rewrite append_empty, !string_app_assoc. reflexivity.
Qed.

(** Look for the text at the head of each tail of a chain of appends. *)
Ltac find_text :=
  match goal with
  | |- Contains (append ?a (append ?x ?S)) (append ?a (append ?x ?t)) =>
      apply (Contains_frame a x t S); reflexivity
  | |- Contains (append ?a ?b) ?t => apply (Contains_app_r a b t); find_text
  end.

Lemma card_shows_name (textClass icon name status : string) :
  Contains (Html.card textClass icon name status) (">" ++ name ++ "</span>")%string.
Proof. unfold Html.card. find_text. Qed.

Lemma card_shows_status (textClass icon name status : string) :
  Contains (Html.card textClass icon name status) (">" ++ status ++ "</p>")%string.
Proof. unfold Html.card. find_text. Qed.

Lemma groupHead_shows_title (title : string) :
  Contains (GroupedHtml.groupHead title) (">" ++ title ++ "</h1>")%string.
Proof. unfold GroupedHtml.groupHead. find_text. Qed.

(** X13.  Names, titles and statuses reach the page verbatim.  The page of
    the flat revision contains, for every [project, status] pair, the name
    of the project between [>] and [</span>] and the text of the status
    between [>] and [</p>], exactly as they are: nothing is escaped.  The
    page of the grouped revision contains likewise the title of every group
    and the name of every allocated project of every group. *)
Theorem page_shows_names_verbatim
    (results : list (Flat.IProject * RepoStatus))
    (h : Grouped.Heap) (config : Grouped.IConfig) :
  (forall project status, In (project, status) results ->
     Contains (FlatHtml.renderOutput results) (">" ++ Flat.name project ++ "</span>")%string
     /\ Contains (FlatHtml.renderOutput results)
                 (">" ++ RepoStatus_value status ++ "</p>")%string)
  /\ (forall group, In group (Grouped.groups config) ->
        Contains (GroupedHtml.renderOutput h config)
                 (">" ++ Grouped.title group ++ "</h1>")%string
        /\ forall l p, In l (Grouped.projects group) -> h !! l = Some p ->
             Contains (GroupedHtml.renderOutput h config)
                      (">" ++ Grouped.name p ++ "</span>")%string).
Proof.
  split.
  - intros project status Hin. rewrite Flat_page_of_cards.
    assert (In (Html.cardOf (mkCard (getStatusTextClass (Some status))
                               (getStatusIconName (Some status))
                               (Flat.name project) (statusText (Some status))))
               (map Html.cardOf (Flat.renderOutput results))) as Hcard.
    { apply in_map. unfold Flat.renderOutput.
      apply in_map_iff. exists (project, status). split; [reflexivity | exact Hin]. }
    split; apply Contains_app_r, Contains_app_l;
      apply (Contains_join _ _ _ Hcard); unfold Html.cardOf;
      cbn [card_textClass card_icon card_name card_status].
    + exact (card_shows_name _ _ _ _).
    + exact (card_shows_status _ _ _ _).
  - intros group Hg. rewrite Grouped_page_of_cards.
    assert (In (GroupedHtml.sectionOf
                  (Grouped.title group,
                   concat (map (Grouped.renderProject h) (Grouped.projects group))))
               (map GroupedHtml.sectionOf (Grouped.renderOutput h config))) as Hsec.
    { apply in_map. unfold Grouped.renderOutput. apply in_map_iff.
      exists group. split; [reflexivity | exact Hg]. }
    split.
    + apply Contains_app_r, Contains_app_l. apply (Contains_join _ _ _ Hsec).
      unfold GroupedHtml.sectionOf. cbn [fst]. apply Contains_app_l.
      exact (groupHead_shows_title _).
    + intros l p Hl Hp. apply Contains_app_r, Contains_app_l.
      apply (Contains_join _ _ _ Hsec).
      unfold GroupedHtml.sectionOf. cbn [fst snd]. apply Contains_app_r, Contains_app_l.
      set (c := mkCard (getStatusTextClass (Grouped.repoStatus p))
                       (getStatusIconName (Grouped.repoStatus p))
                       (Grouped.name p) (statusText (Grouped.repoStatus p))).
      assert (In (Html.cardOf c)
                 (map Html.cardOf
                    (concat (map (Grouped.renderProject h) (Grouped.projects group)))))
        as Hc.
      { apply in_map. apply in_concat.
        exists (Grouped.renderProject h l). split; [apply in_map, Hl|].
        unfold Grouped.renderProject. rewrite Hp. left. reflexivity. }
      apply (Contains_join _ _ _ Hc). subst c. unfold Html.cardOf.
      cbn [card_textClass card_icon card_name card_status].
      exact (card_shows_name _ _ _ _).
Qed.

End HtmlContents.

(** ** Start-up *)

Section StartupFacts.

Lemma falsy_false_iff (x : option string) :
  Startup.falsy x = false <-> exists s, x = Some s /\ s <> "".
Proof.
  destruct x as [[|c s]|]; cbn; split; try discriminate; try (intros (s' & H & Hne); congruence).
  intros _. eexists. split; [reflexivity | discriminate].
Qed.

Lemma invalid_test_iff (project : Startup.RawProject) :
  Startup.falsy (Startup.path project) || Startup.falsy (Startup.name project) = false
  <-> Startup.valid project.
Proof.
  unfold Startup.valid. rewrite orb_false_iff, !falsy_false_iff. tauto.
Qed.

Lemma firstInvalid_None_iff (ps : list Startup.RawProject) :
  Startup.firstInvalid ps = None <-> Forall Startup.valid ps.
Proof.
  induction ps as [|p ps IH]; cbn [Startup.firstInvalid].
  - split; [constructor | reflexivity].
  - destruct (Startup.falsy (Startup.path p) || Startup.falsy (Startup.name p)) eqn:E.
    + split; [discriminate|]. intros H. apply Forall_cons in H as [H _].
      apply invalid_test_iff in H. congruence.
    + rewrite IH. apply invalid_test_iff in E. rewrite Forall_cons. tauto.
Qed.

Lemma firstInvalid_Some (ps : list Startup.RawProject) (p : Startup.RawProject) :
  Startup.firstInvalid ps = Some p -> In p ps /\ ~ Startup.valid p.
Proof.
  induction ps as [|q ps IH]; cbn [Startup.firstInvalid]; [discriminate|].
  destruct (Startup.falsy (Startup.path q) || Startup.falsy (Startup.name q)) eqn:E.
  - intros H. injection H as <-. split; [now left|].
    rewrite <- invalid_test_iff. congruence.
  - intros H. apply IH in H as [H1 H2]. split; [now right | exact H2].
Qed.

(** A group the checks accept: it has an array of projects, all valid. *)
Lemma checkGroups_Listening_iff {C} (config c : C) (gs : list Startup.RawGroup) :
  Startup.checkGroups config gs = Startup.Listening c
  <-> c = config
      /\ Forall (fun g => exists ps, Startup.projects g = Some ps /\ Forall Startup.valid ps) gs.
Proof.
  induction gs as [|g gs IH]; cbn [Startup.checkGroups].
  - split; [intros H; injection H as <-; split; [reflexivity | constructor]|].
    intros [-> _]. reflexivity.
  - destruct (Startup.projects g) as [ps|] eqn:Eps.
    + destruct (Startup.firstInvalid ps) as [p|] eqn:Ef.
      * split; [discriminate|]. intros [_ H]. apply Forall_cons in H as [(ps' & Hps & Hv) _].
        apply firstInvalid_None_iff in Hv. congruence.
      * rewrite IH, Forall_cons. apply firstInvalid_None_iff in Ef.
        split; [intros [-> H]; split; [reflexivity | split; eauto]|].
        intros [-> [_ H]]. split; [reflexivity | exact H].
    + split; [discriminate|]. intros [_ H]. apply Forall_cons in H as [(ps' & Hps & _) _].
      congruence.
Qed.

Lemma checkGroups_Returned {C} (config : C) (gs : list Startup.RawGroup)
    (line : string) (subject : option Startup.RawProject) :
  Startup.checkGroups config gs = Startup.Returned line subject ->
  exists g ps p,
    In g gs /\ Startup.projects g = Some ps /\ In p ps /\ ~ Startup.valid p
    /\ subject = Some p.
Proof.
  induction gs as [|g gs IH]; cbn [Startup.checkGroups]; [discriminate|].
  destruct (Startup.projects g) as [ps|] eqn:Eps; [|discriminate].
  destruct (Startup.firstInvalid ps) as [p|] eqn:Ef.
  - intros H. injection H as _ <-. apply firstInvalid_Some in Ef as [H1 H2].
    exists g, ps, p. repeat split; auto. now left.
  - intros H. destruct (IH H) as (g' & ps' & p' & Hg & K).
    exists g', ps', p'. split; [now right | exact K].
Qed.

Lemma one_argument (argv : list string) :
  negb (Nat.eqb (List.length (skipn 2 argv)) 1) = false
  <-> exists configPath, skipn 2 argv = [configPath].
Proof.
  rewrite negb_false_iff, Nat.eqb_eq. destruct (skipn 2 argv) as [|a [|b l]]; cbn.
  - split; [discriminate | intros [p H]; discriminate].
  - split; [eauto | reflexivity].
  - split; [discriminate | intros [p H]; discriminate].
Qed.

(** X14.  When the grouped revision starts serving.  The start-up closure
    reaches [listen] exactly when the command line has one argument after
    the script, the file it names parses, [groups] is a non-empty array,
    every group has an array of projects (which may be empty), and every
    project has a non-empty name and a non-empty path; the configuration it
    serves is the parsed one.  When it returns naming a project, that
    project is one of the configuration and lacks a name or a path. *)
Theorem startup_listens_iff_valid
    (readGrouped : string -> Promise Startup.RawConfig)
    (argv : list string) (config : Startup.RawConfig) :
  (Startup.mainGrouped readGrouped argv = Startup.Listening config
   <-> exists configPath gs,
         skipn 2 argv = [configPath]
         /\ readGrouped configPath = Resolved config
         /\ Startup.groups config = Some gs
         /\ gs <> []
         /\ Forall (fun g => exists ps, Startup.projects g = Some ps
                                        /\ Forall Startup.valid ps) gs)
  /\ (forall line p,
        Startup.mainGrouped readGrouped argv = Startup.Returned line (Some p) ->
        ~ Startup.valid p
        /\ exists configPath parsed gs g ps,
             skipn 2 argv = [configPath] /\ readGrouped configPath = Resolved parsed
             /\ Startup.groups parsed = Some gs /\ In g gs
             /\ Startup.projects g = Some ps /\ In p ps).
Proof.
  unfold Startup.mainGrouped. cbv zeta.
  destruct (negb (Nat.eqb (List.length (skipn 2 argv)) 1)) eqn:Eargs.
  - split; [split; [discriminate|] | intros line p H; discriminate].
    intros (configPath & gs & Hargs & _).
    assert (negb (Nat.eqb (List.length (skipn 2 argv)) 1) = false) as K
      by (apply one_argument; eauto).
    congruence.
  - apply one_argument in Eargs as [configPath Hargs]. rewrite Hargs. cbn [nth].
    destruct (readGrouped configPath) as [parsed|reason] eqn:Eread.
    + destruct (Startup.groups parsed) as [[|g gs]|] eqn:Egs.
      * split; [split; [discriminate|] | intros line p H; discriminate].
        intros (cp & gs & Hcp & Hr & Hg & Hne & _). injection Hcp as <-.
        rewrite Eread in Hr. injection Hr as <-. congruence.
      * split.
        -- rewrite checkGroups_Listening_iff. split.
           ++ intros [-> H]. exists configPath, (g :: gs). repeat split; auto; try discriminate.
           ++ intros (cp & gs' & Hcp & Hr & Hg & _ & H). injection Hcp as <-.
              rewrite Eread in Hr. injection Hr as <-. rewrite Egs in Hg. injection Hg as <-.
              split; [reflexivity | exact H].
        -- intros line p H. apply checkGroups_Returned in H
             as (g' & ps & p' & Hg & Hps & Hin & Hv & Heq).
           injection Heq as <-. split; [exact Hv|].
           exists configPath, parsed, (g :: gs), g', ps. repeat split; auto.
      * split; [split; [discriminate|] | intros line p H; discriminate].
        intros (cp & gs & Hcp & Hr & Hg & _). injection Hcp as <-.
        rewrite Eread in Hr. injection Hr as <-. congruence.
    + split; [split; [discriminate|] | intros line p H; discriminate].
      intros (cp & gs & Hcp & Hr & _). injection Hcp as <-. congruence.
Qed.

(** X15.  When the flat revision starts serving: exactly when the command
    line has one argument after the script, the file it names parses,
    [projects] is a non-empty array and every project has a non-empty name
    and a non-empty path.  Unlike the grouped revision it refuses a
    configuration with no project at all. *)
Theorem flat_startup_listens_iff_valid
    (readFlat : string -> Promise Startup.RawFlatConfig)
    (argv : list string) (config : Startup.RawFlatConfig) :
  Startup.mainFlat readFlat argv = Startup.Listening config
  <-> exists configPath ps,
        skipn 2 argv = [configPath]
        /\ readFlat configPath = Resolved config
        /\ Startup.flatProjects config = Some ps
        /\ ps <> []
        /\ Forall Startup.valid ps.
Proof.
  unfold Startup.mainFlat. cbv zeta.
  destruct (negb (Nat.eqb (List.length (skipn 2 argv)) 1)) eqn:Eargs.
  - split; [discriminate|]. intros (configPath & ps & Hargs & _).
    assert (negb (Nat.eqb (List.length (skipn 2 argv)) 1) = false) as K
      by (apply one_argument; eauto).
    congruence.
  - apply one_argument in Eargs as [configPath Hargs]. rewrite Hargs. cbn [nth].
    destruct (readFlat configPath) as [parsed|reason] eqn:Eread.
    + destruct (Startup.flatProjects parsed) as [[|p ps]|] eqn:Eps.
      * split; [discriminate|]. intros (cp & ps & Hcp & Hr & Hp & Hne & _).
        injection Hcp as <-. rewrite Eread in Hr. injection Hr as <-. congruence.
      * destruct (Startup.firstInvalid (p :: ps)) as [q|] eqn:Ef.
        -- split; [discriminate|]. intros (cp & ps' & Hcp & Hr & Hp & _ & Hv).
           injection Hcp as <-. rewrite Eread in Hr. injection Hr as <-.
           rewrite Eps in Hp. injection Hp as <-.
           apply firstInvalid_None_iff in Hv. congruence.
        -- apply firstInvalid_None_iff in Ef. split.
           ++ intros H. injection H as <-. exists configPath, (p :: ps).
              repeat split; auto; try discriminate.
           ++ intros (cp & ps' & Hcp & Hr & _). injection Hcp as <-.
              rewrite Eread in Hr. injection Hr as <-. reflexivity.
      * split; [discriminate|]. intros (cp & ps & Hcp & Hr & Hp & _).
        injection Hcp as <-. rewrite Eread in Hr. injection Hr as <-. congruence.
    + split; [discriminate|]. intros (cp & ps & Hcp & Hr & _).
      injection Hcp as <-. congruence.
Qed.

End StartupFacts.

(** ** A request and the statuses left by earlier ones *)

Section StaleStatuses.

Context {World : Type}.
Variable classify : string -> string -> Async World unit RepoStatus.

Lemma checkProject_alike (visited : Grouped.ref -> Prop) (x : Grouped.ref)
    (st1 st2 : Proc World Grouped.Heap) :
  Stale.alike visited st1 st2 ->
  Stale.alike (fun l => l = x \/ visited l)
        (snd (Grouped.checkProject classify x st1)) (snd (Grouped.checkProject classify x st2)).
Proof.
  intros (Hw & Hi & Hro & Hv).
  pose proof (Hro x) as Hx.
  destruct (heap st1 !! x) as [p1|] eqn:E1; destruct (heap st2 !! x) as [p2|] eqn:E2;
    try discriminate.
  - assert (Grouped.readonly p1 = Grouped.readonly p2) as Hr
      by (cbn in Hx; unfold Grouped.readonly in *; congruence).
    clear Hx. rename Hr into Hx.
    destruct (resolveGitDir_readonly p1 p2 Hx) as [Hp Hg].
    rewrite (Grouped_checkProject_allocated classify x p1 st1 E1),
      (Grouped_checkProject_allocated classify x p2 st2 E2).
    cbv zeta. rewrite Hw, Hi, Hp, Hg. cbn [snd world issued heap].
    set (r := classify _ _ _).
    repeat split; cbn [snd world issued heap]; try reflexivity.
    + intros l. rewrite !readonly_alter. apply Hro.
    + intros l Hl. rewrite !lookup_alter. case_decide as Hd.
      * subst l. rewrite E1, E2. cbn. f_equal. apply setRepoStatus_readonly, Hx.
      * destruct Hl as [->|Hl]; [congruence | apply Hv, Hl].
  - rewrite !Grouped_checkProject_dangling by assumption. cbn [snd].
    repeat split; try assumption.
    intros l [->|Hl]; [congruence | apply Hv, Hl].
Qed.

Lemma loop_alike (xs : list Grouped.ref) (visited : Grouped.ref -> Prop)
    (st1 st2 : Proc World Grouped.Heap) :
  Stale.alike visited st1 st2 ->
  Stale.alike (fun l => In l xs \/ visited l)
        (snd (forOf xs (Grouped.checkProject classify) st1))
        (snd (forOf xs (Grouped.checkProject classify) st2)).
Proof.
  revert visited st1 st2. induction xs as [|x xs IH]; intros visited st1 st2 H; cbn [forOf].
  - destruct H as (Hw & Hi & Hro & Hv). repeat split; try assumption.
    intros l [[]|Hl]. apply Hv, Hl.
  - unfold bind. pose proof (checkProject_alike visited x st1 st2 H) as H1.
    destruct (Grouped_checkProject_resolves classify x st1) as [s1 E1].
    destruct (Grouped_checkProject_resolves classify x st2) as [s2 E2].
    rewrite E1, E2 in *. cbn [snd] in H1.
    destruct (IH _ s1 s2 H1) as (Hw & Hi & Hro & Hv). repeat split; try assumption.
    intros l Hl. apply Hv. cbn [In] in Hl. intuition.
Qed.

(** X16.  No status outlives a request.  Whatever the classifier does, two
    processes in the same world whose heaps hold the same projects, but with
    whatever statuses earlier requests left, answer a request with the same
    page, spawn the same commands, end in the same world, and hold the same
    objects for all projects of the configuration. *)
Theorem request_ignores_stale_statuses (config : Grouped.IConfig)
    (st1 st2 : Proc World Grouped.Heap) :
  world st1 = world st2 ->
  issued st1 = issued st2 ->
  (forall l, Grouped.readonly <$> heap st1 !! l = Grouped.readonly <$> heap st2 !! l) ->
  fst (Grouped.requestListenerWith classify config st1)
  = fst (Grouped.requestListenerWith classify config st2)
  /\ world (snd (Grouped.requestListenerWith classify config st1))
     = world (snd (Grouped.requestListenerWith classify config st2))
  /\ issued (snd (Grouped.requestListenerWith classify config st1))
     = issued (snd (Grouped.requestListenerWith classify config st2))
  /\ Grouped.snapshot (heap (snd (Grouped.requestListenerWith classify config st1))) config
     = Grouped.snapshot (heap (snd (Grouped.requestListenerWith classify config st2))) config.
Proof.
  intros Hw Hi Hro.
  assert (Stale.alike (fun _ => False) st1 st2) as H0 by (repeat split; tauto).
  apply (loop_alike (concat (map Grouped.projects (Grouped.groups config)))) in H0.
  rewrite <- !Grouped_pass_flat in H0. destruct H0 as (Hw' & Hi' & _ & Hv).
  rewrite !Grouped_requestListenerWith_pass. cbn [fst snd].
  assert (forall group l, In group (Grouped.groups config) -> In l (Grouped.projects group) ->
            heap (snd (Grouped.pass classify config st1)) !! l
            = heap (snd (Grouped.pass classify config st2)) !! l) as Hsame.
  { intros group l Hg Hl. apply Hv. left. apply in_concat.
    exists (Grouped.projects group). split; [apply in_map, Hg | exact Hl]. }
  assert (Grouped.snapshot (heap (snd (Grouped.pass classify config st1))) config
          = Grouped.snapshot (heap (snd (Grouped.pass classify config st2))) config) as Hsnap.
  { unfold Grouped.snapshot. apply map_ext_in. intros group Hg. f_equal.
    apply map_ext_in. intros l Hl. apply (Hsame group l Hg Hl). }
  repeat split; try assumption.
  do 2 f_equal. unfold Grouped.renderOutput, Grouped.spread. cbn [Grouped.groups].
  apply map_ext_in. intros group Hg. f_equal. f_equal.
  apply map_ext_in. intros l Hl. unfold Grouped.renderProject.
  rewrite (Hsame group l Hg Hl). reflexivity.
Qed.

End StaleStatuses.

(** ** The further properties at concrete inputs *)

(** Deciding the preconditions of the counts on concrete answers. *)
Ltac no_untracked :=
  let H := fresh in
  vm_compute; intros H;
  repeat match type of H with _ \/ _ => destruct H as [H|H] end;
  first [discriminate H | contradiction].

Ltac positive_count n := exists n; split; [vm_compute; reflexivity | lia].

Ltac not_positive_count :=
  let n := fresh in let H := fresh in let K := fresh in
  intros (n & H & K); vm_compute in H; first [discriminate H | injection H as <-; lia].

(** X3 at a clean repository two commits ahead and three behind. *)
Lemma ahead_count_wins_witness :
  fst (Flat.getRepoStatus (calling Script.exec) "/projects/site"
         (Script.start (Scenes.diverged "/projects/site") tt)) = Resolved UnpushedChanges
  /\ fst (Grouped.getRepoStatus (calling Script.exec) "/projects/site" "/projects/site/.git"
            (Script.start (Scenes.diverged "/projects/site") tt)) = Resolved UnpushedChanges.
Proof.
  pose proof (ahead_count_wins Script.exec "/projects/site" "/projects/site/.git"
                (Script.start (Scenes.diverged "/projects/site") tt)) as (HF & HG).
  split.
  - apply HF.
    + repeat split; first [lacks_text | no_untracked | vm_compute; lia].
    + positive_count 2.
  - apply HG.
    + repeat split; first [lacks_text | vm_compute; reflexivity].
    + positive_count 2.
Defined.

(** X4 at a clean repository three commits behind. *)
Lemma behind_count_decides_witness :
  fst (Flat.getRepoStatus (calling Script.exec) "/projects/site"
         (Script.start (Scenes.behind "/projects/site") tt)) = Resolved UnpulledChanges
  /\ fst (Grouped.getRepoStatus (calling Script.exec) "/projects/site" "/projects/site/.git"
            (Script.start (Scenes.behind "/projects/site") tt)) = Resolved UnpulledChanges.
Proof.
  pose proof (behind_count_decides Script.exec "/projects/site" "/projects/site/.git"
                (Script.start (Scenes.behind "/projects/site") tt)) as (HF & HG).
  split.
  - apply HF.
    + repeat split; first [lacks_text | no_untracked | vm_compute; lia].
    + not_positive_count.
    + positive_count 3.
  - apply HG.
    + repeat split; first [lacks_text | vm_compute; reflexivity].
    + not_positive_count.
    + positive_count 3.
Defined.

(** X6 in a scripted world, whose commands leave the table as it is. *)
Lemma classification_is_repeatable_witness :
  let st := Script.start (Script.modifiedAndUntracked "/projects/site") tt in
  let st1 := snd (Grouped.getRepoStatus (calling Script.exec) "/projects/site" "/projects/site/.git" st) in
  fst (Grouped.getRepoStatus (calling Script.exec) "/projects/site" "/projects/site/.git" st1)
  = fst (Grouped.getRepoStatus (calling Script.exec) "/projects/site" "/projects/site/.git" st).
Proof.
  intros st st1.
  apply (proj2 (classification_is_repeatable Script.exec "/projects/site" "/projects/site/.git" st)).
  intros c _ w. reflexivity.
Defined.

(** X7 at the repository with one modified file: the scripted world answers
    both revisions alike, and they differ in the second of the two ways. *)
Lemma revisions_differ_only_witness :
  let st := Script.start (Script.oneModified "/projects/site") tt in
  let oG := outcomesOf (fst (run Script.exec
                               (Grouped.commands "/projects/site" "/projects/site/.git")
                               (world st))) in
  fst (Flat.getRepoStatus (calling Script.exec) "/projects/site" st)
  = fst (Grouped.getRepoStatus (calling Script.exec) "/projects/site" "/projects/site/.git" st)
  \/ fst (Grouped.getRepoStatus (calling Script.exec) "/projects/site" "/projects/site/.git" st)
     = Resolved UnknownError
  \/ (fst (Grouped.getRepoStatus (calling Script.exec) "/projects/site" "/projects/site/.git" st)
      = Resolved UncommittedChanges
      /\ List.length (Flat.statusCodes (stdout (statusCheck oG))) = 1%nat).
Proof.
  intros st oG.
  apply (revisions_differ_only Script.exec "/projects/site" "/projects/site/.git" st).
  vm_compute. reflexivity.
Defined.

(** X13 at one project. *)
Lemma page_shows_names_verbatim_witness :
  Contains (FlatHtml.renderOutput [(Flat.mkProject "site" "/projects/site", Okay)])
           ">site</span>".
Proof.
  apply (proj1 (page_shows_names_verbatim
                  [(Flat.mkProject "site" "/projects/site", Okay)]
                  Script.twoProjectsHeap Script.twoProjectsGrouped)
           (Flat.mkProject "site" "/projects/site") Okay).
  left. reflexivity.
Defined.

(** X14 at the configuration of the README, one of whose groups is empty. *)
Lemma startup_listens_iff_valid_witness :
  Startup.mainGrouped (fun _ => Resolved Scenes.readme) ["node"; "server.js"; "/config.json"]
  = Startup.Listening Scenes.readme.
Proof.
  apply (proj1 (startup_listens_iff_valid (fun _ => Resolved Scenes.readme)
                  ["node"; "server.js"; "/config.json"] Scenes.readme)).
  eexists "/config.json", _. split; [reflexivity|]. split; [reflexivity|].
  split; [reflexivity|]. split; [discriminate|].
  repeat constructor;
    (eexists; split; [reflexivity|]); repeat constructor;
    eexists; split; first [reflexivity | discriminate].
Defined.

(** X15 at a flat configuration of one project. *)
Lemma flat_startup_listens_iff_valid_witness :
  Startup.mainFlat (fun _ => Resolved Scenes.readmeFlat) ["node"; "server.js"; "/config.json"]
  = Startup.Listening Scenes.readmeFlat.
Proof.
  apply (flat_startup_listens_iff_valid (fun _ => Resolved Scenes.readmeFlat)
           ["node"; "server.js"; "/config.json"] Scenes.readmeFlat).
  eexists "/config.json", _. split; [reflexivity|]. split; [reflexivity|].
  split; [reflexivity|]. split; [discriminate|].
  repeat constructor; eexists; split; first [reflexivity | discriminate].
Defined.

(** X16 at the two projects, once fresh and once with the statuses of an
    earlier request: the same page. *)
Lemma request_ignores_stale_statuses_witness :
  fst (Grouped.requestListener (calling Script.exec) Script.twoProjectsGrouped
         (Script.start Script.twoProjectsWorld Script.twoProjectsHeap))
  = fst (Grouped.requestListener (calling Script.exec) Script.twoProjectsGrouped
           (Script.start Script.twoProjectsWorld Scenes.staleHeap)).
Proof.
  apply (request_ignores_stale_statuses (Grouped.getRepoStatus (calling Script.exec))
           Script.twoProjectsGrouped
           (Script.start Script.twoProjectsWorld Script.twoProjectsHeap)
           (Script.start Script.twoProjectsWorld Scenes.staleHeap)).
  - reflexivity.
  - reflexivity.
  - intros l. unfold Script.twoProjectsHeap, Scenes.staleHeap, Script.start. cbn [heap].
    destruct (decide (1%nat = l)) as [<-|H1]; [rewrite !lookup_insert_eq; reflexivity|].
    rewrite !(lookup_insert_ne _ 1%nat l) by exact H1.
    destruct (decide (0%nat = l)) as [<-|H0]; [rewrite !lookup_insert_eq; reflexivity|].
    rewrite !(lookup_insert_ne _ 0%nat l) by exact H0. reflexivity.
Defined.

(** X8 at the three projects: the card of the project whose path [exec]
    refuses, and no other, reads "Unknown Error". *)
Lemma Flat_UnknownError_only_when_exec_throws_witness :
  exists resp,
    fst (Flat.requestListener Script.node Scenes.threeProjectsFlat (repeat 0%nat 15)
           (Script.start Scenes.threeProjectsWorld tt)) = Some (Resolved resp)
    /\ Forall2 (fun project card =>
                  card_name card = Flat.name project
                  /\ (card_status card = "Unknown Error"
                      <-> exists reason,
                            fst (Flat.getRepoStatus Script.node (Flat.path project)
                                   (Script.start Scenes.threeProjectsWorld tt))
                            = Rejected reason))
               (Flat.projects Scenes.threeProjectsFlat) (body resp).
Proof.
  apply (proj2 (Flat_UnknownError_only_when_exec_throws Script.node Scenes.threeProjectsFlat
                  (repeat 0%nat 15) (Script.start Scenes.threeProjectsWorld tt))).
  - exact node_reads.
  - cbn. lia.
Defined.

(** X17 at a clean repository under the [exec] that refuses NUL
    characters: none of the five command lines holds one. *)
Lemma classification_of_an_exec_that_calls_back_witness :
  Flat.getRepoStatus Script.node "/projects/site"
    (Script.start (Script.cleanRepo "/projects/site") tt)
  = Flat.getRepoStatus (calling (answersOf Script.node)) "/projects/site"
      (Script.start (Script.cleanRepo "/projects/site") tt).
Proof.
  apply (proj1 (classification_of_an_exec_that_calls_back Script.node
                  "/projects/site" "/projects/site/.git"
                  (Script.start (Script.cleanRepo "/projects/site") tt))).
  intros c Hc w. cbn [In Flat.commands] in Hc.
  repeat match type of Hc with _ \/ _ => destruct Hc as [Hc|Hc] end;
    try contradiction; subst c; vm_compute; eauto.
Defined.
